(** * BusTub storage core: replacer, hash index and B+-tree index

    A shallow embedding of the page cache replacer (lru_replacer.cpp), the
    extendible hash index (hash_table_bucket_page.cpp,
    extendible_hash_table.cpp) and the B+-tree index (b_plus_tree.cpp,
    index_iterator.cpp), with the properties of the design document proved
    or refuted on the embedding.

    Conventions.  Machine integers are [Z]; page and frame identifiers are
    [Z] as well ([page_id_t] and [frame_id_t] are [int32_t]).  Pages live in
    a store indexed by page id, so that two pointers to one page observe the
    same contents.  Latches and the table-level locks order concurrent
    threads and have no effect on a single-threaded run; they appear only in
    the event logs. *)

From stdpp Require Import base tactics option list gmap sorting.
From Stdlib Require Import ZArith Lia Bool.

Local Open Scope Z_scope.

Set Warnings "-clear-no-such-hyp".

(** ** LRUReplacer (buffer/lru_replacer.cpp) *)

Module LRU.

Definition frame_id_t := Z.

(** [lst_] is the [std::list]: front = most recently unpinned, back = least
    recently unpinned.  [mp_] is the [std::unordered_map] from a frame to the
    iterator of its list node; only its key set decides the control flow, and
    [mp_[f]] always designates the node that [push_front f] created, so
    [lst_.erase(mp_[f])] is the removal of the node holding [f]. *)
Record LRUReplacer := mkLRU {
  capacity_ : nat;
  lst_ : list frame_id_t;
  mp_ : gset frame_id_t
}.

Definition new_replacer (num_pages : nat) : LRUReplacer :=
  {| capacity_ := num_pages; lst_ := []; mp_ := ∅ |}.

(** Removal of the node holding [f]. *)
Fixpoint erase_node (f : frame_id_t) (l : list frame_id_t) : list frame_id_t :=
  match l with
  | [] => []
  | x :: l' => if decide (x = f) then l' else x :: erase_node f l'
  end.

(** [Victim]: the inner option is the boolean result together with the
    out-parameter ([None] = returns false).  The outer [None] is
    [lst_.back()] on an empty list, which C++ leaves undefined. *)
Definition Victim (r : LRUReplacer) : option (option frame_id_t * LRUReplacer) :=
  if decide (mp_ r = ∅) then Some (None, r)
  else match last (lst_ r) with
       | Some f =>
           Some (Some f, {| capacity_ := capacity_ r;
                            lst_ := removelast (lst_ r);
                            mp_ := mp_ r ∖ {[ f ]} |})
       | None => None
       end.

Definition Pin (frame_id : frame_id_t) (r : LRUReplacer) : LRUReplacer :=
  if decide (frame_id ∈ mp_ r)
  then {| capacity_ := capacity_ r;
          lst_ := erase_node frame_id (lst_ r);
          mp_ := mp_ r ∖ {[ frame_id ]} |}
  else r.

Definition Unpin (frame_id : frame_id_t) (r : LRUReplacer) : LRUReplacer :=
  if decide ((frame_id ∉ mp_ r) ∧ (size (mp_ r) ≠ capacity_ r))
  then {| capacity_ := capacity_ r;
          lst_ := frame_id :: lst_ r;
          mp_ := {[ frame_id ]} ∪ mp_ r |}
  else r.

Definition Size (r : LRUReplacer) : nat := size (mp_ r).

(** Sequences of replacer operations. *)
Inductive op := OpVictim | OpPin (f : frame_id_t) | OpUnpin (f : frame_id_t).

Definition step (o : op) (r : LRUReplacer) : option LRUReplacer :=
  match o with
  | OpVictim => (snd <$> Victim r)
  | OpPin f => Some (Pin f r)
  | OpUnpin f => Some (Unpin f r)
  end.

Fixpoint run (ops : list op) (r : LRUReplacer) : option LRUReplacer :=
  match ops with
  | [] => Some r
  | o :: ops' => match step o r with
                 | Some r' => run ops' r'
                 | None => None
                 end
  end.

(** [n] successive calls of [Victim], collecting the frames returned. *)
Fixpoint victims (n : nat) (r : LRUReplacer) : list frame_id_t :=
  match n with
  | O => []
  | S n' => match Victim r with
            | Some (Some f, r') => f :: victims n' r'
            | _ => []
            end
  end.

(** Ghost history: every resident paired with the position, in the operation
    sequence, of the [Unpin] that inserted it.  It is computed from the
    replacer's own transitions and only observes them. *)
Definition stamp_step (t : nat) (o : op) (r : LRUReplacer)
    (g : list (frame_id_t * nat)) : list (frame_id_t * nat) :=
  match o with
  | OpVictim => match Victim r with
                | Some (Some _, _) => removelast g
                | _ => g
                end
  | OpPin f => if decide (f ∈ mp_ r) then filter (λ p, p.1 ≠ f) g else g
  | OpUnpin f => if decide (lst_ (Unpin f r) = lst_ r) then g else (f, t) :: g
  end.

Fixpoint stamps (t : nat) (ops : list op) (r : LRUReplacer)
    (g : list (frame_id_t * nat)) : list (frame_id_t * nat) :=
  match ops with
  | [] => g
  | o :: ops' => match step o r with
                 | Some r' => stamps (S t) ops' r' (stamp_step t o r g)
                 | None => g
                 end
  end.

(** Stamps decrease from the front of the list to its back. *)
Definition newer (p q : frame_id_t * nat) : Prop := (q.2 < p.2)%nat.

Definition stamp_inv (t : nat) (r : LRUReplacer) (g : list (frame_id_t * nat)) : Prop :=
  g.*1 = lst_ r ∧ StronglySorted newer g ∧ Forall (λ p, (p.2 < t)%nat) g.

(** The representation invariant of the replacer. *)
Definition lru_inv (r : LRUReplacer) : Prop :=
  NoDup (lst_ r) ∧ (∀ f, f ∈ mp_ r ↔ f ∈ lst_ r) ∧
  (length (lst_ r) ≤ capacity_ r)%nat.


Section lru_facts.

Implicit Types (r : LRUReplacer) (f : frame_id_t).

Lemma lru_inv_size r : lru_inv r → size (mp_ r) = length (lst_ r).
Proof.
  intros (Hnd & Hmp & _).
  assert (mp_ r = list_to_set (lst_ r)) as Heq by set_solver.
  rewrite Heq. by apply size_list_to_set.
Qed.

Lemma lru_inv_empty r : lru_inv r → (mp_ r = ∅ ↔ lst_ r = []).
Proof.
  intros (_ & Hmp & _). split.
  - intros He. destruct (lst_ r) as [|x l] eqn:E; [done|].
    exfalso. assert (x ∈ mp_ r) by (apply Hmp; left). set_solver.
  - intros He. apply set_eq. intros x. rewrite Hmp, He. set_solver.
Qed.

Lemma lru_inv_new c : lru_inv (new_replacer c).
Proof.
  repeat split; simpl; try set_solver; [constructor | lia].
Qed.

Lemma erase_node_notin f l : f ∉ l → erase_node f l = l.
Proof.
  induction l as [|x l IH]; simpl; [done|]. intros Hn.
  destruct (decide (x = f)) as [->|]; [set_solver|].
  f_equal. apply IH. set_solver.
Qed.

Lemma erase_node_elem f x l :
  NoDup l → (x ∈ erase_node f l ↔ x ∈ l ∧ x ≠ f).
Proof.
  induction 1 as [|y l Hy Hnd IH]; simpl; [set_solver|].
  destruct (decide (y = f)) as [->|Hne]; [set_solver|].
  rewrite !elem_of_cons, IH. naive_solver.
Qed.

Lemma erase_node_NoDup f l : NoDup l → NoDup (erase_node f l).
Proof.
  induction 1 as [|y l Hy Hnd IH]; simpl; [constructor|].
  destruct (decide (y = f)); [done|].
  constructor; [|done]. rewrite erase_node_elem by done. tauto.
Qed.

Lemma erase_node_length f l :
  f ∈ l → S (length (erase_node f l)) = length l.
Proof.
  induction l as [|y l IH]; simpl; [set_solver|].
  destruct (decide (y = f)); [done|].
  intros [?|?]%elem_of_cons; [congruence|]. simpl. by rewrite IH.
Qed.

Lemma Pin_inv f r : lru_inv r → lru_inv (Pin f r).
Proof.
  intros Hi. pose proof Hi as (Hnd & Hmp & Hc). unfold Pin.
  destruct (decide (f ∈ mp_ r)) as [Hin|]; [|done].
  repeat split; simpl.
  - by apply erase_node_NoDup.
  - rewrite erase_node_elem by done. set_solver.
  - rewrite erase_node_elem by done. set_solver.
  - apply Hmp, erase_node_length in Hin. lia.
Qed.

Lemma Unpin_inv f r : lru_inv r → lru_inv (Unpin f r).
Proof.
  intros Hi. pose proof (lru_inv_size _ Hi) as Hs.
  destruct Hi as (Hnd & Hmp & Hc). unfold Unpin.
  destruct (decide _) as [[Hn Hsz]|]; [|done].
  repeat split; simpl.
  - constructor; [|done]. by rewrite <- Hmp.
  - set_solver.
  - set_solver.
  - lia.
Qed.

Lemma Victim_spec r :
  lru_inv r →
  (lst_ r = [] ∧ Victim r = Some (None, r)) ∨
  (∃ l f r', lst_ r = l ++ [f] ∧ Victim r = Some (Some f, r') ∧
             lst_ r' = l ∧ capacity_ r' = capacity_ r ∧ lru_inv r').
Proof.
  intros Hi. pose proof (lru_inv_empty _ Hi) as He.
  destruct Hi as (Hnd & Hmp & Hc). unfold Victim.
  destruct (decide (mp_ r = ∅)) as [Hm|Hm].
  - left. split; [by apply He|done].
  - right. destruct (lst_ r) as [|x l0] eqn:E using rev_ind.
    { exfalso. by apply Hm, He. }
    clear IHl0. exists l0, x, {| capacity_ := capacity_ r; lst_ := l0;
                              mp_ := mp_ r ∖ {[ x ]} |}.
    rewrite last_snoc, removelast_last. split_and!; try done.
    apply NoDup_app in Hnd as (Hnd1 & Hnd2 & _).
    repeat split; simpl.
    + done.
    + intros [Hf Hx]%elem_of_difference. apply Hmp in Hf.
      rewrite elem_of_app in Hf. set_solver.
    + intros Hf. apply elem_of_difference. split.
      * apply Hmp. set_solver.
      * intros ->%elem_of_singleton. by apply (Hnd2 x); [|left].
    + rewrite length_app in Hc. simpl in Hc. lia.
Qed.

Lemma step_inv o r : lru_inv r → ∃ r', step o r = Some r' ∧ lru_inv r' ∧
                                        capacity_ r' = capacity_ r.
Proof.
  intros Hi. destruct o as [|f|f]; simpl.
  - destruct (Victim_spec r Hi) as [[_ ->]|(l & f & r' & _ & -> & _ & Hc & Hi')];
      simpl; eauto.
  - eexists; split_and!; [done|by apply Pin_inv|].
    unfold Pin. by destruct (decide _).
  - eexists; split_and!; [done|by apply Unpin_inv|].
    unfold Unpin. by destruct (decide _).
Qed.

Lemma run_inv ops r :
  lru_inv r → ∃ r', run ops r = Some r' ∧ lru_inv r' ∧ capacity_ r' = capacity_ r.
Proof.
  revert r. induction ops as [|o ops IH]; intros r Hi; simpl; [eauto|].
  destruct (step_inv o r Hi) as (r1 & -> & Hi1 & Hc1).
  destruct (IH r1 Hi1) as (r2 & -> & Hi2 & Hc2). exists r2. split_and!; congruence.
Qed.

Lemma victims_drain r :
  lru_inv r → victims (length (lst_ r)) r = rev (lst_ r).
Proof.
  remember (length (lst_ r)) as n eqn:Hn. revert r Hn.
  induction n as [|n IH]; intros r Hn Hi.
  - destruct (lst_ r); [done|discriminate].
  - simpl. destruct (Victim_spec r Hi) as [[He _]|(l & f & r' & El & -> & <- & _ & Hi')].
    { rewrite He in Hn. discriminate. }
    rewrite El, length_app in Hn. simpl in Hn.
    rewrite El, rev_unit. f_equal. apply IH; [lia|done].
Qed.

Lemma filter_ne_notin f (g : list (frame_id_t * nat)) :
  f ∉ g.*1 → filter (λ p, p.1 ≠ f) g = g.
Proof.
  induction g as [|[x t] g IH]; simpl; [done|]. intros Hn.
  rewrite filter_cons_True by (simpl; set_solver).
  f_equal. apply IH. set_solver.
Qed.

Lemma erase_node_filter f (g : list (frame_id_t * nat)) :
  NoDup (g.*1) → erase_node f (g.*1) = (filter (λ p, p.1 ≠ f) g).*1.
Proof.
  induction g as [|[x t] g IH]; simpl; [done|]. intros Hnd.
  apply NoDup_cons in Hnd as [Hx Hnd].
  destruct (decide (x = f)) as [->|Hne].
  - rewrite filter_cons_False by (simpl; tauto).
    by rewrite filter_ne_notin.
  - rewrite filter_cons_True by done. rewrite fmap_cons. simpl. f_equal.
    by apply IH.
Qed.

Lemma Forall_filter_keep {A} (P Q : A → Prop) `{!∀ x, Decision (P x)} l :
  Forall Q l → Forall Q (filter P l).
Proof.
  rewrite !Forall_forall. intros HQ x [_ Hx]%list_elem_of_filter. by apply HQ.
Qed.

Lemma StronglySorted_filter_newer (P : frame_id_t * nat → Prop)
    `{!∀ x, Decision (P x)} g :
  StronglySorted newer g → StronglySorted newer (filter P g).
Proof.
  induction 1 as [|x g Hs IH Hx]; [constructor|].
  destruct (decide (P x)).
  - rewrite filter_cons_True by done. constructor; [done|].
    by apply Forall_filter_keep.
  - by rewrite filter_cons_False.
Qed.

Lemma removelast_fmap {A B} (h : A → B) (l : list A) :
  removelast (h <$> l) = h <$> removelast l.
Proof.
  destruct l as [|x l] using rev_ind; [done|].
  rewrite fmap_app, removelast_last. apply (removelast_last (h <$> l) (h x)).
Qed.

Lemma stamp_step_inv t o r r' g :
  lru_inv r → stamp_inv t r g → step o r = Some r' →
  stamp_inv (S t) r' (stamp_step t o r g).
Proof.
  intros Hi (Hg & Hs & Ht) Hst.
  assert (Forall (λ p, (p.2 < S t)%nat) g) as Ht'
    by (eapply Forall_impl; [done|]; simpl; lia).
  destruct o as [|f|f]; simpl in *.
  - destruct (Victim_spec r Hi) as [[_ Hv]|(l & f & r1 & El & Hv & El' & _)];
      rewrite Hv in *; simpl in Hst; simplify_eq; [done|].
    split_and!.
    + by rewrite <- removelast_fmap, Hg, El, removelast_last.
    + destruct g as [|x g _] using rev_ind; [done|].
      rewrite removelast_last. by apply StronglySorted_app_1_l in Hs.
    + destruct g as [|x g _] using rev_ind; [done|].
      rewrite removelast_last. by apply Forall_app in Ht' as [? _].
  - simplify_eq. unfold Pin. destruct (decide (f ∈ mp_ r)); [|done].
    split_and!; simpl.
    + rewrite <- Hg. symmetry. apply erase_node_filter.
      rewrite Hg. apply Hi.
    + by apply StronglySorted_filter_newer.
    + by apply Forall_filter_keep.
  - simplify_eq. unfold Unpin. destruct (decide _) as [Hc|Hc]; simpl.
    + rewrite decide_False by (intros He; by apply (f_equal length) in He; simpl in He; lia).
      split_and!; simpl.
      * f_equal. exact Hg.
      * constructor; [done|]. eapply Forall_impl; [exact Ht|]. by unfold newer.
      * constructor; [simpl; lia|done].
    + by rewrite decide_True.
Qed.

Lemma stamps_inv ops : ∀ t r g r',
  lru_inv r → stamp_inv t r g → run ops r = Some r' →
  ∃ t', stamp_inv t' r' (stamps t ops r g).
Proof.
  induction ops as [|o ops IH]; intros t r g r' Hi Hg Hr; simpl in *.
  - simplify_eq. eauto.
  - destruct (step_inv o r Hi) as (r1 & Hs & Hi1 & _). rewrite Hs in *.
    eapply IH; [done| |done]. by eapply stamp_step_inv.
Qed.

End lru_facts.

(** C8.  After any sequence of replacer operations on a replacer of capacity
    [c]: the run is defined; [Unpin f] puts [f] at the front (the
    most-recently-used end) exactly when [f] is not resident and the size is
    below [c], and otherwise returns the replacer unchanged; [Victim] returns
    false exactly when the replacer is empty and otherwise removes and returns
    the frame at the back; draining the replacer by successive [Victim] calls
    returns the residents from the back to the front, which is the order of
    their inserting [Unpin]s, oldest first; the size never exceeds [c]; no
    frame is resident twice. *)
Theorem lru_replacer_behaviour (c : nat) (ops : list op) :
  ∃ r, run ops (new_replacer c) = Some r ∧
    (∀ f, ((f ∉ lst_ r) ∧ (Size r < c)%nat →
             lst_ (Unpin f r) = f :: lst_ r ∧ Size (Unpin f r) = S (Size r)) ∧
          (¬ ((f ∉ lst_ r) ∧ (Size r < c)%nat) → Unpin f r = r)) ∧
    ((∃ r', Victim r = Some (None, r')) ↔ Size r = 0%nat) ∧
    (Size r = 0%nat → Victim r = Some (None, r)) ∧
    (∀ l f, lst_ r = l ++ [f] →
            ∃ r', Victim r = Some (Some f, r') ∧ lst_ r' = l ∧
                  Size r' = length l) ∧
    victims (length (lst_ r)) r = rev (lst_ r) ∧
    (let g := stamps 0 ops (new_replacer c) [] in
     g.*1 = lst_ r ∧ StronglySorted newer g ∧
     ∀ f r', Victim r = Some (Some f, r') →
             ∃ t, last g = Some (f, t) ∧ ∀ p, p ∈ g → (t ≤ p.2)%nat) ∧
    (Size r ≤ c)%nat ∧ Size r = length (lst_ r) ∧ NoDup (lst_ r).
Proof.
  destruct (run_inv ops (new_replacer c) (lru_inv_new c)) as (r & Hr & Hi & Hc).
  simpl in Hc. exists r. split; [done|].
  pose proof (lru_inv_size _ Hi) as Hsz.
  pose proof Hi as (Hnd & Hmp & Hle).
  destruct (stamps_inv ops 0%nat (new_replacer c) [] r (lru_inv_new c))
    as (t' & Hg & Hs & Ht); [by repeat split; constructor|done|].
  remember (stamps 0 ops (new_replacer c) []) as g eqn:Eg. clear Eg.
  unfold Size. split_and!.
  - intros f. split.
    + intros [Hf Hlt]. unfold Unpin. rewrite decide_True; simpl.
      * split; [done|]. rewrite size_union, size_singleton by set_solver. done.
      * rewrite Hmp. split; [done|lia].
    + intros Hn. unfold Unpin. rewrite decide_False; [done|].
      intros [Hf Hne]. apply Hn. rewrite <- Hmp. split; [done|lia].
  - rewrite Hsz. destruct (Victim_spec r Hi) as [[He Hv]|(l & f & r' & El & Hv & _)];
      rewrite Hv.
    + rewrite He. split; eauto.
    + rewrite El, length_app. simpl. split; [intros [? ?]; done|lia].
  - rewrite Hsz. intros Hz.
    destruct (Victim_spec r Hi) as [[He Hv]|(l & f & r' & El & Hv & _)]; [done|].
    rewrite El, length_app in Hz. simpl in Hz. lia.
  - intros l f El.
    destruct (Victim_spec r Hi) as [[He Hv]|(l1 & f1 & r' & El1 & Hv & El' & _ & Hi')].
    { rewrite He in El. by destruct l. }
    rewrite El in El1. apply app_inj_tail in El1 as [-> ->].
    exists r'. split_and!; [done|done|].
    by rewrite (lru_inv_size _ Hi'), El'.
  - by apply victims_drain.
  - done.
  - done.
  - intros f r' Hv.
    destruct (Victim_spec r Hi) as [[He Hv']|(l1 & f1 & r1 & El1 & Hv' & _)];
      rewrite Hv' in Hv; simplify_eq.
    rewrite El1 in Hg.
    destruct g as [|[x t] g _] using rev_ind.
    { by destruct l1. }
    rewrite fmap_app in Hg. simpl in Hg. apply app_inj_tail in Hg as [_ ->].
    exists t. rewrite last_snoc. split; [done|].
    intros p Hp. apply elem_of_app in Hp as [Hp|Hp].
    + pose proof (StronglySorted_app_1_elem_of _ _ _ _ _ Hs Hp
                    (list_elem_of_here _ _)) as Hn.
      unfold newer in Hn. simpl in Hn. lia.
    + apply list_elem_of_singleton in Hp as ->. done.
  - lia.
  - done.
  - done.
Qed.

End LRU.

(** ** B+-tree pages and the index iterator
       (storage/index/index_iterator.cpp, index_iterator.h) *)

Module BPT.

Abbreviation page_id_t := Z.
Definition INVALID_PAGE_ID : page_id_t := -1.
Definition HEADER_PAGE_ID : page_id_t := 0.
Definition INT_MAX : Z := 2147483647.

(** Keys are compared through their integer value, as [GenericComparator]
    does for keys built by [SetFromInteger]; record ids are opaque
    integers. *)
Definition KeyType := Z.
Definition ValueType := Z.
Definition MappingType := (KeyType * ValueType)%type.

(** The page headers of b_plus_tree_page.h.  [size_] is the length of the
    array; the page type is the constructor of [BPlusTreePage]. *)
Record LeafPage := mkLeaf {
  l_page_id : page_id_t;
  l_parent_page_id : page_id_t;
  l_max_size : Z;
  l_next_page_id : page_id_t;
  l_array : list MappingType
}.

Record InternalPage := mkInternal {
  i_page_id : page_id_t;
  i_parent_page_id : page_id_t;
  i_max_size : Z;
  i_array : list (KeyType * page_id_t)
}.

Inductive BPlusTreePage :=
| Leaf (l : LeafPage)
| Internal (n : InternalPage).

(** The buffer pool seen from the index: the pages by page id. *)
Abbreviation PageStore := (gmap Z BPlusTreePage).

(** Calls on the buffer pool and on page latches, in program order. *)
Inductive event :=
| EvFetchPage (p : page_id_t)
| EvUnpinPage (p : page_id_t) (is_dirty : bool)
| EvRLatch (p : page_id_t)
| EvRUnlatch (p : page_id_t).

Definition l_GetSize (l : LeafPage) : Z := Z.of_nat (length (l_array l)).

(** The iterator owns the pin and the read latch of page [page_]; [node_]
    points into that page, so it is read from the store at [page_]. *)
Record IndexIterator := mkIter {
  page_ : page_id_t;
  index_ : Z
}.

Definition node_ (pages : PageStore) (it : IndexIterator) : option LeafPage :=
  match pages !! page_ it with
  | Some (Leaf l) => Some l
  | _ => None
  end.

Definition IsEnd (pages : PageStore) (it : IndexIterator) : option bool :=
  node ← node_ pages it;
  Some (bool_decide (l_next_page_id node = INVALID_PAGE_ID) &&
        bool_decide (index_ it >= l_GetSize node)).

(** [operator*]: [GetItem(index_)]; outside the array the read is
    undefined. *)
Definition deref (pages : PageStore) (it : IndexIterator) : option MappingType :=
  node ← node_ pages it;
  if bool_decide (0 <= index_ it) then l_array node !! Z.to_nat (index_ it) else None.

(** [operator++].  [++index_] on an [int] equal to [INT_MAX] is undefined
    ([None]); so is fetching a page the pool does not hold. *)
Definition incr (pages : PageStore) (it : IndexIterator)
    : option (IndexIterator * list event) :=
  node ← node_ pages it;
  if bool_decide (index_ it < INT_MAX) then
    let index := index_ it + 1 in
    if bool_decide (index = l_GetSize node) &&
       negb (bool_decide (l_next_page_id node = INVALID_PAGE_ID)) then
      let next_page_id := l_next_page_id node in
      match pages !! next_page_id with
      | Some (Leaf _) =>
          Some ({| page_ := next_page_id; index_ := 0 |},
                [EvRUnlatch (page_ it); EvUnpinPage (page_ it) false;
                 EvFetchPage next_page_id; EvRLatch next_page_id])
      | _ => None
      end
    else Some ({| page_ := page_ it; index_ := index |}, [])
  else None.

(** [n] applications of [operator++], with the events of all of them. *)
Fixpoint incr_n (n : nat) (pages : PageStore) (it : IndexIterator)
    : option (IndexIterator * list event) :=
  match n with
  | O => Some (it, [])
  | S n' =>
      '(it1, ev1) ← incr pages it;
      '(it2, ev2) ← incr_n n' pages it1;
      Some (it2, ev1 ++ ev2)
  end.

Section iterator_facts.

Implicit Types (pages : PageStore) (it : IndexIterator).

Lemma incr_at_end pages it :
  IsEnd pages it = Some true → index_ it < INT_MAX →
  incr pages it = Some ({| page_ := page_ it; index_ := index_ it + 1 |}, []) ∧
  IsEnd pages {| page_ := page_ it; index_ := index_ it + 1 |} = Some true.
Proof.
  unfold IsEnd, incr, node_. simpl.
  destruct (pages !! page_ it) as [[l|n]|]; simpl; try done.
  intros [= He] Hlt. apply andb_prop in He as [Hn Hi].
  apply bool_decide_eq_true in Hn, Hi.
  rewrite (bool_decide_true (index_ it < INT_MAX)) by done.
  rewrite (bool_decide_true (l_next_page_id l = INVALID_PAGE_ID)) by done.
  rewrite andb_false_r. split; [done|].
  by rewrite bool_decide_true by lia.
Qed.

Lemma incr_n_at_end pages n : ∀ it,
  IsEnd pages it = Some true → index_ it + Z.of_nat n <= INT_MAX →
  incr_n n pages it =
    Some ({| page_ := page_ it; index_ := index_ it + Z.of_nat n |}, []) ∧
  IsEnd pages {| page_ := page_ it; index_ := index_ it + Z.of_nat n |} = Some true.
Proof.
  induction n as [|n IH]; intros it He Hn.
  - simpl. rewrite Z.add_0_r. by destruct it.
  - destruct (incr_at_end pages it He) as [Hi He']; [lia|].
    destruct (IH _ He') as [Hr He'']; [simpl; lia|]. simpl in Hr, He''.
    replace (index_ it + Z.of_nat (S n)) with (index_ it + 1 + Z.of_nat n) by lia.
    split; [|done]. cbn [incr_n]. rewrite Hi. simpl. by rewrite Hr.
Qed.

End iterator_facts.

(** C9.  On an iterator for which [IsEnd] holds, [operator++] (as long as the
    [int] index does not overflow) touches neither the buffer pool nor a
    latch, stays on the same leaf page, moves the index one further past the
    leaf's size, and leaves [IsEnd] true; the same holds for any number of
    further increments. *)
Theorem incr_past_end (pages : PageStore) (it : IndexIterator) (n : nat) :
  IsEnd pages it = Some true →
  index_ it + Z.of_nat n <= INT_MAX →
  ∃ leaf, node_ pages it = Some leaf ∧
          l_next_page_id leaf = INVALID_PAGE_ID ∧
          l_GetSize leaf <= index_ it ∧
          incr_n n pages it =
            Some ({| page_ := page_ it; index_ := index_ it + Z.of_nat n |}, []) ∧
          IsEnd pages {| page_ := page_ it; index_ := index_ it + Z.of_nat n |}
            = Some true.
Proof.
  intros He Hn.
  assert (∃ leaf, node_ pages it = Some leaf ∧
                  l_next_page_id leaf = INVALID_PAGE_ID ∧
                  l_GetSize leaf <= index_ it) as (leaf & Hl & Hnx & Hsz).
  { unfold IsEnd in He. destruct (node_ pages it) as [leaf|]; [|done].
    simpl in He. injection He as He. apply andb_prop in He as [H1 H2].
    apply bool_decide_eq_true in H1, H2. exists leaf. split; [done|]. split; [done|lia]. }
  destruct (incr_n_at_end pages n it He Hn) as [Hr He'].
  exists leaf. by repeat (split; [done|]).
Qed.

(** A leaf with two entries and no successor, iterator one past the end. *)
Definition end_store : PageStore :=
  {[ 1 := Leaf {| l_page_id := 1; l_parent_page_id := INVALID_PAGE_ID;
                  l_max_size := 3; l_next_page_id := INVALID_PAGE_ID;
                  l_array := [(10, 100); (20, 200)] |} ]}.

Lemma incr_past_end_witness :
  ∃ leaf, node_ end_store (mkIter 1 2) = Some leaf ∧
          l_next_page_id leaf = INVALID_PAGE_ID ∧
          l_GetSize leaf <= 2 ∧
          incr_n 3 end_store (mkIter 1 2) = Some (mkIter 1 (2 + Z.of_nat 3), []) ∧
          IsEnd end_store (mkIter 1 (2 + Z.of_nat 3)) = Some true.
Proof.
  apply (incr_past_end end_store (mkIter 1 2) 3); [reflexivity|].
  simpl. unfold INT_MAX. lia.
Defined.

End BPT.

(** ** Hash-table bucket pages (storage/page/hash_table_bucket_page.cpp) *)

Module Bucket.

Definition KeyType := Z.
Definition ValueType := Z.
Definition MappingType := (KeyType * ValueType)%type.

(** [occupied_] and [readable_] are [char] arrays holding one bit per slot;
    a [char] is kept as its bit pattern, a number in [0, 256). *)
Record HashTableBucketPage := mkBucket {
  occupied_ : list Z;
  readable_ : list Z;
  array_ : list MappingType
}.

Definition byte_at (l : list Z) (i : Z) : Z := default 0 (l !! Z.to_nat i).
Definition pair_at (l : list MappingType) (i : Z) : MappingType :=
  default (0, 0) (l !! Z.to_nat i).

Section bucket.

(** [BUCKET_ARRAY_SIZE] comes from hash_table_page_defs.h, which fixes it per
    key and value type from the page size; it is a parameter here. *)
Variable BUCKET_ARRAY_SIZE : Z.

(** Number of bitmap bytes, [(BUCKET_ARRAY_SIZE - 1) / 8 + 1]. *)
Definition bitmap_bytes : Z := (BUCKET_ARRAY_SIZE - 1) / 8 + 1.

(** A page as [NewPage] hands it out: all bytes zero. *)
Definition zero_page : HashTableBucketPage :=
  {| occupied_ := replicate (Z.to_nat bitmap_bytes) 0;
     readable_ := replicate (Z.to_nat bitmap_bytes) 0;
     array_ := replicate (Z.to_nat BUCKET_ARRAY_SIZE) (0, 0) |}.

Definition KeyAt (b : HashTableBucketPage) (bucket_idx : Z) : KeyType :=
  (pair_at (array_ b) bucket_idx).1.

Definition ValueAt (b : HashTableBucketPage) (bucket_idx : Z) : ValueType :=
  (pair_at (array_ b) bucket_idx).2.

Definition RemoveAt (b : HashTableBucketPage) (bucket_idx : Z) : HashTableBucketPage :=
  {| occupied_ := occupied_ b;
     readable_ := <[ Z.to_nat (bucket_idx / 8) :=
                     Z.land (byte_at (readable_ b) (bucket_idx / 8))
                            (Z.lnot (Z.shiftl 1 (bucket_idx mod 8))) ]> (readable_ b);
     array_ := array_ b |}.

Definition IsOccupied (b : HashTableBucketPage) (bucket_idx : Z) : bool :=
  negb (Z.land (byte_at (occupied_ b) (bucket_idx / 8))
               (Z.shiftl 1 (bucket_idx mod 8)) =? 0).

Definition SetOccupied (b : HashTableBucketPage) (bucket_idx : Z) : HashTableBucketPage :=
  {| occupied_ := <[ Z.to_nat (bucket_idx / 8) :=
                     Z.lor (byte_at (occupied_ b) (bucket_idx / 8))
                           (Z.shiftl 1 (bucket_idx mod 8)) ]> (occupied_ b);
     readable_ := readable_ b;
     array_ := array_ b |}.

Definition IsReadable (b : HashTableBucketPage) (bucket_idx : Z) : bool :=
  negb (Z.land (byte_at (readable_ b) (bucket_idx / 8))
               (Z.shiftl 1 (bucket_idx mod 8)) =? 0).

Definition SetReadable (b : HashTableBucketPage) (bucket_idx : Z) : HashTableBucketPage :=
  {| occupied_ := occupied_ b;
     readable_ := <[ Z.to_nat (bucket_idx / 8) :=
                     Z.lor (byte_at (readable_ b) (bucket_idx / 8))
                           (Z.shiftl 1 (bucket_idx mod 8)) ]> (readable_ b);
     array_ := array_ b |}.

(** [array_[i].first = key; array_[i].second = value]. *)
Definition set_pair (b : HashTableBucketPage) (i : Z) (key : KeyType) (value : ValueType)
    : HashTableBucketPage :=
  {| occupied_ := occupied_ b;
     readable_ := readable_ b;
     array_ := <[ Z.to_nat i := (key, value) ]> (array_ b) |}.

(** The slot test shared by [Insert], [IsExist], [Remove] and [MyRemove]:
    [cmp(key, array_[i].first) == 0 && value == array_[i].second &&
     IsReadable(i)]. *)
Definition slot_matches (b : HashTableBucketPage) (key : KeyType) (value : ValueType)
    (i : Z) : bool :=
  (key =? KeyAt b i) && (value =? ValueAt b i) && IsReadable b i.

(** [IsFull]: the first [n] bytes must be [0xFF]; of byte [n] the bits
    [BUCKET_ARRAY_SIZE - 8n - 1] down to [0] are tested one by one. *)
Fixpoint full_tail (fuel : nat) (byte i : Z) : bool :=
  match fuel with
  | O => true
  | S fuel' =>
      if 0 <? i then
        if Z.land byte i =? 0 then false else full_tail fuel' byte (Z.shiftr i 1)
      else true
  end.

Definition IsFull (b : HashTableBucketPage) : bool :=
  let n := (BUCKET_ARRAY_SIZE - 1) / 8 in
  forallb (λ i, byte_at (readable_ b) i =? 255) (seqZ 0 n) &&
  full_tail 9 (byte_at (readable_ b) n)
            (Z.shiftr (Z.shiftl 1 (BUCKET_ARRAY_SIZE - 8 * n)) 1).

Definition IsEmpty (b : HashTableBucketPage) : bool :=
  let n := (BUCKET_ARRAY_SIZE - 1) / 8 + 1 in
  forallb (λ i, byte_at (readable_ b) i =? 0) (seqZ 0 n).

Definition Clear (b : HashTableBucketPage) : HashTableBucketPage :=
  let n := (BUCKET_ARRAY_SIZE - 1) / 8 + 1 in
  foldl (λ b i, {| occupied_ := <[ Z.to_nat i := 0 ]> (occupied_ b);
                   readable_ := <[ Z.to_nat i := 0 ]> (readable_ b);
                   array_ := array_ b |}) b (seqZ 0 n).

(** The scanning loops run over the slots [0 .. BUCKET_ARRAY_SIZE - 1] and
    stop at the first slot that is not occupied. *)
Fixpoint get_value_scan (b : HashTableBucketPage) (key : KeyType) (idxs : list Z)
    : list ValueType :=
  match idxs with
  | [] => []
  | i :: rest =>
      if negb (IsOccupied b i) then []
      else if (key =? KeyAt b i) && IsReadable b i
           then ValueAt b i :: get_value_scan b key rest
           else get_value_scan b key rest
  end.

(** [MyGetValue] (and [GetValue], whose body is the same): the values
    appended to [result], in order; [is_find] is whether any was appended. *)
Definition MyGetValue (b : HashTableBucketPage) (key : KeyType) : bool * list ValueType :=
  let vs := get_value_scan b key (seqZ 0 BUCKET_ARRAY_SIZE) in
  (bool_decide (vs ≠ []), vs).

Fixpoint exist_scan (b : HashTableBucketPage) (key : KeyType) (value : ValueType)
    (idxs : list Z) : bool :=
  match idxs with
  | [] => false
  | i :: rest =>
      if negb (IsOccupied b i) then false
      else if slot_matches b key value i then true
           else exist_scan b key value rest
  end.

Definition IsExist (b : HashTableBucketPage) (key : KeyType) (value : ValueType) : bool :=
  exist_scan b key value (seqZ 0 BUCKET_ARRAY_SIZE).

(** The placing loop of [Insert] and [MyInsert]: the first slot that is not
    readable receives the pair. *)
Fixpoint place_scan (b : HashTableBucketPage) (key : KeyType) (value : ValueType)
    (idxs : list Z) : option HashTableBucketPage :=
  match idxs with
  | [] => None
  | i :: rest =>
      if negb (IsReadable b i)
      then Some (SetReadable (SetOccupied (set_pair b i key value) i) i)
      else place_scan b key value rest
  end.

Definition Insert (b : HashTableBucketPage) (key : KeyType) (value : ValueType)
    : bool * HashTableBucketPage :=
  if IsFull b then (false, b)
  else if exist_scan b key value (seqZ 0 BUCKET_ARRAY_SIZE) then (false, b)
  else match place_scan b key value (seqZ 0 BUCKET_ARRAY_SIZE) with
       | Some b' => (true, b')
       | None => (true, b)
       end.

Definition MyInsert (b : HashTableBucketPage) (key : KeyType) (value : ValueType)
    : bool * HashTableBucketPage :=
  match place_scan b key value (seqZ 0 BUCKET_ARRAY_SIZE) with
  | Some b' => (true, b')
  | None => (false, b)
  end.

Fixpoint remove_scan (b : HashTableBucketPage) (key : KeyType) (value : ValueType)
    (idxs : list Z) : bool * HashTableBucketPage :=
  match idxs with
  | [] => (false, b)
  | i :: rest =>
      if negb (IsOccupied b i) then (false, b)
      else if slot_matches b key value i then (true, RemoveAt b i)
           else remove_scan b key value rest
  end.

(** [MyRemove] (and [Remove], whose body is the same). *)
Definition MyRemove (b : HashTableBucketPage) (key : KeyType) (value : ValueType)
    : bool * HashTableBucketPage :=
  remove_scan b key value (seqZ 0 BUCKET_ARRAY_SIZE).

Fixpoint all_pairs_scan (b : HashTableBucketPage) (idxs : list Z) : list MappingType :=
  match idxs with
  | [] => []
  | i :: rest =>
      if negb (IsOccupied b i) then []
      else if IsReadable b i
           then pair_at (array_ b) i :: all_pairs_scan b rest
           else all_pairs_scan b rest
  end.

Definition GetAllPairs (b : HashTableBucketPage) : list MappingType :=
  all_pairs_scan b (seqZ 0 BUCKET_ARRAY_SIZE).

(** Shape of a bucket page: the three arrays have their declared lengths and
    every bitmap byte is a [char] bit pattern. *)
Definition bucket_wf (b : HashTableBucketPage) : Prop :=
  length (occupied_ b) = Z.to_nat bitmap_bytes ∧
  length (readable_ b) = Z.to_nat bitmap_bytes ∧
  length (array_ b) = Z.to_nat BUCKET_ARRAY_SIZE ∧
  Forall (λ x, 0 <= x < 256) (occupied_ b) ∧
  Forall (λ x, 0 <= x < 256) (readable_ b).

(** The tombstone invariant: a readable slot is occupied. *)
Definition tombstone_inv (b : HashTableBucketPage) : Prop :=
  ∀ i, 0 <= i < BUCKET_ARRAY_SIZE → IsReadable b i = true → IsOccupied b i = true.

End bucket.

(** *** Bits of a [char] *)

Lemma land_bit_eqb x k :
  0 <= k → (Z.land x (Z.shiftl 1 k) =? 0) = negb (Z.testbit x k).
Proof.
  intros Hk. rewrite Z.shiftl_1_l.
  destruct (Z.testbit x k) eqn:Hb; simpl.
  - apply Z.eqb_neq. intros H0.
    assert (Z.testbit (Z.land x (2 ^ k)) k = true) as Ht
      by (rewrite Z.land_spec, Hb, Z.pow2_bits_true; done).
    rewrite H0, Z.bits_0 in Ht. done.
  - apply Z.eqb_eq. apply Z.bits_inj'. intros n Hn.
    rewrite Z.land_spec, Z.bits_0, Z.pow2_bits_eqb by done.
    destruct (Z.eqb_spec k n) as [->|]; [by rewrite Hb|by rewrite andb_false_r].
Qed.

Lemma lor_bit x k n :
  0 <= k → 0 <= n →
  Z.testbit (Z.lor x (Z.shiftl 1 k)) n = Z.testbit x n || (n =? k).
Proof.
  intros Hk Hn. rewrite Z.lor_spec, Z.shiftl_1_l, Z.pow2_bits_eqb by done.
  by rewrite (Z.eqb_sym k n).
Qed.

Lemma clear_bit x k n :
  0 <= k → 0 <= n →
  Z.testbit (Z.land x (Z.lnot (Z.shiftl 1 k))) n = Z.testbit x n && negb (n =? k).
Proof.
  intros Hk Hn.
  rewrite Z.land_spec, Z.lnot_spec, Z.shiftl_1_l, Z.pow2_bits_eqb by done.
  by rewrite (Z.eqb_sym k n).
Qed.

Lemma char_range_bits x :
  0 <= x < 256 ↔ (0 <= x ∧ ∀ n, 8 <= n → Z.testbit x n = false).
Proof.
  split.
  - intros Hx. split; [lia|]. intros n Hn.
    rewrite <- (Z.mod_small x (2 ^ 8)) by (change (2 ^ 8) with 256; lia).
    apply Z.mod_pow2_bits_high. lia.
  - intros [Hx Hb]. split; [done|].
    assert (x = x mod 2 ^ 8) as ->.
    { apply Z.bits_inj'. intros n Hn. destruct (Z_lt_le_dec n 8).
      - by rewrite Z.mod_pow2_bits_low.
      - rewrite Z.mod_pow2_bits_high by lia. by apply Hb. }
    apply Z.mod_pos_bound. done.
Qed.

Lemma lor_bit_range x k : 0 <= x < 256 → 0 <= k < 8 → 0 <= Z.lor x (Z.shiftl 1 k) < 256.
Proof.
  intros Hx Hk. apply char_range_bits in Hx as [Hx Hb]. apply char_range_bits. split.
  - apply Z.lor_nonneg. split; [done|]. rewrite Z.shiftl_1_l. apply Z.pow_nonneg; lia.
  - intros n Hn. rewrite lor_bit by lia. rewrite Hb by done.
    simpl. apply Z.eqb_neq. lia.
Qed.

Lemma clear_bit_range x k :
  0 <= x < 256 → 0 <= k < 8 → 0 <= Z.land x (Z.lnot (Z.shiftl 1 k)) < 256.
Proof.
  intros Hx Hk. apply char_range_bits in Hx as [Hx Hb]. apply char_range_bits. split.
  - apply Z.land_nonneg. by left.
  - intros n Hn. rewrite clear_bit by lia. by rewrite Hb.
Qed.

Lemma char_full_bits x :
  0 <= x < 256 → ((x =? 255) = true ↔ ∀ k, 0 <= k < 8 → Z.testbit x k = true).
Proof.
  intros Hx. split.
  - intros ->%Z.eqb_eq k Hk.
    assert (k = 0 ∨ k = 1 ∨ k = 2 ∨ k = 3 ∨ k = 4 ∨ k = 5 ∨ k = 6 ∨ k = 7)
      as Hc by lia.
    by destruct Hc as [->|[->|[->|[->|[->|[->|[->| ->]]]]]]].
  - intros Hb. apply Z.eqb_eq. apply char_range_bits in Hx as [Hx Hh].
    apply Z.bits_inj'. intros n Hn. destruct (Z_lt_le_dec n 8).
    + rewrite Hb by lia. change 255 with (Z.ones 8).
      by rewrite Z.ones_spec_low by lia.
    + rewrite Hh by done. change 255 with (Z.ones 8).
      by rewrite Z.ones_spec_high by lia.
Qed.

Lemma byte_at_insert (l : list Z) p q v :
  0 <= p → 0 <= q → (Z.to_nat p < length l)%nat →
  byte_at (<[ Z.to_nat p := v ]> l) q = if q =? p then v else byte_at l q.
Proof.
  intros Hp Hq Hl. unfold byte_at. destruct (Z.eqb_spec q p) as [->|Hne].
  - by rewrite list_lookup_insert_eq.
  - rewrite list_lookup_insert_ne; [done|lia].
Qed.

Lemma pair_at_insert (l : list MappingType) p q v :
  0 <= p → 0 <= q → (Z.to_nat p < length l)%nat →
  pair_at (<[ Z.to_nat p := v ]> l) q = if q =? p then v else pair_at l q.
Proof.
  intros Hp Hq Hl. unfold pair_at. destruct (Z.eqb_spec q p) as [->|Hne].
  - by rewrite list_lookup_insert_eq.
  - rewrite list_lookup_insert_ne; [done|lia].
Qed.

Lemma Forall_char_insert (l : list Z) n v :
  Forall (λ x, 0 <= x < 256) l → 0 <= v < 256 →
  Forall (λ x, 0 <= x < 256) (<[ n := v ]> l).
Proof.
  intros Hl Hv. destruct (decide (n < length l)%nat).
  - by apply Forall_insert.
  - by rewrite list_insert_ge by lia.
Qed.

Lemma byte_at_range (l : list Z) i :
  Forall (λ x, 0 <= x < 256) l → 0 <= byte_at l i < 256.
Proof.
  intros Hl. unfold byte_at. destruct (l !! Z.to_nat i) as [x|] eqn:E; simpl; [|lia].
  by apply (Forall_lookup_1 _ _ _ _ Hl E).
Qed.

(** *** Slots *)

Section bucket_facts.

Variable BUCKET_ARRAY_SIZE : Z.
Hypothesis size_pos : 0 < BUCKET_ARRAY_SIZE.

Local Abbreviation wf := (bucket_wf BUCKET_ARRAY_SIZE).
Implicit Types (b : HashTableBucketPage) (i j : Z).

Lemma slot_byte i :
  0 <= i < BUCKET_ARRAY_SIZE →
  0 <= i / 8 < bitmap_bytes BUCKET_ARRAY_SIZE ∧ 0 <= i mod 8 < 8.
Proof.
  intros Hi. unfold bitmap_bytes. split; [|apply Z.mod_pos_bound; lia].
  split; [apply Z.div_pos; lia|].
  assert (i / 8 <= (BUCKET_ARRAY_SIZE - 1) / 8) by (apply Z.div_le_mono; lia). lia.
Qed.

Lemma slot_split i j : i ≠ j → i / 8 ≠ j / 8 ∨ i mod 8 ≠ j mod 8.
Proof.
  intros Hne. destruct (decide (i / 8 = j / 8)) as [Hd|]; [|by left].
  right. intros Hm. apply Hne.
  rewrite (Z.div_mod i 8), (Z.div_mod j 8) by lia. lia.
Qed.

Lemma IsReadable_testbit b i :
  0 <= i → IsReadable b i = Z.testbit (byte_at (readable_ b) (i / 8)) (i mod 8).
Proof.
  intros Hi. unfold IsReadable. rewrite land_bit_eqb, negb_involutive; [done|].
  apply Z.mod_pos_bound. lia.
Qed.

Lemma IsOccupied_testbit b i :
  0 <= i → IsOccupied b i = Z.testbit (byte_at (occupied_ b) (i / 8)) (i mod 8).
Proof.
  intros Hi. unfold IsOccupied. rewrite land_bit_eqb, negb_involutive; [done|].
  apply Z.mod_pos_bound. lia.
Qed.

Lemma IsReadable_SetReadable b i j :
  wf b → 0 <= i < BUCKET_ARRAY_SIZE → 0 <= j < BUCKET_ARRAY_SIZE →
  IsReadable (SetReadable b i) j = (j =? i) || IsReadable b j.
Proof.
  intros (_ & Hl & _) Hi Hj.
  destruct (slot_byte i Hi) as [Hbi Hmi], (slot_byte j Hj) as [Hbj Hmj].
  rewrite !IsReadable_testbit by lia. simpl.
  rewrite byte_at_insert by lia.
  destruct (Z.eqb_spec j i) as [->|Hne]; simpl.
  - rewrite Z.eqb_refl, lor_bit by lia. by rewrite Z.eqb_refl, orb_true_r.
  - destruct (Z.eqb_spec (j / 8) (i / 8)) as [He|]; [|done].
    rewrite He, lor_bit by lia.
    destruct (slot_split _ _ Hne) as [?|Hm]; [congruence|].
    apply Z.eqb_neq in Hm. by rewrite Hm, orb_false_r.
Qed.

Lemma IsOccupied_SetOccupied b i j :
  wf b → 0 <= i < BUCKET_ARRAY_SIZE → 0 <= j < BUCKET_ARRAY_SIZE →
  IsOccupied (SetOccupied b i) j = (j =? i) || IsOccupied b j.
Proof.
  intros (Hl & _) Hi Hj.
  destruct (slot_byte i Hi) as [Hbi Hmi], (slot_byte j Hj) as [Hbj Hmj].
  rewrite !IsOccupied_testbit by lia. simpl.
  rewrite byte_at_insert by lia.
  destruct (Z.eqb_spec j i) as [->|Hne]; simpl.
  - rewrite Z.eqb_refl, lor_bit by lia. by rewrite Z.eqb_refl, orb_true_r.
  - destruct (Z.eqb_spec (j / 8) (i / 8)) as [He|]; [|done].
    rewrite He, lor_bit by lia.
    destruct (slot_split _ _ Hne) as [?|Hm]; [congruence|].
    apply Z.eqb_neq in Hm. by rewrite Hm, orb_false_r.
Qed.

Lemma IsReadable_RemoveAt b i j :
  wf b → 0 <= i < BUCKET_ARRAY_SIZE → 0 <= j < BUCKET_ARRAY_SIZE →
  IsReadable (RemoveAt b i) j = negb (j =? i) && IsReadable b j.
Proof.
  intros (_ & Hl & _) Hi Hj.
  destruct (slot_byte i Hi) as [Hbi Hmi], (slot_byte j Hj) as [Hbj Hmj].
  rewrite !IsReadable_testbit by lia. simpl.
  rewrite byte_at_insert by lia.
  destruct (Z.eqb_spec j i) as [->|Hne]; simpl.
  - rewrite Z.eqb_refl, clear_bit by lia. by rewrite Z.eqb_refl, andb_false_r.
  - destruct (Z.eqb_spec (j / 8) (i / 8)) as [He|]; [|done].
    rewrite He, clear_bit by lia.
    destruct (slot_split _ _ Hne) as [?|Hm]; [congruence|].
    apply Z.eqb_neq in Hm. by rewrite Hm, andb_true_r.
Qed.

Lemma pair_at_set_pair b i j key value :
  wf b → 0 <= i < BUCKET_ARRAY_SIZE → 0 <= j →
  pair_at (array_ (set_pair b i key value)) j =
    if j =? i then (key, value) else pair_at (array_ b) j.
Proof.
  intros (_ & _ & Hl & _) Hi Hj. simpl. apply pair_at_insert; lia.
Qed.

Lemma SetOccupied_wf b i : wf b → 0 <= i < BUCKET_ARRAY_SIZE → wf (SetOccupied b i).
Proof.
  intros (H1 & H2 & H3 & H4 & H5) Hi. destruct (slot_byte i Hi).
  repeat split; simpl; try done.
  - by rewrite length_insert.
  - apply Forall_char_insert; [done|]. apply lor_bit_range; [|done].
    by apply byte_at_range.
Qed.

Lemma SetReadable_wf b i : wf b → 0 <= i < BUCKET_ARRAY_SIZE → wf (SetReadable b i).
Proof.
  intros (H1 & H2 & H3 & H4 & H5) Hi. destruct (slot_byte i Hi).
  repeat split; simpl; try done.
  - by rewrite length_insert.
  - apply Forall_char_insert; [done|]. apply lor_bit_range; [|done].
    by apply byte_at_range.
Qed.

Lemma RemoveAt_wf b i : wf b → 0 <= i < BUCKET_ARRAY_SIZE → wf (RemoveAt b i).
Proof.
  intros (H1 & H2 & H3 & H4 & H5) Hi. destruct (slot_byte i Hi).
  repeat split; simpl; try done.
  - by rewrite length_insert.
  - apply Forall_char_insert; [done|]. apply clear_bit_range; [|done].
    by apply byte_at_range.
Qed.

Lemma set_pair_wf b i key value : wf b → wf (set_pair b i key value).
Proof.
  intros (H1 & H2 & H3 & H4 & H5). repeat split; simpl; try done.
  by rewrite length_insert.
Qed.

Lemma zero_page_wf : wf (zero_page BUCKET_ARRAY_SIZE).
Proof.
  repeat split; simpl; rewrite ?length_replicate; try done.
  - apply Forall_replicate. lia.
  - apply Forall_replicate. lia.
Qed.

(** The result of writing a pair into slot [i], as the placing loop does. *)
Definition write_slot b i key value : HashTableBucketPage :=
  SetReadable (SetOccupied (set_pair b i key value) i) i.

Lemma write_slot_spec b i key value :
  wf b → 0 <= i < BUCKET_ARRAY_SIZE →
  wf (write_slot b i key value) ∧
  ∀ j, 0 <= j < BUCKET_ARRAY_SIZE →
    pair_at (array_ (write_slot b i key value)) j =
      (if j =? i then (key, value) else pair_at (array_ b) j) ∧
    IsOccupied (write_slot b i key value) j = (j =? i) || IsOccupied b j ∧
    IsReadable (write_slot b i key value) j = (j =? i) || IsReadable b j.
Proof.
  intros Hw Hi. unfold write_slot.
  pose proof (set_pair_wf b i key value Hw) as Hw1.
  pose proof (SetOccupied_wf _ i Hw1 Hi) as Hw2.
  split; [by apply SetReadable_wf|]. intros j Hj. split_and!.
  - change (array_ (SetReadable (SetOccupied (set_pair b i key value) i) i))
      with (array_ (set_pair b i key value)).
    apply pair_at_set_pair; [done|done|lia].
  - change (IsOccupied (SetReadable (SetOccupied (set_pair b i key value) i) i) j)
      with (IsOccupied (SetOccupied (set_pair b i key value) i) j).
    by rewrite IsOccupied_SetOccupied.
  - by rewrite IsReadable_SetReadable.
Qed.

(** The scanning loops, slot by slot. *)

Lemma exist_scan_spec b key value : ∀ n a,
  exist_scan b key value (seqZ a (Z.of_nat n)) = true ↔
  ∃ i, a <= i < a + Z.of_nat n ∧ (∀ j, a <= j <= i → IsOccupied b j = true) ∧
       slot_matches b key value i = true.
Proof.
  induction n as [|n IH]; intros a.
  - simpl. split; [done|]. intros (i & ? & _). lia.
  - rewrite seqZ_cons by lia. simpl.
    replace (Z.pred (Z.of_nat (S n))) with (Z.of_nat n) by lia.
    destruct (IsOccupied b a) eqn:Ho; simpl.
    + destruct (slot_matches b key value a) eqn:Hm.
      * split; [|done]. intros _. exists a. split_and!; [lia|lia| |done].
        intros j Hj. by replace j with a by lia.
      * rewrite IH. split.
        -- intros (i & Hi & Hocc & Hmi). exists i. split_and!; [lia|lia| |done].
           intros j Hj. destruct (decide (j = a)) as [->|]; [done|].
           apply Hocc. lia.
        -- intros (i & Hi & Hocc & Hmi). exists i.
           assert (i ≠ a) by congruence.
           split_and!; [lia|lia| |done]. intros j Hj. apply Hocc. lia.
    + split; [done|]. intros (i & Hi & Hocc & _).
      rewrite Hocc in Ho by lia. done.
Qed.

Lemma place_scan_spec b key value : ∀ n a,
  (place_scan b key value (seqZ a (Z.of_nat n)) = None ∧
   ∀ j, a <= j < a + Z.of_nat n → IsReadable b j = true) ∨
  (∃ i, a <= i < a + Z.of_nat n ∧ IsReadable b i = false ∧
        (∀ j, a <= j < i → IsReadable b j = true) ∧
        place_scan b key value (seqZ a (Z.of_nat n)) =
          Some (write_slot b i key value)).
Proof.
  induction n as [|n IH]; intros a.
  - left. split; [done|]. lia.
  - rewrite seqZ_cons by lia. simpl.
    replace (Z.pred (Z.of_nat (S n))) with (Z.of_nat n) by lia.
    destruct (IsReadable b a) eqn:Hr; simpl.
    + destruct (IH (Z.succ a)) as [[Hn Hall]|(i & Hi & Hri & Hlt & Hp)].
      * left. split; [done|]. intros j Hj.
        destruct (decide (j = a)) as [->|]; [done|]. apply Hall. lia.
      * right. exists i. split_and!; [lia|lia|done| |done].
        intros j Hj. destruct (decide (j = a)) as [->|]; [done|]. apply Hlt. lia.
    + right. exists a. split_and!; [lia|lia|done| |done]. lia.
Qed.

Lemma full_tail_spec byte : ∀ (k fuel : nat),
  (k < fuel)%nat →
  full_tail (S fuel) byte (2 ^ Z.of_nat k) = true ↔
  ∀ m, 0 <= m <= Z.of_nat k → Z.testbit byte m = true.
Proof.
  induction k as [|k IH]; intros fuel Hf.
  - simpl. rewrite <- (Z.shiftl_1_l 0) at 1. rewrite land_bit_eqb by lia.
    destruct (Z.testbit byte 0) eqn:Hb; simpl.
    + destruct fuel; [lia|]. simpl. split; [|done].
      intros _ m Hm. by replace m with 0 by lia.
    + split; [done|]. intros Hall. rewrite Hall in Hb by lia. done.
  - cbn [full_tail].
    assert (0 < 2 ^ Z.of_nat (S k)) as Hp by (apply Z.pow_pos_nonneg; lia).
    apply Z.ltb_lt in Hp. rewrite Hp.
    rewrite <- (Z.shiftl_1_l (Z.of_nat (S k))) at 1. rewrite land_bit_eqb by lia.
    replace (Z.shiftr (2 ^ Z.of_nat (S k)) 1) with (2 ^ Z.of_nat k).
    2:{ rewrite Z.shiftr_div_pow2 by lia.
        replace (Z.of_nat (S k)) with (Z.of_nat k + 1) by lia.
        rewrite Z.pow_add_r by lia. rewrite Z.div_mul; lia. }
    destruct (Z.testbit byte (Z.of_nat (S k))) eqn:Hb; simpl.
    + destruct fuel as [|fuel]; [lia|]. rewrite IH by lia. split.
      * intros Hall m Hm.
        destruct (decide (m = Z.of_nat (S k))) as [->|]; [done|]. apply Hall. lia.
      * intros Hall m Hm. apply Hall. lia.
    + split; [done|]. intros Hall. rewrite Hall in Hb by lia. done.
Qed.

Lemma IsFull_spec b :
  wf b → (IsFull BUCKET_ARRAY_SIZE b = true ↔
          ∀ i, 0 <= i < BUCKET_ARRAY_SIZE → IsReadable b i = true).
Proof.
  intros Hw. pose proof Hw as (_ & _ & _ & _ & Hc). unfold IsFull.
  set (n := (BUCKET_ARRAY_SIZE - 1) / 8).
  assert (0 <= n) as Hn by (apply Z.div_pos; lia).
  assert (8 * n <= BUCKET_ARRAY_SIZE - 1 < 8 * n + 8) as Hb.
  { pose proof (Z.div_mod (BUCKET_ARRAY_SIZE - 1) 8).
    pose proof (Z.mod_pos_bound (BUCKET_ARRAY_SIZE - 1) 8). lia. }
  set (m := BUCKET_ARRAY_SIZE - 8 * n).
  replace (Z.shiftr (Z.shiftl 1 m) 1) with (2 ^ Z.of_nat (Z.to_nat (m - 1))).
  2:{ rewrite Z.shiftl_1_l, Z.shiftr_div_pow2 by lia.
      replace m with (Z.of_nat (Z.to_nat (m - 1)) + 1) at 2 by lia.
      rewrite Z.pow_add_r by lia. rewrite Z.div_mul; lia. }
  rewrite andb_true_iff, forallb_forall.
  rewrite (full_tail_spec _ (Z.to_nat (m - 1)) 8) by lia.
  split.
  - intros [Hlow Hhigh] i Hi. rewrite IsReadable_testbit by lia.
    pose proof (Z.div_mod i 8). pose proof (Z.mod_pos_bound i 8).
    destruct (decide (i / 8 < n)) as [Hlt|Hge].
    + assert ((byte_at (readable_ b) (i / 8) =? 255) = true) as H255.
      { apply Hlow. apply list_elem_of_In, elem_of_seqZ.
        split; [apply Z.div_pos|]; lia. }
      apply (proj1 (char_full_bits _ (byte_at_range _ (i / 8) Hc)) H255). lia.
    + assert (i / 8 < n + 1) by (apply Z.div_lt_upper_bound; lia).
      assert (i / 8 = n) as Hin by lia. rewrite Hin in *.
      apply Hhigh. unfold m. lia.
  - intros Hall. split.
    + intros q Hq%list_elem_of_In%elem_of_seqZ.
      apply char_full_bits; [by apply byte_at_range|]. intros k Hk.
      specialize (Hall (8 * q + k)).
      rewrite IsReadable_testbit in Hall by lia.
      replace ((8 * q + k) / 8) with q in Hall.
      2:{ apply Z.div_unique with k; lia. }
      replace ((8 * q + k) mod 8) with k in Hall.
      2:{ apply Z.mod_unique with q; lia. }
      apply Hall. lia.
    + intros k Hk. specialize (Hall (8 * n + k)).
      rewrite IsReadable_testbit in Hall by lia.
      replace ((8 * n + k) / 8) with n in Hall.
      2:{ apply Z.div_unique with k; lia. }
      replace ((8 * n + k) mod 8) with k in Hall.
      2:{ apply Z.mod_unique with n; lia. }
      apply Hall. unfold m in *. lia.
Qed.

End bucket_facts.

(** C7.  [Insert] on a bucket page.  [IsFull] holds exactly when every slot
    is readable.  When the bucket is full, or a readable slot holding the
    same key and value lies before the first slot that is not occupied,
    [Insert] returns false and the page is unchanged.  Otherwise there is a
    first slot that is not readable; [Insert] returns true, that slot receives
    the pair and has its occupied and readable bits set, every other slot
    keeps its pair and its two bits, and the tombstone invariant is
    preserved. *)
Theorem bucket_insert_spec (BUCKET_ARRAY_SIZE : Z) (b : HashTableBucketPage)
    (key : KeyType) (value : ValueType) :
  0 < BUCKET_ARRAY_SIZE → bucket_wf BUCKET_ARRAY_SIZE b →
  let full := ∀ i, 0 <= i < BUCKET_ARRAY_SIZE → IsReadable b i = true in
  let dup := ∃ i, 0 <= i < BUCKET_ARRAY_SIZE ∧
                  (∀ j, 0 <= j <= i → IsOccupied b j = true) ∧
                  KeyAt b i = key ∧ ValueAt b i = value ∧ IsReadable b i = true in
  (IsFull BUCKET_ARRAY_SIZE b = true ↔ full) ∧
  (full ∨ dup → Insert BUCKET_ARRAY_SIZE b key value = (false, b)) ∧
  (¬ full → ¬ dup →
   ∃ i b', 0 <= i < BUCKET_ARRAY_SIZE ∧ IsReadable b i = false ∧
           (∀ j, 0 <= j < i → IsReadable b j = true) ∧
           Insert BUCKET_ARRAY_SIZE b key value = (true, b') ∧
           bucket_wf BUCKET_ARRAY_SIZE b' ∧
           KeyAt b' i = key ∧ ValueAt b' i = value ∧
           IsOccupied b' i = true ∧ IsReadable b' i = true ∧
           (∀ j, 0 <= j < BUCKET_ARRAY_SIZE → j ≠ i →
                 pair_at (array_ b') j = pair_at (array_ b) j ∧
                 IsOccupied b' j = IsOccupied b j ∧
                 IsReadable b' j = IsReadable b j) ∧
           (tombstone_inv BUCKET_ARRAY_SIZE b → tombstone_inv BUCKET_ARRAY_SIZE b')).
Proof.
  intros Hpos Hw full dup.
  pose proof (IsFull_spec _ Hpos b Hw) as Hfull.
  assert (exist_scan b key value (seqZ 0 BUCKET_ARRAY_SIZE) = true ↔ dup) as Hdup.
  { rewrite <- (Z2Nat.id BUCKET_ARRAY_SIZE) at 1 by lia. rewrite exist_scan_spec.
    unfold dup, slot_matches. split.
    - intros (i & Hi & Hocc & Hm). apply andb_prop in Hm as [Hm Hr].
      apply andb_prop in Hm as [Hk Hv]. apply Z.eqb_eq in Hk, Hv.
      exists i. split_and!; [lia|lia|done|done|done|done].
    - intros (i & Hi & Hocc & Hk & Hv & Hr). exists i.
      split_and!; [lia|lia|done|]. rewrite Hk, Hv, Hr, !Z.eqb_refl. done. }
  split; [done|]. split.
  - intros [Hf|Hd]; unfold Insert.
    + apply Hfull in Hf. by rewrite Hf.
    + apply Hdup in Hd. rewrite Hd. by destruct (IsFull _ b).
  - intros Hnf Hnd. unfold Insert.
    destruct (IsFull BUCKET_ARRAY_SIZE b) eqn:Ef; [exfalso; apply Hnf; exact (proj1 Hfull eq_refl)|].
    destruct (exist_scan b key value _) eqn:Ee; [exfalso; apply Hnd; exact (proj1 Hdup eq_refl)|].
    destruct (place_scan_spec b key value (Z.to_nat BUCKET_ARRAY_SIZE) 0)
      as [[_ Hall]|(i & Hi & Hri & Hlt & Hp)].
    { exfalso. apply Hnf. intros i Hi. apply Hall. lia. }
    rewrite Z2Nat.id in Hp, Hi by lia. rewrite Hp.
    destruct (write_slot_spec _ Hpos b i key value Hw) as [Hw' Hs]; [lia|].
    exists i, (write_slot b i key value).
    destruct (Hs i) as (Hpi & Hoi & Hrri); [lia|]. rewrite Z.eqb_refl in *.
    split_and!; try done; try lia.
    + unfold KeyAt. by rewrite Hpi.
    + unfold ValueAt. by rewrite Hpi.
    + intros j Hj Hne. destruct (Hs j Hj) as (Hpj & Hoj & Hrj).
      apply Z.eqb_neq in Hne. by rewrite Hne in *.
    + intros Ht j Hj. destruct (Hs j Hj) as (_ & Hoj & Hrj). rewrite Hoj, Hrj.
      destruct (j =? i); [done|]. simpl. by apply Ht.
Qed.

(** A bucket of four slots: slot 0 holds a tombstone, slot 1 holds (5, 50). *)
Definition sample_bucket : HashTableBucketPage :=
  {| occupied_ := [3]; readable_ := [2];
     array_ := [(7, 70); (5, 50); (0, 0); (0, 0)] |}.

Lemma bucket_insert_spec_witness :
  Insert 4 sample_bucket 5 50 = (false, sample_bucket) ∧
  Insert 4 sample_bucket 9 90 =
    (true, {| occupied_ := [3]; readable_ := [3];
              array_ := [(9, 90); (5, 50); (0, 0); (0, 0)] |}).
Proof.
  assert (0 < 4) as Hpos by lia.
  assert (bucket_wf 4 sample_bucket) as Hw.
  { repeat split; simpl; try reflexivity; repeat constructor; lia. }
  pose proof (bucket_insert_spec 4 sample_bucket 5 50 Hpos Hw) as (_ & Hrej & _).
  split; [|reflexivity].
  apply Hrej. right. exists 1. split; [lia|]. split.
  - intros j Hj. assert (j = 0 ∨ j = 1) as [-> | ->] by lia; reflexivity.
  - repeat split; reflexivity.
Defined.

End Bucket.

(** ** Extendible hash table (container/hash/extendible_hash_table.cpp)

    The file holds two variants of the table; the one embedded here is the
    first, the two-phase [Insert] + [SplitInsert] with a separate [Merge],
    which is the one the design document describes. *)

Module HT.

Import Bucket.

Abbreviation page_id_t := Z.

(** Modelled from the spec: the directory page, whose implementation
    (hash_table_directory_page.cpp) is not among the sources.  The design
    document gives its fields: the page's own id, the global depth, and the
    arrays [local_depth] and [bucket_page_id] of [1 << MAX_DEPTH] entries;
    and its operations by name and meaning. *)
Record HashTableDirectoryPage := mkDir {
  page_id_ : page_id_t;
  global_depth_ : Z;
  local_depths_ : list Z;
  bucket_page_ids_ : list page_id_t
}.

Definition SetPageId (d : HashTableDirectoryPage) (p : page_id_t) :=
  mkDir p (global_depth_ d) (local_depths_ d) (bucket_page_ids_ d).
Definition GetBucketPageId (d : HashTableDirectoryPage) (bucket_idx : Z) : page_id_t :=
  default 0 (bucket_page_ids_ d !! Z.to_nat bucket_idx).
Definition SetBucketPageId (d : HashTableDirectoryPage) (bucket_idx : Z) (p : page_id_t) :=
  mkDir (page_id_ d) (global_depth_ d) (local_depths_ d)
        (<[ Z.to_nat bucket_idx := p ]> (bucket_page_ids_ d)).
Definition GetLocalDepth (d : HashTableDirectoryPage) (bucket_idx : Z) : Z :=
  default 0 (local_depths_ d !! Z.to_nat bucket_idx).
Definition SetLocalDepth (d : HashTableDirectoryPage) (bucket_idx : Z) (depth : Z) :=
  mkDir (page_id_ d) (global_depth_ d)
        (<[ Z.to_nat bucket_idx := depth ]> (local_depths_ d)) (bucket_page_ids_ d).
Definition IncrLocalDepth (d : HashTableDirectoryPage) (bucket_idx : Z) :=
  SetLocalDepth d bucket_idx (GetLocalDepth d bucket_idx + 1).
Definition GetGlobalDepth (d : HashTableDirectoryPage) : Z := global_depth_ d.
Definition IncrGlobalDepth (d : HashTableDirectoryPage) :=
  mkDir (page_id_ d) (global_depth_ d + 1) (local_depths_ d) (bucket_page_ids_ d).
Definition DecrGlobalDepth (d : HashTableDirectoryPage) :=
  mkDir (page_id_ d) (global_depth_ d - 1) (local_depths_ d) (bucket_page_ids_ d).
Definition GetGlobalDepthMask (d : HashTableDirectoryPage) : Z :=
  Z.shiftl 1 (global_depth_ d) - 1.
Definition GetLocalDepthMask (d : HashTableDirectoryPage) (bucket_idx : Z) : Z :=
  Z.shiftl 1 (GetLocalDepth d bucket_idx) - 1.
Definition Size (d : HashTableDirectoryPage) : Z := Z.shiftl 1 (global_depth_ d).

(** [CanShrink]: when every active slot has a local depth below the global
    depth, the global depth is decremented. *)
Definition CanShrink (d : HashTableDirectoryPage) : HashTableDirectoryPage :=
  if forallb (λ i, GetLocalDepth d i <? GetGlobalDepth d) (seqZ 0 (Size d))
  then DecrGlobalDepth d else d.

(** Calls on the buffer pool and mutations of the directory page, in program
    order. *)
Inductive event :=
| EvNewPage (p : page_id_t)
| EvFetchPage (p : page_id_t)
| EvUnpinPage (p : page_id_t) (is_dirty : bool)
| EvDeletePage (p : page_id_t)
| EvSetBucketPageId (bucket_idx : Z) (p : page_id_t)
| EvSetLocalDepth (bucket_idx : Z) (depth : Z)
| EvIncrLocalDepth (bucket_idx : Z)
| EvIncrGlobalDepth
| EvCanShrink.

(** The table with the pages it reaches through the buffer pool: the
    directory page, the bucket pages by page id, and the pool's next fresh
    page id ([AllocatePage] hands out increasing ids and never reuses one). *)
Record ExtendibleHashTable := mkTable {
  directory_page_id_ : page_id_t;
  dir_page : HashTableDirectoryPage;
  bucket_pages : gmap Z HashTableBucketPage;
  next_page_id_ : page_id_t;
  trace : list event
}.

(** How a call ends.  [DirectoryOverflow]: the directory would have to double
    beyond [1 << MAX_DEPTH] entries, which writes outside its arrays.
    [PageFault]: a page id that designates no bucket page was fetched and
    used.  [OutOfFuel]: the bound given to a loop of the embedding was
    reached. *)
Inductive result (A : Type) :=
| Done (a : A)
| DirectoryOverflow
| PageFault
| OutOfFuel.
Arguments Done {A} a.
Arguments DirectoryOverflow {A}.
Arguments PageFault {A}.
Arguments OutOfFuel {A}.

Definition emit (e : event) (t : ExtendibleHashTable) : ExtendibleHashTable :=
  mkTable (directory_page_id_ t) (dir_page t) (bucket_pages t) (next_page_id_ t)
          (trace t ++ [e]).

Definition set_dir (d : HashTableDirectoryPage) (t : ExtendibleHashTable) :=
  mkTable (directory_page_id_ t) d (bucket_pages t) (next_page_id_ t) (trace t).

Definition set_bucket (p : page_id_t) (b : HashTableBucketPage) (t : ExtendibleHashTable) :=
  mkTable (directory_page_id_ t) (dir_page t) (<[ p := b ]> (bucket_pages t))
          (next_page_id_ t) (trace t).

(** Directory mutators as the table calls them. *)
Definition w_SetBucketPageId (i : Z) (p : page_id_t) (t : ExtendibleHashTable) :=
  emit (EvSetBucketPageId i p) (set_dir (SetBucketPageId (dir_page t) i p) t).
Definition w_SetLocalDepth (i depth : Z) (t : ExtendibleHashTable) :=
  emit (EvSetLocalDepth i depth) (set_dir (SetLocalDepth (dir_page t) i depth) t).
Definition w_IncrLocalDepth (i : Z) (t : ExtendibleHashTable) :=
  emit (EvIncrLocalDepth i) (set_dir (IncrLocalDepth (dir_page t) i) t).
Definition w_IncrGlobalDepth (t : ExtendibleHashTable) :=
  emit EvIncrGlobalDepth (set_dir (IncrGlobalDepth (dir_page t)) t).
Definition w_CanShrink (t : ExtendibleHashTable) :=
  emit EvCanShrink (set_dir (CanShrink (dir_page t)) t).

(** [for (i = start; i < n; i += diff) body(i)], for [diff >= 1]; at most
    [fuel] iterations are run, and every caller passes [fuel >= n]. *)
Fixpoint for_stride {S : Type} (fuel : nat) (i n diff : Z) (body : Z → S → S) (s : S) : S :=
  match fuel with
  | O => s
  | S fuel' => if i <? n then for_stride fuel' (i + diff) n diff body (body i s) else s
  end.

Section table.

(** [MAX_DEPTH] (the directory holds [1 << MAX_DEPTH] slots) and
    [BUCKET_ARRAY_SIZE] are constants of headers that are not among the
    sources; [hash_fn] is the [HashFunction] the table is built with. *)
Variable MAX_DEPTH : Z.
Variable BUCKET_ARRAY_SIZE : Z.
Variable hash_fn : KeyType → Z.

Definition DIRECTORY_ARRAY_SIZE : Z := Z.shiftl 1 MAX_DEPTH.

(** A directory page as [NewPage] hands it out: all bytes zero. *)
Definition zero_dir : HashTableDirectoryPage :=
  mkDir 0 0 (replicate (Z.to_nat DIRECTORY_ARRAY_SIZE) 0)
        (replicate (Z.to_nat DIRECTORY_ARRAY_SIZE) 0).

(** [NewPage] for a bucket page. *)
Definition NewPage (t : ExtendibleHashTable) : page_id_t * ExtendibleHashTable :=
  let p := next_page_id_ t in
  (p, emit (EvNewPage p)
        (mkTable (directory_page_id_ t) (dir_page t)
                 (<[ p := zero_page BUCKET_ARRAY_SIZE ]> (bucket_pages t))
                 (p + 1) (trace t))).

(** The constructor, on a pool whose next fresh page id is [first_id]. *)
Definition new_table (first_id : page_id_t) : ExtendibleHashTable :=
  let directory_page_id := first_id in
  let bucket_page_id := first_id + 1 in
  mkTable directory_page_id
          (SetBucketPageId (SetPageId zero_dir directory_page_id) 0 bucket_page_id)
          {[ bucket_page_id := zero_page BUCKET_ARRAY_SIZE ]}
          (first_id + 2)
          [EvNewPage directory_page_id; EvNewPage bucket_page_id;
           EvUnpinPage bucket_page_id true; EvUnpinPage directory_page_id true].

(** [Hash]: the 64-bit hash cast to [uint32_t]. *)
Definition Hash (key : KeyType) : Z := hash_fn key mod 2 ^ 32.

Definition KeyToDirectoryIndex (key : KeyType) (d : HashTableDirectoryPage) : Z :=
  Z.land (Hash key) (GetGlobalDepthMask d).

Definition KeyToPageId (key : KeyType) (d : HashTableDirectoryPage) : page_id_t :=
  GetBucketPageId d (KeyToDirectoryIndex key d).

Definition GetValue (key : KeyType) (t : ExtendibleHashTable)
    : result (bool * list ValueType * ExtendibleHashTable) :=
  let t := emit (EvFetchPage (directory_page_id_ t)) t in
  let index := Z.land (Hash key) (GetGlobalDepthMask (dir_page t)) in
  let bucket_page_id := GetBucketPageId (dir_page t) index in
  match bucket_pages t !! bucket_page_id with
  | None => PageFault
  | Some bucket_page =>
      let t := emit (EvFetchPage bucket_page_id) t in
      let t := emit (EvUnpinPage (directory_page_id_ t) false) t in
      let '(is_find, vs) := MyGetValue BUCKET_ARRAY_SIZE bucket_page key in
      let t := emit (EvUnpinPage bucket_page_id false) t in
      Done (is_find, vs, t)
  end.

Definition DeletePage (p : page_id_t) (t : ExtendibleHashTable) : ExtendibleHashTable :=
  emit (EvDeletePage p)
       (mkTable (directory_page_id_ t) (dir_page t) (delete p (bucket_pages t))
                (next_page_id_ t) (trace t)).

(** The rehash loop of [SplitInsert]: every pair of [result] goes back to the
    cleared source page when its masked hash equals [index], and to the image
    page otherwise. *)
Definition rehash (mask index : Z) (result : list MappingType)
    (bucket_page image_bucket_page : HashTableBucketPage)
    : HashTableBucketPage * HashTableBucketPage :=
  foldl (λ pages kv,
           if Z.land (Hash kv.1) mask =? index
           then ((MyInsert BUCKET_ARRAY_SIZE pages.1 kv.1 kv.2).2, pages.2)
           else (pages.1, (MyInsert BUCKET_ARRAY_SIZE pages.2 kv.1 kv.2).2))
        (bucket_page, image_bucket_page) result.

(** The body of the mirroring loop of a directory doubling:
    [SetBucketPageId(i + n, GetBucketPageId(i)); SetLocalDepth(i + n,
    GetLocalDepth(i))]. *)
Definition mirror_body (n : Z) (t : ExtendibleHashTable) (i : Z) : ExtendibleHashTable :=
  let t := w_SetBucketPageId (i + n) (GetBucketPageId (dir_page t) i) t in
  w_SetLocalDepth (i + n) (GetLocalDepth (dir_page t) i) t.

(** The directory update of one split, after [IncrLocalDepth(index)]:
    either the doubling branch or the two strided loops.  [local_depth],
    [mask] and [n] are the locals of the same names. *)
Definition split_directory (index image_index image_bucket_page_id : Z)
    (local_depth mask n : Z) (t : ExtendibleHashTable) : result ExtendibleHashTable :=
  if GetGlobalDepth (dir_page t) <? local_depth then
    if MAX_DEPTH <=? GetGlobalDepth (dir_page t) then DirectoryOverflow
    else
      let t := foldl (mirror_body n) t (seqZ 0 n) in
      let t := w_IncrGlobalDepth t in
      Done (w_SetBucketPageId image_index image_bucket_page_id t)
  else
    let diff := Z.shiftl 1 local_depth in
    let t := for_stride (Z.to_nat n) (Z.land index mask) n diff
               (λ i t, w_SetLocalDepth i local_depth t) t in
    Done (for_stride (Z.to_nat n) (Z.land image_index mask) n diff
            (λ i t, w_SetBucketPageId i image_bucket_page_id
                      (w_SetLocalDepth i local_depth t)) t).

(** One iteration of the [while (bucket_page->IsFull())] loop of
    [SplitInsert]; it returns the new [index] and [bucket_page_id]. *)
Definition split_step (key : KeyType) (index bucket_page_id : Z)
    (bucket_page : HashTableBucketPage) (t : ExtendibleHashTable)
    : result (Z * page_id_t * ExtendibleHashTable) :=
  let '(image_bucket_page_id, t) := NewPage t in
  let image_bucket_page := zero_page BUCKET_ARRAY_SIZE in
  let image_index := Z.lxor index (Z.shiftl 1 (GetLocalDepth (dir_page t) index)) in
  let t := w_IncrLocalDepth index t in
  let local_depth := GetLocalDepth (dir_page t) index in
  let mask := GetLocalDepthMask (dir_page t) index in
  let n := Z.shiftl 1 (GetGlobalDepth (dir_page t)) in
  match split_directory index image_index image_bucket_page_id local_depth mask n t with
  | Done t =>
      let result := GetAllPairs BUCKET_ARRAY_SIZE bucket_page in
      let bucket_page := Clear BUCKET_ARRAY_SIZE bucket_page in
      let '(bucket_page, image_bucket_page) :=
        rehash mask index result bucket_page image_bucket_page in
      let t := set_bucket image_bucket_page_id image_bucket_page
                 (set_bucket bucket_page_id bucket_page t) in
      let to_insert_page_id :=
        GetBucketPageId (dir_page t) (Z.land (Hash key) mask) in
      if to_insert_page_id =? bucket_page_id
      then Done (index, bucket_page_id, emit (EvUnpinPage image_bucket_page_id true) t)
      else Done (image_index, image_bucket_page_id,
                 emit (EvUnpinPage bucket_page_id true) t)
  | DirectoryOverflow => DirectoryOverflow
  | PageFault => PageFault
  | OutOfFuel => OutOfFuel
  end.

Fixpoint split_loop (fuel : nat) (key : KeyType) (index bucket_page_id : Z)
    (is_dir_dirty : bool) (t : ExtendibleHashTable)
    : result (page_id_t * bool * ExtendibleHashTable) :=
  match bucket_pages t !! bucket_page_id with
  | None => PageFault
  | Some bucket_page =>
      if IsFull BUCKET_ARRAY_SIZE bucket_page then
        match fuel with
        | O => OutOfFuel
        | S fuel' =>
            match split_step key index bucket_page_id bucket_page t with
            | Done (index, bucket_page_id, t) =>
                split_loop fuel' key index bucket_page_id true t
            | DirectoryOverflow => DirectoryOverflow
            | PageFault => PageFault
            | OutOfFuel => OutOfFuel
            end
        end
      else Done (bucket_page_id, is_dir_dirty, t)
  end.

(** [SplitInsert].  A local depth grows by one in every iteration of the
    loop and never exceeds [MAX_DEPTH], so [MAX_DEPTH + 2] iterations are more
    than the loop can make before it ends or leaves the directory. *)
Definition SplitInsert (key : KeyType) (value : ValueType) (t : ExtendibleHashTable)
    : result (bool * ExtendibleHashTable) :=
  let t := emit (EvFetchPage (directory_page_id_ t)) t in
  let index := Z.land (Hash key) (GetGlobalDepthMask (dir_page t)) in
  let bucket_page_id := GetBucketPageId (dir_page t) index in
  match bucket_pages t !! bucket_page_id with
  | None => PageFault
  | Some bucket_page =>
      let t := emit (EvFetchPage bucket_page_id) t in
      if negb (IsExist BUCKET_ARRAY_SIZE bucket_page key value) then
        match split_loop (Z.to_nat MAX_DEPTH + 2) key index bucket_page_id false t with
        | Done (bucket_page_id, is_dir_dirty, t) =>
            match bucket_pages t !! bucket_page_id with
            | None => PageFault
            | Some bucket_page =>
                let '(is_insert, bucket_page) :=
                  MyInsert BUCKET_ARRAY_SIZE bucket_page key value in
                let t := set_bucket bucket_page_id bucket_page t in
                let t := emit (EvUnpinPage bucket_page_id is_insert) t in
                let t := emit (EvUnpinPage (directory_page_id_ t) is_dir_dirty) t in
                Done (is_insert, t)
            end
        | DirectoryOverflow => DirectoryOverflow
        | PageFault => PageFault
        | OutOfFuel => OutOfFuel
        end
      else
        let t := emit (EvUnpinPage bucket_page_id false) t in
        let t := emit (EvUnpinPage (directory_page_id_ t) false) t in
        Done (false, t)
  end.

Definition Insert (key : KeyType) (value : ValueType) (t : ExtendibleHashTable)
    : result (bool * ExtendibleHashTable) :=
  let t := emit (EvFetchPage (directory_page_id_ t)) t in
  let index := Z.land (Hash key) (GetGlobalDepthMask (dir_page t)) in
  let bucket_page_id := GetBucketPageId (dir_page t) index in
  match bucket_pages t !! bucket_page_id with
  | None => PageFault
  | Some bucket_page =>
      let t := emit (EvFetchPage bucket_page_id) t in
      let t := emit (EvUnpinPage (directory_page_id_ t) false) t in
      if negb (IsExist BUCKET_ARRAY_SIZE bucket_page key value) then
        let '(is_insert, bucket_page) :=
          MyInsert BUCKET_ARRAY_SIZE bucket_page key value in
        if negb is_insert then
          let t := emit (EvUnpinPage bucket_page_id false) t in
          SplitInsert key value t
        else
          let t := set_bucket bucket_page_id bucket_page t in
          let t := emit (EvUnpinPage bucket_page_id is_insert) t in
          Done (is_insert, t)
      else
        let t := emit (EvUnpinPage bucket_page_id false) t in
        Done (false, t)
  end.

(** [index ^ high_bit] with [high_bit = local_depth > 0 ? 1 << (local_depth - 1) : 0]. *)
Definition merge_image (index local_depth : Z) : Z :=
  Z.lxor index (if 0 <? local_depth then Z.shiftl 1 (local_depth - 1) else 0).

(** The body of the [while] loop of [Merge]; it returns the new
    [bucket_page_id], [local_depth] and [image_index]. *)
Definition merge_step (index bucket_page_id local_depth image_index : Z)
    (t : ExtendibleHashTable) : page_id_t * Z * Z * ExtendibleHashTable :=
  let image_bucket_page_id := GetBucketPageId (dir_page t) image_index in
  let diff := Z.shiftl 1 local_depth in
  let n := Z.shiftl 1 (GetGlobalDepth (dir_page t)) in
  let local_depth := local_depth - 1 in
  let t := for_stride (Z.to_nat n) (Z.land index (diff - 1)) n diff
             (λ i t, w_SetBucketPageId i image_bucket_page_id
                       (w_SetLocalDepth i local_depth t)) t in
  let t := for_stride (Z.to_nat n) (Z.land image_index (diff - 1)) n diff
             (λ i t, w_SetLocalDepth i local_depth t) t in
  let t := w_CanShrink t in
  let t := emit (EvUnpinPage bucket_page_id false) t in
  let t := DeletePage bucket_page_id t in
  let bucket_page_id := image_bucket_page_id in
  let t := emit (EvFetchPage bucket_page_id) t in
  let image_index := merge_image index local_depth in
  (bucket_page_id, local_depth, image_index, t).

Fixpoint merge_loop (fuel : nat) (index bucket_page_id local_depth image_index : Z)
    (is_merge : bool) (t : ExtendibleHashTable)
    : result (page_id_t * bool * ExtendibleHashTable) :=
  match bucket_pages t !! bucket_page_id with
  | None => PageFault
  | Some bucket_page =>
      if (0 <? local_depth) &&
         (GetLocalDepth (dir_page t) image_index =? local_depth) &&
         IsEmpty BUCKET_ARRAY_SIZE bucket_page then
        match fuel with
        | O => OutOfFuel
        | S fuel' =>
            let '(bucket_page_id, local_depth, image_index, t) :=
              merge_step index bucket_page_id local_depth image_index t in
            merge_loop fuel' index bucket_page_id local_depth image_index true t
        end
      else Done (bucket_page_id, is_merge, t)
  end.

(** [Merge].  [local_depth] drops by one in every iteration and the loop
    stops at zero, so [local_depth + 1] bounds the iterations. *)
Definition Merge (key : KeyType) (value : ValueType) (t : ExtendibleHashTable)
    : result ExtendibleHashTable :=
  let t := emit (EvFetchPage (directory_page_id_ t)) t in
  let index := Z.land (Hash key) (GetGlobalDepthMask (dir_page t)) in
  let bucket_page_id := GetBucketPageId (dir_page t) index in
  let t := emit (EvFetchPage bucket_page_id) t in
  let local_depth := GetLocalDepth (dir_page t) index in
  let image_index := merge_image index local_depth in
  match merge_loop (Z.to_nat local_depth + 1) index bucket_page_id local_depth
                   image_index false t with
  | Done (bucket_page_id, is_merge, t) =>
      let t := emit (EvUnpinPage bucket_page_id false) t in
      Done (emit (EvUnpinPage (directory_page_id_ t) is_merge) t)
  | DirectoryOverflow => DirectoryOverflow
  | PageFault => PageFault
  | OutOfFuel => OutOfFuel
  end.

(** The test that makes [Remove] call [Merge], on the bucket page after the
    removal. *)
Definition merge_wanted (d : HashTableDirectoryPage) (index : Z)
    (bucket_page : HashTableBucketPage) : bool :=
  let local_depth := GetLocalDepth d index in
  let image_index := merge_image index local_depth in
  (0 <? local_depth) && (GetLocalDepth d image_index =? local_depth) &&
  IsEmpty BUCKET_ARRAY_SIZE bucket_page.

Definition Remove (key : KeyType) (value : ValueType) (t : ExtendibleHashTable)
    : result (bool * ExtendibleHashTable) :=
  let t := emit (EvFetchPage (directory_page_id_ t)) t in
  let index := Z.land (Hash key) (GetGlobalDepthMask (dir_page t)) in
  let bucket_page_id := GetBucketPageId (dir_page t) index in
  match bucket_pages t !! bucket_page_id with
  | None => PageFault
  | Some bucket_page =>
      let t := emit (EvFetchPage bucket_page_id) t in
      let t := emit (EvUnpinPage (directory_page_id_ t) false) t in
      let '(is_remove, bucket_page) :=
        MyRemove BUCKET_ARRAY_SIZE bucket_page key value in
      let t := set_bucket bucket_page_id bucket_page t in
      let t := emit (EvUnpinPage bucket_page_id is_remove) t in
      if is_remove && merge_wanted (dir_page t) index bucket_page then
        match Merge key value t with
        | Done t => Done (is_remove, t)
        | DirectoryOverflow => DirectoryOverflow
        | PageFault => PageFault
        | OutOfFuel => OutOfFuel
        end
      else Done (is_remove, t)
  end.

(** Sequences of table operations. *)
Inductive op :=
| OpInsert (key : KeyType) (value : ValueType)
| OpRemove (key : KeyType) (value : ValueType).

Definition step (o : op) (t : ExtendibleHashTable) : result ExtendibleHashTable :=
  match o with
  | OpInsert k v => match Insert k v t with
                    | Done (_, t) => Done t
                    | DirectoryOverflow => DirectoryOverflow
                    | PageFault => PageFault
                    | OutOfFuel => OutOfFuel
                    end
  | OpRemove k v => match Remove k v t with
                    | Done (_, t) => Done t
                    | DirectoryOverflow => DirectoryOverflow
                    | PageFault => PageFault
                    | OutOfFuel => OutOfFuel
                    end
  end.

Fixpoint run (ops : list op) (t : ExtendibleHashTable) : result ExtendibleHashTable :=
  match ops with
  | [] => Done t
  | o :: ops' => match step o t with
                 | Done t => run ops' t
                 | r => r
                 end
  end.

(** The values [GetValue] returns for [key], or [None] when the call does
    not complete. *)
Definition values_of (key : KeyType) (t : ExtendibleHashTable) : option (list ValueType) :=
  match GetValue key t with
  | Done (_, vs, _) => Some vs
  | _ => None
  end.

(** The reference multimap: a set of (key, value) pairs as a list;
    inserting a pair that is present and removing one that is absent change
    nothing. *)
Definition ref_step (o : op) (m : list MappingType) : list MappingType :=
  match o with
  | OpInsert k v => if bool_decide ((k, v) ∈ m) then m else m ++ [(k, v)]
  | OpRemove k v => filter (λ kv, kv ≠ (k, v)) m
  end.

Definition ref_run (ops : list op) : list MappingType :=
  foldl (λ m o, ref_step o m) [] ops.

Definition ref_values (key : KeyType) (m : list MappingType) : list ValueType :=
  (filter (λ kv, kv.1 = key) m).*2.

End table.

(** *** Residues modulo powers of two *)

Section residues.

Implicit Types (i j k g : Z).

Lemma pow2_pos k : 0 <= k → 0 < 2 ^ k.
Proof. intros. apply Z.pow_pos_nonneg; lia. Qed.

Lemma pow2_succ k : 0 <= k → 2 ^ (k + 1) = 2 ^ k * 2.
Proof. intros. rewrite Z.pow_add_r by lia. done. Qed.

Lemma pow2_divide k g : 0 <= k <= g → (2 ^ k | 2 ^ g).
Proof.
  intros Hk. exists (2 ^ (g - k)). rewrite <- Z.pow_add_r by lia. f_equal. lia.
Qed.

Lemma pow2_le k g : 0 <= k <= g → 2 ^ k <= 2 ^ g.
Proof. intros. apply Z.pow_le_mono_r; lia. Qed.

Lemma shiftl1 k : 0 <= k → Z.shiftl 1 k = 2 ^ k.
Proof. intros. by rewrite Z.shiftl_1_l. Qed.

Lemma land_mask i k : 0 <= k → Z.land i (Z.shiftl 1 k - 1) = i mod 2 ^ k.
Proof.
  intros Hk. rewrite shiftl1 by done. rewrite <- Z.land_ones by done.
  by rewrite Z.ones_equiv, <- Z.sub_1_r.
Qed.

(** Coarsening: equal residues modulo [2 ^ g] are equal modulo [2 ^ k],
    [k <= g]. *)
Lemma class_coarsen i j k g :
  0 <= k <= g → i mod 2 ^ g = j mod 2 ^ g → i mod 2 ^ k = j mod 2 ^ k.
Proof.
  intros Hk He.
  rewrite <- (Z.mod_mod_divide i (2 ^ g) (2 ^ k)) by by apply pow2_divide.
  rewrite <- (Z.mod_mod_divide j (2 ^ g) (2 ^ k)) by by apply pow2_divide.
  by rewrite He.
Qed.

Lemma mod_pow2_alias j k g : 0 <= k <= g → (j mod 2 ^ g) mod 2 ^ k = j mod 2 ^ k.
Proof. intros. apply Z.mod_mod_divide. by apply pow2_divide. Qed.

(** The residue modulo [2 ^ (k+1)] is the residue modulo [2 ^ k] plus bit
    [k]. *)
Lemma mod_double j k :
  0 <= k → j mod 2 ^ (k + 1) = j mod 2 ^ k + 2 ^ k * Z.b2z (Z.testbit j k).
Proof.
  intros Hk. rewrite pow2_succ by done.
  rewrite Z.rem_mul_r by (pose proof (pow2_pos k); lia).
  by rewrite Z.testbit_spec'.
Qed.

Lemma lxor_pow2 i k :
  0 <= k →
  Z.lxor i (2 ^ k) = if Z.testbit i k then i - 2 ^ k else i + 2 ^ k.
Proof.
  intros Hk.
  assert (∀ a, Z.testbit a k = false → Z.lxor a (2 ^ k) = a + 2 ^ k) as Hclear.
  { intros a Ha. symmetry. apply Z.add_nocarry_lxor.
    apply Z.eqb_eq. rewrite <- shiftl1 by done. rewrite land_bit_eqb by done.
    by rewrite Ha. }
  destruct (Z.testbit i k) eqn:Hb; [|by apply Hclear].
  assert (Z.testbit (Z.lxor i (2 ^ k)) k = false) as Hb'
    by (rewrite Z.lxor_spec, Hb, Z.pow2_bits_true; done).
  apply Hclear in Hb'.
  rewrite Z.lxor_assoc, Z.lxor_nilpotent, Z.lxor_0_r in Hb'. lia.
Qed.

Lemma testbit_lxor_pow2 i k : 0 <= k → Z.testbit (Z.lxor i (2 ^ k)) k = negb (Z.testbit i k).
Proof.
  intros. rewrite Z.lxor_spec, Z.pow2_bits_true by done. by destruct (Z.testbit i k).
Qed.

(** The image of [i] at depth [k] has the residue of [i] modulo [2 ^ k] and
    the other residue modulo [2 ^ (k+1)]. *)
Lemma image_low i k : 0 <= k → Z.lxor i (2 ^ k) mod 2 ^ k = i mod 2 ^ k.
Proof.
  intros Hk. rewrite lxor_pow2 by done. destruct (Z.testbit i k).
  - replace (i - 2 ^ k) with (i + (-1) * 2 ^ k) by lia. apply Z_mod_plus_full.
  - replace (i + 2 ^ k) with (i + 1 * 2 ^ k) by lia. apply Z_mod_plus_full.
Qed.

Lemma image_high i k :
  0 <= k → Z.lxor i (2 ^ k) mod 2 ^ (k + 1) ≠ i mod 2 ^ (k + 1).
Proof.
  intros Hk. rewrite !mod_double, image_low, testbit_lxor_pow2 by done.
  pose proof (pow2_pos k Hk). destruct (Z.testbit i k); simpl; lia.
Qed.

Lemma class_split i j k :
  0 <= k → j mod 2 ^ k = i mod 2 ^ k →
  j mod 2 ^ (k + 1) = i mod 2 ^ (k + 1) ∨
  j mod 2 ^ (k + 1) = Z.lxor i (2 ^ k) mod 2 ^ (k + 1).
Proof.
  intros Hk He. rewrite !mod_double, image_low, testbit_lxor_pow2, He by done.
  destruct (Z.testbit i k), (Z.testbit j k); simpl; auto.
Qed.

Lemma lxor_pow2_bound i k g :
  0 <= k < g → 0 <= i < 2 ^ g → 0 <= Z.lxor i (2 ^ k) < 2 ^ g.
Proof.
  intros Hk Hi. pose proof (pow2_pos k). split.
  - apply Z.lxor_nonneg. lia.
  - destruct (decide (Z.lxor i (2 ^ k) = 0)) as [->|Hne]; [lia|].
    assert (0 <= Z.lxor i (2 ^ k)) by (apply Z.lxor_nonneg; lia).
    apply Z.log2_lt_pow2; [lia|].
    pose proof (Z.log2_lxor i (2 ^ k)) as Hl.
    rewrite Z.log2_pow2 in Hl by lia.
    destruct (decide (i = 0)) as [->|]; [simpl in Hl; lia|].
    assert (Z.log2 i < g) by (apply Z.log2_lt_pow2; lia). lia.
Qed.

(** At full depth the image of a slot of the lower half is its mirror. *)
Lemma image_mirror i g : 0 <= g → 0 <= i < 2 ^ g → Z.lxor i (2 ^ g) = i + 2 ^ g.
Proof.
  intros Hg Hi. rewrite lxor_pow2 by done.
  assert (Z.testbit i g = false) as ->; [|done].
  rewrite <- (Z.mod_small i (2 ^ g)) by done. apply Z.mod_pow2_bits_high. lia.
Qed.

Lemma image_mod_alias i k g :
  0 <= k < g →
  Z.lxor (i mod 2 ^ g) (2 ^ k) mod 2 ^ (k + 1) = Z.lxor i (2 ^ k) mod 2 ^ (k + 1).
Proof.
  intros Hk. rewrite !mod_double, !image_low, !testbit_lxor_pow2 by lia.
  rewrite Z.mod_pow2_bits_low by lia. by rewrite mod_pow2_alias by lia.
Qed.

End residues.

(** *** The directory as a map from slots to depth and bucket

    [wf_view g ld bid] is the shape of an extendible-hashing directory of
    global depth [g]: every active slot has a local depth within [0, g]; the
    slots that agree with slot [i] on its low [ld i] bits hold the bucket and
    the depth of [i]; and no other slot holds that bucket. *)

Definition wf_view (g : Z) (ld bid : Z → Z) : Prop :=
  0 <= g ∧
  (∀ i, 0 <= i < 2 ^ g → 0 <= ld i <= g) ∧
  (∀ i j, 0 <= i < 2 ^ g → 0 <= j < 2 ^ g →
          j mod 2 ^ ld i = i mod 2 ^ ld i → bid j = bid i ∧ ld j = ld i) ∧
  (∀ i j, 0 <= i < 2 ^ g → 0 <= j < 2 ^ g →
          bid i = bid j → j mod 2 ^ ld i = i mod 2 ^ ld i).

Section views.

Implicit Types (g k index p : Z) (ld bid : Z → Z).

Lemma wf_view_ext g ld bid ld' bid' :
  wf_view g ld bid →
  (∀ x, 0 <= x < 2 ^ g → ld' x = ld x ∧ bid' x = bid x) →
  wf_view g ld' bid'.
Proof.
  intros (Hg & Hb & Hc & Hu) He. split_and!; [done|..].
  - intros i Hi. destruct (He i Hi) as [-> _]. by apply Hb.
  - intros i j Hi Hj. destruct (He i Hi) as [-> ->], (He j Hj) as [-> ->].
    by apply Hc.
  - intros i j Hi Hj. destruct (He i Hi) as [-> ->], (He j Hj) as [_ ->].
    by apply Hu.
Qed.

(** Doubling: the upper half mirrors the lower half. *)
Lemma wf_double g ld bid ld2 bid2 :
  wf_view g ld bid →
  (∀ x, 0 <= x < 2 ^ (g + 1) →
        ld2 x = ld (x mod 2 ^ g) ∧ bid2 x = bid (x mod 2 ^ g)) →
  wf_view (g + 1) ld2 bid2.
Proof.
  intros (Hg & Hb & Hc & Hu) He.
  pose proof (pow2_pos g Hg) as Hpos.
  assert (∀ x, 0 <= x mod 2 ^ g < 2 ^ g) as Hm by (intros; apply Z.mod_pos_bound; lia).
  split_and!; [lia|..].
  - intros i Hi. destruct (He i Hi) as [-> _]. specialize (Hb _ (Hm i)). lia.
  - intros i j Hi Hj. destruct (He i Hi) as [-> ->], (He j Hj) as [-> ->].
    intros Hij. apply Hc; [done|done|].
    pose proof (Hb _ (Hm i)). rewrite !mod_pow2_alias by lia. done.
  - intros i j Hi Hj. destruct (He i Hi) as [-> ->], (He j Hj) as [_ ->].
    intros Hij. pose proof (Hb _ (Hm i)).
    apply Hu in Hij; [|done|done]. by rewrite !mod_pow2_alias in Hij by lia.
Qed.

(** Shrinking: when every local depth is below the global depth. *)
Lemma wf_shrink g ld bid :
  wf_view g ld bid → (∀ i, 0 <= i < 2 ^ g → ld i < g) → wf_view (g - 1) ld bid.
Proof.
  intros (Hg & Hb & Hc & Hu) Hlt.
  assert (0 < g) as Hg'.
  { pose proof (pow2_pos g Hg). specialize (Hb 0). specialize (Hlt 0). lia. }
  assert (2 ^ (g - 1) <= 2 ^ g) by (apply pow2_le; lia).
  split_and!; [lia|..].
  - intros i Hi. specialize (Hb i). specialize (Hlt i). lia.
  - intros i j Hi Hj. apply Hc; lia.
  - intros i j Hi Hj. apply Hu; lia.
Qed.

(** Before a shrink the upper half of the active region mirrors the lower
    half. *)
Lemma wf_upper_mirror g ld bid x :
  wf_view g ld bid → (∀ i, 0 <= i < 2 ^ g → ld i < g) → 0 <= x < 2 ^ g →
  ld (x mod 2 ^ (g - 1)) = ld x ∧ bid (x mod 2 ^ (g - 1)) = bid x.
Proof.
  intros (Hg & Hb & Hc & Hu) Hlt Hx.
  assert (0 < g) as Hg'.
  { pose proof (pow2_pos g Hg). specialize (Hb 0). specialize (Hlt 0). lia. }
  assert (2 ^ (g - 1) <= 2 ^ g) by (apply pow2_le; lia).
  pose proof (pow2_pos (g - 1)).
  pose proof (Z.mod_pos_bound x (2 ^ (g - 1))).
  specialize (Hb x Hx). specialize (Hlt x Hx).
  destruct (Hc x (x mod 2 ^ (g - 1))) as [-> ->]; [lia|lia| |done].
  apply mod_pow2_alias. lia.
Qed.

(** Splitting the bucket of slot [index], of local depth [k] below [g]: the
    slots of its class get depth [k + 1], and those that agree with the image
    slot on [k + 1] bits get the new bucket [p]. *)
Lemma wf_split g ld bid index p ld' bid' :
  wf_view g ld bid → 0 <= index < 2 ^ g → ld index < g →
  (∀ i, 0 <= i < 2 ^ g → bid i ≠ p) →
  (∀ x, 0 <= x < 2 ^ g →
     ld' x = (if decide (x mod 2 ^ ld index = index mod 2 ^ ld index)
              then ld index + 1 else ld x) ∧
     bid' x = (if decide (x mod 2 ^ (ld index + 1) =
                          Z.lxor index (2 ^ ld index) mod 2 ^ (ld index + 1))
               then p else bid x)) →
  wf_view g ld' bid'.
Proof.
  intros (Hg & Hb & Hc & Hu) Hidx Hk Hfresh He.
  set (k := ld index) in *. assert (0 <= k) as Hk0 by (specialize (Hb index); lia).
  set (im := Z.lxor index (2 ^ k)) in *.
  assert (∀ x, 0 <= x < 2 ^ g → x mod 2 ^ k = index mod 2 ^ k →
               bid x = bid index ∧ ld x = k) as F1 by (intros; by apply Hc).
  assert (∀ x, 0 <= x < 2 ^ g → bid x = bid index → x mod 2 ^ k = index mod 2 ^ k)
    as F1' by (intros x Hx Hbx; by apply Hu).
  assert (∀ x, x mod 2 ^ (k + 1) = im mod 2 ^ (k + 1) → x mod 2 ^ k = index mod 2 ^ k)
    as F2.
  { intros x Hx. rewrite <- (image_low index k Hk0).
    apply (class_coarsen _ _ k (k + 1)); [lia|done]. }
  assert (∀ x, x mod 2 ^ k = index mod 2 ^ k → x mod 2 ^ (k + 1) ≠ im mod 2 ^ (k + 1) →
               x mod 2 ^ (k + 1) = index mod 2 ^ (k + 1)) as F3.
  { intros x Hx Hn. by destruct (class_split index x k Hk0 Hx). }
  split_and!; [done|..].
  - intros i Hi. destruct (He i Hi) as [-> _]. specialize (Hb i Hi).
    destruct (decide _); lia.
  - intros i j Hi Hj. destruct (He i Hi) as [-> ->], (He j Hj) as [-> ->].
    destruct (decide (i mod 2 ^ k = index mod 2 ^ k)) as [Ci|Ci].
    + intros Hij.
      assert (j mod 2 ^ k = index mod 2 ^ k) as Cj.
      { rewrite <- Ci. apply (class_coarsen _ _ k (k + 1)); [lia|done]. }
      rewrite (decide_True _ _ Cj). split; [|done].
      rewrite Hij. destruct (decide _); [done|].
      destruct (F1 i Hi Ci) as [-> _], (F1 j Hj Cj) as [-> _]. done.
    + intros Hij. destruct (Hc i j Hi Hj Hij) as [Hbj Hlj].
      assert (j mod 2 ^ k ≠ index mod 2 ^ k) as Cj.
      { intros Cj. apply Ci, F1'; [done|]. destruct (F1 j Hj Cj). congruence. }
      rewrite (decide_False _ _ Cj).
      rewrite !decide_False by (intros Hx; by apply F2 in Hx). done.
  - intros i j Hi Hj. destruct (He i Hi) as [-> ->], (He j Hj) as [_ ->].
    destruct (decide (i mod 2 ^ (k + 1) = im mod 2 ^ (k + 1))) as [Ii|Ii];
      destruct (decide (j mod 2 ^ (k + 1) = im mod 2 ^ (k + 1))) as [Ij|Ij].
    + intros _. rewrite decide_True by by apply F2. congruence.
    + intros Hp. symmetry in Hp. by apply Hfresh in Hp.
    + intros Hp. by apply Hfresh in Hp.
    + intros Hbij. pose proof (Hu i j Hi Hj Hbij) as Hij.
      destruct (decide (i mod 2 ^ k = index mod 2 ^ k)) as [Ci|Ci]; [|done].
      assert (j mod 2 ^ k = index mod 2 ^ k) as Cj.
      { apply F1'; [done|]. destruct (F1 i Hi Ci). congruence. }
      rewrite (F3 i Ci Ii), (F3 j Cj Ij). done.
Qed.

(** Merging the bucket of the class of [index], of local depth [k > 0], into
    its image's bucket [q], the image having depth [k] too: the slots that
    agree with [index] on [k - 1] bits get depth [k - 1] and bucket [q]. *)
Lemma wf_merge g ld bid index k image q ld' bid' :
  wf_view g ld bid → 0 <= index < 2 ^ g → 0 <= image < 2 ^ g →
  ld index = k → 0 < k → ld image = k → bid image = q →
  image mod 2 ^ k = Z.lxor index (2 ^ (k - 1)) mod 2 ^ k →
  (∀ x, 0 <= x < 2 ^ g →
     ld' x = (if decide (x mod 2 ^ (k - 1) = index mod 2 ^ (k - 1))
              then k - 1 else ld x) ∧
     bid' x = (if decide (x mod 2 ^ (k - 1) = index mod 2 ^ (k - 1))
               then q else bid x)) →
  wf_view g ld' bid'.
Proof.
  intros (Hg & Hb & Hc & Hu) Hidx Himg Hk Hk0 Hki Hq Him He.
  assert (∀ x, 0 <= x < 2 ^ g → x mod 2 ^ (k - 1) = index mod 2 ^ (k - 1) →
               ld x = k ∧ (bid x = bid index ∨ bid x = q)) as F1.
  { intros x Hx Cx.
    destruct (class_split index x (k - 1)) as [Hs|Hs]; [lia|done|..];
      replace (k - 1 + 1) with k in Hs by lia.
    - destruct (Hc index x) as [-> ->]; [done|done|by rewrite Hk|]. auto.
    - destruct (Hc image x) as [-> ->]; [done|done|rewrite Hki; congruence|]. auto. }
  assert (∀ x, 0 <= x < 2 ^ g → bid x = bid index ∨ bid x = q →
               x mod 2 ^ (k - 1) = index mod 2 ^ (k - 1)) as F2.
  { intros x Hx [Hbx|Hbx].
    - symmetry in Hbx. apply Hu in Hbx; [|done|done]. rewrite Hk in Hbx.
      apply (class_coarsen _ _ (k - 1) k); [lia|done].
    - rewrite <- Hq in Hbx. symmetry in Hbx. apply Hu in Hbx; [|done|done].
      rewrite Hki, Him in Hbx. rewrite <- (image_low index (k - 1)) by lia.
      apply (class_coarsen _ _ (k - 1) k); [lia|done]. }
  split_and!; [done|..].
  - intros i Hi. destruct (He i Hi) as [-> _]. pose proof (Hb index Hidx).
    specialize (Hb i Hi). destruct (decide _); lia.
  - intros i j Hi Hj. destruct (He i Hi) as [-> ->], (He j Hj) as [-> ->].
    destruct (decide (i mod 2 ^ (k - 1) = index mod 2 ^ (k - 1))) as [Ci|Ci].
    + intros Hij. repeat case_decide; try done; congruence.
    + intros Hij. destruct (Hc i j Hi Hj Hij) as [Hbj Hlj].
      assert (j mod 2 ^ (k - 1) ≠ index mod 2 ^ (k - 1)) as Cj.
      { intros Cj. destruct (F1 j Hj Cj) as [_ Hor].
        apply Ci, F2; [done|]. by rewrite <- Hbj. }
      repeat case_decide; done.
  - intros i j Hi Hj. destruct (He i Hi) as [-> ->], (He j Hj) as [_ ->].
    destruct (decide (i mod 2 ^ (k - 1) = index mod 2 ^ (k - 1))) as [Ci|Ci];
      destruct (decide (j mod 2 ^ (k - 1) = index mod 2 ^ (k - 1))) as [Cj|Cj].
    + intros _. congruence.
    + intros Hp. exfalso. apply Cj, F2; [done|]. auto.
    + intros Hp. exfalso. apply Ci, F2; [done|]. auto.
    + by apply Hu.
Qed.

End views.

(** *** The directory page and its loops *)

(** What the body of a strided loop does to slot [i]: it sets the local
    depth, and the bucket page id when the loop has one to set. *)
Definition slot_update (depth : Z) (p : option page_id_t)
    (i : Z) (d : HashTableDirectoryPage) : HashTableDirectoryPage :=
  match p with
  | Some p => SetBucketPageId (SetLocalDepth d i depth) i p
  | None => SetLocalDepth d i depth
  end.

(** Two tables that differ at most in the directory page and the trace. *)
Definition same_frame (t t' : ExtendibleHashTable) : Prop :=
  directory_page_id_ t' = directory_page_id_ t ∧
  bucket_pages t' = bucket_pages t ∧
  next_page_id_ t' = next_page_id_ t.

Section directory.

Variable MAX_DEPTH : Z.

Definition dir_shape (d : HashTableDirectoryPage) : Prop :=
  length (local_depths_ d) = Z.to_nat (DIRECTORY_ARRAY_SIZE MAX_DEPTH) ∧
  length (bucket_page_ids_ d) = Z.to_nat (DIRECTORY_ARRAY_SIZE MAX_DEPTH).

Definition dir_wf (d : HashTableDirectoryPage) : Prop :=
  dir_shape d ∧ GetGlobalDepth d <= MAX_DEPTH ∧
  wf_view (GetGlobalDepth d) (GetLocalDepth d) (GetBucketPageId d).

(** The sharing invariant of the design document, on the active slots. *)
Definition sharing_inv (d : HashTableDirectoryPage) : Prop :=
  ∀ s s', 0 <= s < Size d → 0 <= s' < Size d →
    (GetBucketPageId d s = GetBucketPageId d s' ↔
     Z.land s (GetLocalDepthMask d s) = Z.land s' (GetLocalDepthMask d s) ∧
     GetLocalDepth d s = GetLocalDepth d s').

Implicit Types (d : HashTableDirectoryPage) (t : ExtendibleHashTable).

Lemma dir_wf_sharing d : dir_wf d → sharing_inv d.
Proof.
  intros (_ & _ & Hg & Hb & Hc & Hu) s s'. unfold Size.
  rewrite shiftl1 by done. intros Hs Hs'.
  unfold GetLocalDepthMask. specialize (Hb s Hs) as Hbs.
  rewrite !land_mask by lia. split.
  - intros He. pose proof (Hu s s' Hs Hs' He) as Hm.
    split; [done|]. by destruct (Hc s s' Hs Hs' Hm).
  - intros [Hm _]. symmetry. by apply Hc.
Qed.

Lemma GetLocalDepth_Set d i v j :
  0 <= i → 0 <= j → (Z.to_nat i < length (local_depths_ d))%nat →
  GetLocalDepth (SetLocalDepth d i v) j = if decide (j = i) then v else GetLocalDepth d j.
Proof.
  intros Hi Hj Hl. unfold GetLocalDepth, SetLocalDepth. simpl.
  destruct (decide (j = i)) as [->|Hne].
  - by rewrite list_lookup_insert_eq.
  - rewrite list_lookup_insert_ne; [done|lia].
Qed.

Lemma GetBucketPageId_Set d i v j :
  0 <= i → 0 <= j → (Z.to_nat i < length (bucket_page_ids_ d))%nat →
  GetBucketPageId (SetBucketPageId d i v) j =
    if decide (j = i) then v else GetBucketPageId d j.
Proof.
  intros Hi Hj Hl. unfold GetBucketPageId, SetBucketPageId. simpl.
  destruct (decide (j = i)) as [->|Hne].
  - by rewrite list_lookup_insert_eq.
  - rewrite list_lookup_insert_ne; [done|lia].
Qed.

Lemma dir_shape_SetLocalDepth d i v : dir_shape d → dir_shape (SetLocalDepth d i v).
Proof. intros [H1 H2]. split; simpl; [by rewrite length_insert|done]. Qed.

Lemma dir_shape_SetBucketPageId d i v : dir_shape d → dir_shape (SetBucketPageId d i v).
Proof. intros [H1 H2]. split; simpl; [done|by rewrite length_insert]. Qed.

Lemma slot_update_spec depth p i d :
  dir_shape d → 0 <= i < DIRECTORY_ARRAY_SIZE MAX_DEPTH →
  dir_shape (slot_update depth p i d) ∧
  global_depth_ (slot_update depth p i d) = global_depth_ d ∧
  ∀ x, 0 <= x →
    GetLocalDepth (slot_update depth p i d) x =
      (if decide (x = i) then depth else GetLocalDepth d x) ∧
    GetBucketPageId (slot_update depth p i d) x =
      (if decide (x = i) then default (GetBucketPageId d x) p else GetBucketPageId d x).
Proof.
  intros Hs Hi. pose proof Hs as [H1 H2]. destruct p as [p|]; simpl.
  - split_and!.
    + by apply dir_shape_SetBucketPageId, dir_shape_SetLocalDepth.
    + done.
    + intros x Hx. split.
      * change (GetLocalDepth (SetBucketPageId (SetLocalDepth d i depth) i p) x)
          with (GetLocalDepth (SetLocalDepth d i depth) x).
        apply GetLocalDepth_Set; lia.
      * rewrite GetBucketPageId_Set; [done|lia|lia|simpl; lia].
  - split_and!.
    + by apply dir_shape_SetLocalDepth.
    + done.
    + intros x Hx. split.
      * apply GetLocalDepth_Set; lia.
      * by destruct (decide (x = i)).
Qed.

Lemma for_stride_dir depth p n diff : ∀ fuel i0 d,
  0 < diff → 0 <= i0 → n <= DIRECTORY_ARRAY_SIZE MAX_DEPTH → dir_shape d →
  n - i0 <= Z.of_nat fuel →
  let d' := for_stride fuel i0 n diff (slot_update depth p) d in
  dir_shape d' ∧ global_depth_ d' = global_depth_ d ∧
  ∀ x, 0 <= x →
    GetLocalDepth d' x =
      (if decide (i0 <= x < n ∧ (x - i0) mod diff = 0) then depth
       else GetLocalDepth d x) ∧
    GetBucketPageId d' x =
      (if decide (i0 <= x < n ∧ (x - i0) mod diff = 0)
       then default (GetBucketPageId d x) p else GetBucketPageId d x).
Proof.
  induction fuel as [|fuel IH]; intros i0 d Hdiff Hi0 Hn Hs Hf; simpl.
  - split_and!; [done|done|]. intros x Hx.
    rewrite !decide_False by lia. done.
  - destruct (Z.ltb_spec i0 n) as [Hlt|Hge].
    + destruct (slot_update_spec depth p i0 d Hs) as (Hs1 & Hg1 & Hx1); [lia|].
      destruct (IH (i0 + diff) (slot_update depth p i0 d)) as (Hs2 & Hg2 & Hx2);
        [lia|lia|lia|done|lia|].
      split_and!; [done|congruence|]. intros x Hx.
      destruct (Hx2 x Hx) as [-> ->], (Hx1 x Hx) as [-> ->].
      replace (x - (i0 + diff)) with (x - i0 + (-1) * diff) by lia.
      rewrite Z_mod_plus_full.
      destruct (decide (x = i0)) as [->|Hne].
      * rewrite Z.sub_diag, Z.mod_0_l by lia.
        rewrite (decide_False (P := _ <= _ < _ ∧ _)) by lia.
        rewrite (decide_True (P := _ <= _ < _ ∧ _)) by lia.
        rewrite (decide_False (P := _ <= _ < _ ∧ _)) by lia.
        rewrite (decide_True (P := _ <= _ < _ ∧ _)) by lia. done.
      * assert ((i0 + diff <= x < n ∧ (x - i0) mod diff = 0) ↔
                (i0 <= x < n ∧ (x - i0) mod diff = 0)) as Hiff.
        { split; [lia|]. intros [Hr Hm]. split; [|done].
          apply Z.mod_divide in Hm; [|lia]. destruct Hm as [c Hc].
          assert (0 < c) by (apply (Z.mul_pos_cancel_r c diff); lia). nia. }
        destruct (decide (i0 + diff <= x < n ∧ _)) as [Hd|Hd].
        -- rewrite !decide_True by by apply Hiff. done.
        -- rewrite !decide_False by (intros ?; by apply Hd, Hiff). done.
    + split_and!; [done|done|]. intros x Hx.
      rewrite !decide_False by lia. done.
Qed.

(** A strided loop that starts at the residue of [index] visits the active
    slots of the class of [index]. *)
Lemma stride_class index k g x :
  0 <= k <= g → 0 <= x < 2 ^ g →
  (index mod 2 ^ k <= x < 2 ^ g ∧ (x - index mod 2 ^ k) mod 2 ^ k = 0) ↔
  x mod 2 ^ k = index mod 2 ^ k.
Proof.
  intros Hk Hx. pose proof (pow2_pos k).
  pose proof (Z.mod_pos_bound index (2 ^ k)). pose proof (Z.mod_pos_bound x (2 ^ k)).
  split.
  - intros [Hr Hm]. apply Z.mod_divide in Hm; [|lia]. destruct Hm as [c Hc].
    replace x with (index mod 2 ^ k + c * 2 ^ k) by lia.
    rewrite Z_mod_plus_full. apply Z.mod_mod. lia.
  - intros He. split.
    + pose proof (Z.mod_le x (2 ^ k)). lia.
    + rewrite <- He. rewrite Zminus_mod, Z.mod_mod, Z.sub_diag by lia.
      apply Z.mod_0_l. lia.
Qed.

Lemma for_stride_frame (f : Z → ExtendibleHashTable → ExtendibleHashTable)
    (h : Z → HashTableDirectoryPage → HashTableDirectoryPage) n diff :
  (∀ i t, dir_page (f i t) = h i (dir_page t) ∧ same_frame t (f i t)) →
  ∀ fuel i t,
    dir_page (for_stride fuel i n diff f t) = for_stride fuel i n diff h (dir_page t) ∧
    same_frame t (for_stride fuel i n diff f t).
Proof.
  intros Hf. induction fuel as [|fuel IH]; intros i t; simpl; [done|].
  destruct (i <? n); [|done].
  destruct (IH (i + diff) (f i t)) as [-> (H1 & H2 & H3)].
  destruct (Hf i t) as [-> (H4 & H5 & H6)]. split; [done|].
  unfold same_frame. split_and!; congruence.
Qed.

(** The events of the first [m] rounds of the mirroring loop of a directory
    doubling, for a lower half of [n] slots read from [d]. *)
Definition mirror_events (d : HashTableDirectoryPage) (n m : Z) : list event :=
  flat_map (λ i, [EvSetBucketPageId (i + n) (GetBucketPageId d i);
                  EvSetLocalDepth (i + n) (GetLocalDepth d i)]) (seqZ 0 m).

Lemma mirror_prefix t n : ∀ m : nat,
  dir_shape (dir_page t) → 0 <= n → Z.of_nat m <= n →
  2 * n <= DIRECTORY_ARRAY_SIZE MAX_DEPTH →
  let t' := foldl (mirror_body n) t (seqZ 0 (Z.of_nat m)) in
  same_frame t t' ∧ dir_shape (dir_page t') ∧
  global_depth_ (dir_page t') = global_depth_ (dir_page t) ∧
  trace t' = trace t ++ mirror_events (dir_page t) n (Z.of_nat m) ∧
  ∀ x, 0 <= x →
    GetLocalDepth (dir_page t') x =
      (if decide (n <= x < n + Z.of_nat m) then GetLocalDepth (dir_page t) (x - n)
       else GetLocalDepth (dir_page t) x) ∧
    GetBucketPageId (dir_page t') x =
      (if decide (n <= x < n + Z.of_nat m) then GetBucketPageId (dir_page t) (x - n)
       else GetBucketPageId (dir_page t) x).
Proof.
  induction m as [|m IH]; intros Hs Hn Hm Hsz.
  - simpl. unfold mirror_events. simpl. rewrite app_nil_r.
    split_and!; try done. intros x Hx. by rewrite !decide_False by lia.
  - rewrite seqZ_S, Z.add_0_l, foldl_app. simpl.
    destruct IH as ((F1 & F2 & F3) & Hs' & Hg' & Htr & Hx'); [done|lia|lia|done|].
    set (t1 := foldl (mirror_body n) t (seqZ 0 (Z.of_nat m))) in *.
    pose proof Hs' as [Hl1 Hl2].
    assert (0 <= Z.of_nat m + n < DIRECTORY_ARRAY_SIZE MAX_DEPTH) as Hin by lia.
    destruct (Hx' (Z.of_nat m)) as [Hld Hbid]; [lia|].
    rewrite decide_False in Hld, Hbid by lia.
    unfold mirror_body. simpl.
    split_and!.
    + done.
    + by apply dir_shape_SetLocalDepth, dir_shape_SetBucketPageId.
    + done.
    + unfold mirror_events in *. rewrite seqZ_S, Z.add_0_l, flat_map_app. simpl.
      rewrite Htr. rewrite <- !app_assoc. simpl.
      change (GetLocalDepth (SetBucketPageId (dir_page t1) (Z.of_nat m + n)
                (GetBucketPageId (dir_page t1) (Z.of_nat m))) (Z.of_nat m))
        with (GetLocalDepth (dir_page t1) (Z.of_nat m)).
      by rewrite Hld, Hbid.
    + intros x Hx. destruct (Hx' x Hx) as [Hlx Hbx]. split.
      * rewrite GetLocalDepth_Set; [|lia|lia|simpl; lia].
        change (GetLocalDepth (SetBucketPageId (dir_page t1) (Z.of_nat m + n)
                  (GetBucketPageId (dir_page t1) (Z.of_nat m))) ?y)
          with (GetLocalDepth (dir_page t1) y).
        rewrite Hlx, Hld.
        destruct (decide (x = Z.of_nat m + n)) as [->|Hne].
        -- rewrite decide_True by lia. f_equal. lia.
        -- destruct (decide (n <= x < n + Z.of_nat m)).
           ++ by rewrite decide_True by lia.
           ++ by rewrite decide_False by lia.
      * change (GetBucketPageId (SetLocalDepth ?d ?i ?v) x)
          with (GetBucketPageId d x).
        rewrite GetBucketPageId_Set; [|lia|lia|lia].
        rewrite Hbx, Hbid.
        destruct (decide (x = Z.of_nat m + n)) as [->|Hne].
        -- rewrite decide_True by lia. f_equal. lia.
        -- destruct (decide (n <= x < n + Z.of_nat m)).
           ++ by rewrite decide_True by lia.
           ++ by rewrite decide_False by lia.
Qed.

Hypothesis max_depth_nonneg : 0 <= MAX_DEPTH.

(** Well-formed tables: a well-formed directory whose active slots designate
    bucket pages of the pool, and page ids below the pool's next fresh id. *)
Definition table_wf (t : ExtendibleHashTable) : Prop :=
  dir_wf (dir_page t) ∧
  (∀ i, 0 <= i < Size (dir_page t) →
        is_Some (bucket_pages t !! GetBucketPageId (dir_page t) i)) ∧
  (∀ p, is_Some (bucket_pages t !! p) → p < next_page_id_ t) ∧
  directory_page_id_ t < next_page_id_ t ∧
  bucket_pages t !! directory_page_id_ t = None.

Lemma dir_wf_bounds d :
  dir_wf d →
  0 <= GetGlobalDepth d <= MAX_DEPTH ∧ Size d = 2 ^ GetGlobalDepth d ∧
  0 < Size d <= DIRECTORY_ARRAY_SIZE MAX_DEPTH.
Proof.
  intros (_ & Hm & Hg & _). unfold Size, DIRECTORY_ARRAY_SIZE, GetGlobalDepth in *.
  rewrite !shiftl1 by lia.
  pose proof (pow2_pos (global_depth_ d) Hg).
  pose proof (pow2_le (global_depth_ d) MAX_DEPTH). lia.
Qed.

Lemma mod_upper x n : 0 < n → n <= x < 2 * n → x mod n = x - n.
Proof. intros Hn Hx. symmetry. apply Z.mod_unique with 1; lia. Qed.

Lemma split_directory_spec t index p :
  dir_wf (dir_page t) → 0 <= index < Size (dir_page t) →
  (∀ i, 0 <= i < Size (dir_page t) → GetBucketPageId (dir_page t) i ≠ p) →
  let d := dir_page t in
  let k := GetLocalDepth d index in
  let image := Z.lxor index (Z.shiftl 1 k) in
  let t1 := w_IncrLocalDepth index t in
  let r := split_directory MAX_DEPTH index image p
             (GetLocalDepth (dir_page t1) index)
             (GetLocalDepthMask (dir_page t1) index)
             (Z.shiftl 1 (GetGlobalDepth (dir_page t1))) t1 in
  (k = GetGlobalDepth d ∧ GetGlobalDepth d = MAX_DEPTH ∧ r = DirectoryOverflow) ∨
  (∃ t', r = Done t' ∧ same_frame t t' ∧ dir_wf (dir_page t') ∧
         0 <= image < Size (dir_page t') ∧
         Size d <= Size (dir_page t') ∧
         GetBucketPageId (dir_page t') index = GetBucketPageId d index ∧
         GetBucketPageId (dir_page t') image = p ∧
         GetLocalDepth (dir_page t') index = k + 1 ∧
         GetLocalDepth (dir_page t') image = k + 1 ∧
         (∀ x, 0 <= x < Size (dir_page t') →
               GetBucketPageId (dir_page t') x = p ∨
               ∃ y, 0 <= y < Size d ∧
                    GetBucketPageId (dir_page t') x = GetBucketPageId d y)).
Proof.
  intros Hwf Hidx Hfresh. cbv zeta.
  set (d := dir_page t) in *. set (k := GetLocalDepth d index).
  set (image := Z.lxor index (Z.shiftl 1 k)).
  set (t1 := w_IncrLocalDepth index t).
  set (r := split_directory _ _ _ _ _ _ _ _).
  pose proof (dir_wf_bounds _ Hwf) as (Hg & HS & HSz).
  pose proof Hwf as (Hshape & _ & Hview). pose proof Hshape as [Hl1 Hl2].
  pose proof Hview as (_ & Hb & Hc & Hu).
  set (g := GetGlobalDepth d) in *. rewrite HS in Hidx, Hfresh, HSz.
  assert (0 <= k <= g) as Hk by (apply Hb; lia).
  assert (image = Z.lxor index (2 ^ k)) as Himage
    by (unfold image; by rewrite shiftl1 by lia).
  (* the directory after IncrLocalDepth *)
  assert (dir_page t1 = SetLocalDepth d index (k + 1)) as Hd1 by done.
  assert (dir_shape (dir_page t1)) as Hs1 by (rewrite Hd1; by apply dir_shape_SetLocalDepth).
  assert (∀ x, 0 <= x → GetLocalDepth (dir_page t1) x =
                        if decide (x = index) then k + 1 else GetLocalDepth d x) as Hld1.
  { intros x Hx. rewrite Hd1. apply GetLocalDepth_Set; lia. }
  assert (∀ x, GetBucketPageId (dir_page t1) x = GetBucketPageId d x) as Hbid1 by done.
  assert (GetGlobalDepth (dir_page t1) = g) as Hg1 by done.
  assert (global_depth_ (dir_page t1) = g) as Hg1' by done.
  assert (same_frame t t1) as Hf1 by done.
  unfold r, split_directory. rewrite Hg1, (Hld1 index), decide_True by lia.
  unfold GetLocalDepthMask. rewrite (Hld1 index), decide_True by lia.
  clearbody t1. clear r.
  destruct (Z.ltb_spec g (k + 1)) as [Hdouble|Hnodouble].
  - (* doubling *)
    assert (k = g) as Hkg by lia.
    destruct (Z.leb_spec MAX_DEPTH g) as [Hov|Hroom]; [left; split_and!; [done|lia|done]|].
    right.
    assert (2 ^ (g + 1) = 2 * 2 ^ g) as Hpow by (rewrite pow2_succ by lia; lia).
    assert (2 * 2 ^ g <= DIRECTORY_ARRAY_SIZE MAX_DEPTH) as Hfit.
    { unfold DIRECTORY_ARRAY_SIZE. rewrite shiftl1, <- Hpow by lia. apply pow2_le. lia. }
    rewrite shiftl1 by lia.
    destruct (mirror_prefix t1 (2 ^ g) (Z.to_nat (2 ^ g)))
      as ((F1 & F2 & F3) & Hs2 & Hg2 & _ & Hx2); [done|lia|lia|lia|].
    rewrite (Z2Nat.id (2 ^ g)) in F1, F2, F3, Hs2, Hg2, Hx2 by lia.
    set (t2 := foldl (mirror_body (2 ^ g)) t1 (seqZ 0 (2 ^ g))) in *.
    eexists. split; [done|].
    assert (image = index + 2 ^ g) as Him2
      by (rewrite Himage, Hkg; apply image_mirror; lia).
    pose proof Hs2 as [Hl3 Hl4].
    assert (∀ x, 0 <= x < 2 ^ (g + 1) →
              GetLocalDepth (dir_page (w_SetBucketPageId image p (w_IncrGlobalDepth t2))) x =
                (if decide (x mod 2 ^ g = index) then k + 1
                 else GetLocalDepth d (x mod 2 ^ g)) ∧
              GetBucketPageId (dir_page (w_SetBucketPageId image p (w_IncrGlobalDepth t2))) x =
                (if decide (x = image) then p
                 else GetBucketPageId d (x mod 2 ^ g))) as Hpt.
    { intros x Hx. simpl.
      change (GetLocalDepth (SetBucketPageId ?dd ?i ?v) x) with (GetLocalDepth dd x).
      change (GetLocalDepth (IncrGlobalDepth ?dd) x) with (GetLocalDepth dd x).
      rewrite GetBucketPageId_Set; [|lia|lia|simpl; lia].
      change (GetBucketPageId (IncrGlobalDepth ?dd) x) with (GetBucketPageId dd x).
      destruct (Hx2 x) as [-> ->]; [lia|].
      destruct (decide (2 ^ g <= x < 2 ^ g + 2 ^ g)) as [Hup|Hlow].
      - rewrite (mod_upper x (2 ^ g)) by lia. rewrite Hld1, Hbid1 by lia. done.
      - rewrite (Z.mod_small x (2 ^ g)) by lia. rewrite Hld1, Hbid1 by lia. done. }
    assert (wf_view (g + 1)
              (GetLocalDepth (dir_page (w_SetBucketPageId image p (w_IncrGlobalDepth t2))))
              (GetBucketPageId (dir_page (w_SetBucketPageId image p (w_IncrGlobalDepth t2)))))
      as Hview'.
    { apply (wf_split (g + 1) (λ x, GetLocalDepth d (x mod 2 ^ g))
                              (λ x, GetBucketPageId d (x mod 2 ^ g)) index p).
      - by apply (wf_double g (GetLocalDepth d) (GetBucketPageId d)).
      - lia.
      - cbv beta. rewrite Z.mod_small by lia. fold k. lia.
      - intros i Hi. cbv beta. apply Hfresh. apply Z.mod_pos_bound. lia.
      - intros x Hx. cbv beta. rewrite (Z.mod_small index (2 ^ g)) by lia. fold k.
        destruct (Hpt x Hx) as [-> ->].
        pose proof Himage as Himage'. rewrite Hkg in Himage' |- *.
        rewrite (Z.mod_small index (2 ^ g)) by lia.
        rewrite (Z.mod_small x (2 ^ (g + 1))) by lia.
        rewrite <- Himage'.
        rewrite (Z.mod_small image (2 ^ (g + 1))) by lia. done. }
    assert (Size (dir_page (w_SetBucketPageId image p (w_IncrGlobalDepth t2))) = 2 ^ (g + 1))
      as HS'.
    { unfold Size. simpl. rewrite Hg2, Hg1'. rewrite shiftl1 by lia. done. }
    rewrite HS', HS. split_and!.
    + destruct Hf1 as (E1 & E2 & E3). unfold same_frame. simpl.
      split_and!; congruence.
    + split; [|split].
      * by apply dir_shape_SetBucketPageId.
      * unfold GetGlobalDepth. simpl. rewrite Hg2, Hg1'. lia.
      * unfold GetGlobalDepth at 1. simpl. rewrite Hg2, Hg1'. done.
    + lia.
    + lia.
    + lia.
    + destruct (Hpt index) as [_ ->]; [lia|]. rewrite decide_False by lia.
      by rewrite Z.mod_small by lia.
    + destruct (Hpt image) as [_ ->]; [lia|]. by rewrite decide_True.
    + destruct (Hpt index) as [-> _]; [lia|].
      by rewrite decide_True by (apply Z.mod_small; lia).
    + destruct (Hpt image) as [-> _]; [lia|].
      rewrite decide_True; [done|]. rewrite Him2. rewrite mod_upper; lia.
    + intros x Hx. destruct (Hpt x Hx) as [_ ->].
      destruct (decide (x = image)); [by left|]. right.
      exists (x mod 2 ^ g). split; [|done]. apply Z.mod_pos_bound. lia.
  - (* no doubling *)
    right. rewrite !land_mask by lia. rewrite !shiftl1 by lia.
    assert (0 < 2 ^ (k + 1)) as Hpos by (apply pow2_pos; lia).
    assert (2 ^ g <= DIRECTORY_ARRAY_SIZE MAX_DEPTH) as Hfit by lia.
    destruct (for_stride_frame (λ i t, w_SetLocalDepth i (k + 1) t)
                (slot_update (k + 1) None) (2 ^ g) (2 ^ (k + 1))
                ltac:(done) (Z.to_nat (2 ^ g)) (index mod 2 ^ (k + 1)) t1)
      as [Hdp1 (G1 & G2 & G3)].
    set (t2 := for_stride (Z.to_nat (2 ^ g)) (index mod 2 ^ (k + 1)) (2 ^ g)
                 (2 ^ (k + 1)) (λ i t, w_SetLocalDepth i (k + 1) t) t1) in *.
    destruct (for_stride_frame (λ i t, w_SetBucketPageId i p (w_SetLocalDepth i (k + 1) t))
                (slot_update (k + 1) (Some p)) (2 ^ g) (2 ^ (k + 1))
                ltac:(done) (Z.to_nat (2 ^ g)) (image mod 2 ^ (k + 1)) t2)
      as [Hdp2 (G4 & G5 & G6)].
    set (t3 := for_stride (Z.to_nat (2 ^ g)) (image mod 2 ^ (k + 1)) (2 ^ g)
                 (2 ^ (k + 1)) (λ i t, w_SetBucketPageId i p (w_SetLocalDepth i (k + 1) t))
                 t2) in *.
    pose proof (Z.mod_pos_bound index (2 ^ (k + 1)) Hpos) as Hr1.
    pose proof (Z.mod_pos_bound image (2 ^ (k + 1)) Hpos) as Hr2.
    destruct (for_stride_dir (k + 1) None (2 ^ g) (2 ^ (k + 1)) (Z.to_nat (2 ^ g))
                (index mod 2 ^ (k + 1)) (dir_page t1))
      as (Hs2 & Hg2 & Hx2); [lia|lia|lia|done|lia|].
    rewrite <- Hdp1 in Hs2, Hg2, Hx2.
    destruct (for_stride_dir (k + 1) (Some p) (2 ^ g) (2 ^ (k + 1)) (Z.to_nat (2 ^ g))
                (image mod 2 ^ (k + 1)) (dir_page t2))
      as (Hs3 & Hg3 & Hx3); [lia|lia|lia|done|lia|].
    rewrite <- Hdp2 in Hs3, Hg3, Hx3.
    assert (∀ x, 0 <= x < 2 ^ g →
              GetLocalDepth (dir_page t3) x =
                (if decide (x mod 2 ^ k = index mod 2 ^ k) then k + 1
                 else GetLocalDepth d x) ∧
              GetBucketPageId (dir_page t3) x =
                (if decide (x mod 2 ^ (k + 1) = image mod 2 ^ (k + 1)) then p
                 else GetBucketPageId d x)) as Hpt.
    { intros x Hx. destruct (Hx3 x) as [-> ->]; [lia|].
      destruct (Hx2 x) as [-> ->]; [lia|]. simpl.
      rewrite Hld1, Hbid1 by lia.
      pose proof (stride_class index (k + 1) g x ltac:(lia) Hx) as Sc1.
      pose proof (stride_class image (k + 1) g x ltac:(lia) Hx) as Sc2.
      pose proof (class_split index x k ltac:(lia)) as Cs.
      pose proof (image_low index k) as Il. rewrite <- Himage in Il, Cs.
      assert (x mod 2 ^ (k + 1) = index mod 2 ^ (k + 1) → x mod 2 ^ k = index mod 2 ^ k)
        as Co1 by (apply class_coarsen; lia).
      assert (x mod 2 ^ (k + 1) = image mod 2 ^ (k + 1) → x mod 2 ^ k = index mod 2 ^ k)
        as Co2 by (intros ?; rewrite <- Il by lia; apply (class_coarsen _ _ k (k + 1)); [lia|done]).
      repeat case_decide; try done; try (exfalso; subst; tauto). }
    assert (wf_view g (GetLocalDepth (dir_page t3)) (GetBucketPageId (dir_page t3))) as Hview'.
    { apply (wf_split g (GetLocalDepth d) (GetBucketPageId d) index p);
        [done|lia|fold k; lia|done|].
      fold k. rewrite <- Himage. done. }
    assert (Size (dir_page t3) = 2 ^ g) as HS'.
    { unfold Size. rewrite Hg3, Hg2, Hg1'. by rewrite shiftl1 by lia. }
    assert (0 <= image < 2 ^ g) as Himb
      by (rewrite Himage; apply lxor_pow2_bound; lia).
    exists t3. rewrite HS', HS. split_and!.
    + done.
    + destruct Hf1 as (E1 & E2 & E3). unfold same_frame. split_and!; congruence.
    + split; [done|]. split; [|unfold GetGlobalDepth at 1; rewrite Hg3, Hg2, Hg1'; exact Hview'].
      unfold GetGlobalDepth. rewrite Hg3, Hg2, Hg1'. lia.
    + lia.
    + lia.
    + lia.
    + destruct (Hpt index) as [_ ->]; [lia|]. rewrite decide_False; [done|].
      rewrite Himage. intros He. symmetry in He. by apply image_high in He; [|lia].
    + destruct (Hpt image) as [_ ->]; [lia|]. by rewrite decide_True.
    + destruct (Hpt index) as [-> _]; [lia|]. by rewrite decide_True.
    + destruct (Hpt image) as [-> _]; [lia|]. rewrite decide_True; [done|].
      rewrite Himage. apply image_low. lia.
    + intros x Hx. destruct (Hpt x Hx) as [_ ->].
      destruct (decide _); [by left|]. right. exists x. done.
Qed.

Variable BUCKET_ARRAY_SIZE : Z.
Variable hash_fn : KeyType → Z.

Local Abbreviation split_step := (split_step MAX_DEPTH BUCKET_ARRAY_SIZE hash_fn).
Local Abbreviation split_loop := (split_loop MAX_DEPTH BUCKET_ARRAY_SIZE hash_fn).
Local Abbreviation SplitInsert := (SplitInsert MAX_DEPTH BUCKET_ARRAY_SIZE hash_fn).
Local Abbreviation Insert := (Insert MAX_DEPTH BUCKET_ARRAY_SIZE hash_fn).
Local Abbreviation Hash := (Hash hash_fn).

(** [table_wf] looks at the directory, at which page ids designate bucket
    pages, and at the two page-id fields only. *)
Lemma table_wf_frame t t' :
  table_wf t → dir_page t' = dir_page t →
  (∀ p, is_Some (bucket_pages t' !! p) ↔ is_Some (bucket_pages t !! p)) →
  next_page_id_ t' = next_page_id_ t → directory_page_id_ t' = directory_page_id_ t →
  table_wf t'.
Proof.
  intros (Hd & He & Hn & Hdn & Hdd) E1 E2 E3 E4. unfold table_wf.
  rewrite E1, E3, E4. split_and!; [done| | |done|].
  - intros i Hi. apply E2. by apply He.
  - intros p Hp. apply Hn. by apply E2.
  - apply eq_None_not_Some. rewrite E2. by rewrite Hdd.
Qed.

Lemma table_wf_emit e t : table_wf t → table_wf (emit e t).
Proof. intros H. by apply (table_wf_frame t). Qed.

Lemma table_wf_set_bucket p b t :
  table_wf t → is_Some (bucket_pages t !! p) → table_wf (set_bucket p b t).
Proof.
  intros H Hp. apply (table_wf_frame t); try done. intros q. simpl.
  destruct (decide (p = q)) as [->|Hne].
  - rewrite lookup_insert_eq. split; [done|eauto].
  - by rewrite lookup_insert_ne.
Qed.

Lemma key_index_bound key d :
  dir_wf d → 0 <= Z.land (Hash key) (GetGlobalDepthMask d) < Size d.
Proof.
  intros Hwf. destruct (dir_wf_bounds d Hwf) as (Hg & HS & _).
  unfold GetGlobalDepthMask. rewrite land_mask, HS by (unfold GetGlobalDepth in Hg; lia).
  apply Z.mod_pos_bound. apply pow2_pos. lia.
Qed.

Lemma split_step_wf key index bucket_page_id bucket_page t :
  table_wf t → 0 <= index < Size (dir_page t) →
  GetBucketPageId (dir_page t) index = bucket_page_id →
  match split_step key index bucket_page_id bucket_page t with
  | Done (index', bucket_page_id', t') =>
      table_wf t' ∧ 0 <= index' < Size (dir_page t') ∧
      GetBucketPageId (dir_page t') index' = bucket_page_id' ∧
      directory_page_id_ t' = directory_page_id_ t ∧
      GetLocalDepth (dir_page t') index' = GetLocalDepth (dir_page t) index + 1
  | DirectoryOverflow => GetLocalDepth (dir_page t) index = MAX_DEPTH
  | _ => False
  end.
Proof.
  intros (Hd & He & Hn & Hdn & Hdd) Hidx Hbid.
  unfold split_step, HT.split_step, NewPage.
  set (p := next_page_id_ t).
  set (t0 := emit (EvNewPage p) _).
  assert (dir_page t0 = dir_page t) as Hd0 by done.
  assert (∀ i, 0 <= i < Size (dir_page t0) → GetBucketPageId (dir_page t0) i ≠ p) as Hfresh.
  { intros i Hi Heq. change (dir_page t0) with (dir_page t) in Hi, Heq.
    apply He in Hi. rewrite Heq in Hi. apply Hn in Hi. unfold p in Hi. lia. }
  pose proof (split_directory_spec t0 index p) as Hspec.
  rewrite Hd0 in Hspec, Hfresh. cbv zeta in Hspec. rewrite Hd0.
  destruct Hspec as [(Hk & Hg & ->)|(t' & -> & (F1 & F2 & F3) & Hwf' & Him & Hsz & Hb1 & Hb2 & Hl1 & Hl2 & Hold)];
    [done|done|done|congruence|].
  destruct (rehash _ _ _ _ _ _ _) as [bp ip].
  set (t2 := set_bucket p ip (set_bucket bucket_page_id bp t')).
  assert (dir_page t2 = dir_page t') as Hd2 by done.
  assert (is_Some (bucket_pages t !! bucket_page_id)) as Hbp
    by (rewrite <- Hbid; by apply He).
  assert (∀ q, is_Some (bucket_pages t2 !! q) ↔ q = p ∨ is_Some (bucket_pages t !! q))
    as Hdom.
  { intros q. simpl. rewrite F2. simpl. rewrite !lookup_insert_is_Some'.
    split; [intros [?|[<-|[?|?]]]; auto|intros [->|?]; auto]. }
  assert (table_wf t2) as Hwf2.
  { unfold table_wf. rewrite Hd2.
    change (next_page_id_ t2) with (next_page_id_ t').
    change (directory_page_id_ t2) with (directory_page_id_ t').
    rewrite F1, F3. simpl. split_and!.
    - done.
    - intros x Hx. apply Hdom. destruct (Hold x Hx) as [->|(y & Hy & ->)]; [by left|].
      right. by apply He.
    - intros q [->|Hq]%Hdom; [lia|]. apply Hn in Hq. lia.
    - fold p. lia.
    - apply eq_None_not_Some. intros [Hq|Hq]%Hdom.
      + fold p in Hq. lia.
      + rewrite Hdd in Hq. by destruct Hq. }
  change (dir_page t2) with (dir_page t') in *.
  change (directory_page_id_ t0) with (directory_page_id_ t) in F1.
  destruct (_ =? bucket_page_id);
    (split_and!; [by apply table_wf_emit|simpl; lia|simpl; lia|
                  simpl; congruence|simpl; congruence|simpl; congruence]).
Qed.

Lemma split_loop_wf key : ∀ fuel index bucket_page_id is_dir_dirty t,
  table_wf t → 0 <= index < Size (dir_page t) →
  GetBucketPageId (dir_page t) index = bucket_page_id →
  MAX_DEPTH - GetLocalDepth (dir_page t) index < Z.of_nat fuel →
  match split_loop fuel key index bucket_page_id is_dir_dirty t with
  | Done (bucket_page_id', _, t') =>
      table_wf t' ∧ is_Some (bucket_pages t' !! bucket_page_id') ∧
      directory_page_id_ t' = directory_page_id_ t
  | DirectoryOverflow => True
  | _ => False
  end.
Proof.
  induction fuel as [|fuel IH]; intros index bpid dirty t Hwf Hidx Hbid Hfuel.
  - exfalso. destruct Hwf as (Hd & _). pose proof (dir_wf_bounds _ Hd) as (Hg & HS & _).
    destruct Hd as (_ & _ & _ & Hb & _). rewrite HS in Hidx.
    specialize (Hb index Hidx). lia.
  - cbn [HT.split_loop]. pose proof Hwf as (Hd & He & _).
    destruct (He index Hidx) as [b Hb]. rewrite Hbid in Hb. rewrite Hb.
    destruct (IsFull BUCKET_ARRAY_SIZE b); [|by eauto].
    pose proof (split_step_wf key index bpid b t Hwf Hidx Hbid) as Hstep.
    destruct (HT.split_step _ _ _ _ _ _ _ _) as [[[index' bpid'] t']| | |]; try done.
    destruct Hstep as (Hwf' & Hidx' & Hbid' & Hdir' & Hld').
    specialize (IH index' bpid' true t' Hwf' Hidx' Hbid').
    destruct (HT.split_loop _ _ _ _ _ _ _ _ _) as [[[bpid'' dirty''] t'']| | |];
      try done; try (apply IH; lia).
    destruct IH as (? & ? & ?); [lia|]. split_and!; [done|done|congruence].
Qed.

Lemma SplitInsert_wf key value t :
  table_wf t →
  match SplitInsert key value t with
  | Done (_, t') => table_wf t' ∧ directory_page_id_ t' = directory_page_id_ t
  | DirectoryOverflow => True
  | _ => False
  end.
Proof.
  intros Hwf. unfold SplitInsert, HT.SplitInsert.
  set (t0 := emit _ t). assert (table_wf t0) as Hwf0 by by apply table_wf_emit.
  change (dir_page t0) with (dir_page t).
  pose proof Hwf as (Hd & He & _).
  pose proof (key_index_bound key _ Hd) as Hidx.
  set (index := Z.land _ _) in *.
  destruct (He index Hidx) as [b Hb]. change (bucket_pages t0) with (bucket_pages t).
  rewrite Hb. destruct (IsExist _ b key value); simpl.
  - split; [|done]. by do 3 apply table_wf_emit.
  - pose proof (split_loop_wf key (Z.to_nat MAX_DEPTH + 2) index
                  (GetBucketPageId (dir_page t) index) false
                  (emit (EvFetchPage (GetBucketPageId (dir_page t) index)) t0)) as Hloop.
    destruct (HT.split_loop _ _ _ _ _ _ _ _ _) as [[[bpid' dirty'] t']| | |].
    + destruct Hloop as (Hwf' & [b' Hb'] & Hdir'); [by apply table_wf_emit|done|done| |].
      { destruct Hd as (_ & _ & _ & Hbd & _).
        destruct (dir_wf_bounds (dir_page t)) as (_ & HS & _); [apply Hwf|].
        rewrite HS in Hidx. specialize (Hbd index Hidx).
        change (dir_page (emit _ t0)) with (dir_page t). lia. }
      rewrite Hb'. destruct (MyInsert _ b' key value) as [is_insert b''].
      split; [|done]. do 2 apply table_wf_emit. apply table_wf_set_bucket; eauto.
    + done.
    + apply Hloop; [by apply table_wf_emit|done|done|].
      destruct Hd as (_ & _ & _ & Hbd & _).
      destruct (dir_wf_bounds (dir_page t)) as (_ & HS & _); [apply Hwf|].
      rewrite HS in Hidx. specialize (Hbd index Hidx).
      change (dir_page (emit _ t0)) with (dir_page t). lia.
    + apply Hloop; [by apply table_wf_emit|done|done|].
      destruct Hd as (_ & _ & _ & Hbd & _).
      destruct (dir_wf_bounds (dir_page t)) as (_ & HS & _); [apply Hwf|].
      rewrite HS in Hidx. specialize (Hbd index Hidx).
      change (dir_page (emit _ t0)) with (dir_page t). lia.
Qed.

Lemma Insert_wf key value t :
  table_wf t →
  match Insert key value t with
  | Done (_, t') => table_wf t' ∧ directory_page_id_ t' = directory_page_id_ t
  | DirectoryOverflow => True
  | _ => False
  end.
Proof.
  intros Hwf. unfold Insert, HT.Insert.
  set (t0 := emit _ t). assert (table_wf t0) as Hwf0 by by apply table_wf_emit.
  change (dir_page t0) with (dir_page t).
  pose proof Hwf as (Hd & He & _).
  pose proof (key_index_bound key _ Hd) as Hidx.
  set (index := Z.land _ _) in *.
  destruct (He index Hidx) as [b Hb]. change (bucket_pages t0) with (bucket_pages t).
  rewrite Hb. destruct (IsExist _ b key value); simpl.
  - split; [|done]. by do 3 apply table_wf_emit.
  - destruct (MyInsert _ b key value) as [[|] b']; simpl.
    + split; [|done]. apply table_wf_emit, table_wf_set_bucket; [|simpl; eauto].
      by do 2 apply table_wf_emit.
    + pose proof (SplitInsert_wf key value
                    (emit (EvUnpinPage (GetBucketPageId (dir_page t) index) false)
                       (emit (EvUnpinPage (directory_page_id_ t0) false)
                          (emit (EvFetchPage (GetBucketPageId (dir_page t) index)) t0))))
        as Hs.
      destruct (HT.SplitInsert _ _ _ _ _ _) as [[r t']| | |]; try done;
        apply Hs; by do 3 apply table_wf_emit.
Qed.

(** *** Merging *)

Lemma CanShrink_spec d :
  dir_wf d →
  dir_wf (CanShrink d) ∧
  local_depths_ (CanShrink d) = local_depths_ d ∧
  bucket_page_ids_ (CanShrink d) = bucket_page_ids_ d ∧
  (global_depth_ (CanShrink d) = global_depth_ d ∨
   global_depth_ (CanShrink d) = global_depth_ d - 1 ∧
   ∀ i, 0 <= i < 2 ^ global_depth_ d → GetLocalDepth d i < global_depth_ d).
Proof.
  intros Hwf. pose proof (dir_wf_bounds d Hwf) as (Hg & HS & _).
  unfold CanShrink. destruct (forallb _ _) eqn:Hall; [|by auto].
  assert (∀ i, 0 <= i < 2 ^ global_depth_ d → GetLocalDepth d i < global_depth_ d) as Hlt.
  { intros i Hi. rewrite forallb_forall in Hall. specialize (Hall i).
    apply Z.ltb_lt, Hall, list_elem_of_In, elem_of_seqZ. rewrite HS.
    unfold GetGlobalDepth. lia. }
  split_and!; [|done|done|right; by split].
  destruct Hwf as (Hs & Hm & Hv). split; [done|]. split.
  - unfold GetGlobalDepth in *. simpl. lia.
  - by apply (wf_shrink (GetGlobalDepth d)).
Qed.

(** The state of the loop of [Merge] before each test of its condition.
    [index] was computed under the mask of the global depth [g0] the
    directory had when [Merge] began; the directory may have shrunk since,
    and the slots that [index] and its images designate may lie above the
    active region, where they still hold what their active counterparts
    hold. *)
Definition merge_inv (g0 index local_depth bucket_page_id : Z)
    (t : ExtendibleHashTable) : Prop :=
  let d := dir_page t in
  table_wf t ∧ GetGlobalDepth d <= g0 <= MAX_DEPTH ∧ 0 <= index < 2 ^ g0 ∧
  GetLocalDepth d (index mod Size d) = local_depth ∧
  GetBucketPageId d (index mod Size d) = bucket_page_id ∧
  ∀ j, 0 <= j < 2 ^ g0 → j mod 2 ^ local_depth ≠ index mod 2 ^ local_depth →
       GetLocalDepth d j = GetLocalDepth d (j mod Size d) ∧
       GetBucketPageId d j = GetBucketPageId d (j mod Size d).

(** The two strided loops of one round of [Merge], on the directory. *)
Lemma merge_loops_spec t index ld q :
  let d := dir_page t in
  let g := GetGlobalDepth d in
  dir_wf d → 0 < ld <= g → 0 <= index →
  let im := Z.lxor index (2 ^ (ld - 1)) in
  (∀ x, 0 <= x < 2 ^ g → x mod 2 ^ ld = im mod 2 ^ ld → GetBucketPageId d x = q) →
  let t1 := for_stride (Z.to_nat (2 ^ g)) (index mod 2 ^ ld) (2 ^ g) (2 ^ ld)
              (λ i t, w_SetBucketPageId i q (w_SetLocalDepth i (ld - 1) t)) t in
  let t2 := for_stride (Z.to_nat (2 ^ g)) (im mod 2 ^ ld) (2 ^ g) (2 ^ ld)
              (λ i t, w_SetLocalDepth i (ld - 1) t) t1 in
  same_frame t t2 ∧ dir_shape (dir_page t2) ∧
  global_depth_ (dir_page t2) = global_depth_ d ∧
  ∀ x, 0 <= x →
    (x < 2 ^ g → x mod 2 ^ (ld - 1) = index mod 2 ^ (ld - 1) →
     GetLocalDepth (dir_page t2) x = ld - 1 ∧ GetBucketPageId (dir_page t2) x = q) ∧
    (¬ (x < 2 ^ g ∧ x mod 2 ^ (ld - 1) = index mod 2 ^ (ld - 1)) →
     GetLocalDepth (dir_page t2) x = GetLocalDepth d x ∧
     GetBucketPageId (dir_page t2) x = GetBucketPageId d x).
Proof.
  intros d g Hwf Hld Hidx im Hq t1 t2.
  pose proof (dir_wf_bounds _ Hwf) as (Hg & HS & HSz). fold d g in Hg, HS, HSz.
  rewrite HS in HSz. pose proof Hwf as (Hshape & _).
  assert (0 < 2 ^ ld) as Hpos by (apply pow2_pos; lia).
  pose proof (Z.mod_pos_bound index (2 ^ ld) Hpos) as Hr1.
  pose proof (Z.mod_pos_bound im (2 ^ ld) Hpos) as Hr2.
  destruct (for_stride_frame (λ i t, w_SetBucketPageId i q (w_SetLocalDepth i (ld - 1) t))
              (slot_update (ld - 1) (Some q)) (2 ^ g) (2 ^ ld)
              ltac:(done) (Z.to_nat (2 ^ g)) (index mod 2 ^ ld) t)
    as [Hdp1 (G1 & G2 & G3)]. fold t1 in Hdp1, G1, G2, G3.
  destruct (for_stride_frame (λ i t, w_SetLocalDepth i (ld - 1) t)
              (slot_update (ld - 1) None) (2 ^ g) (2 ^ ld)
              ltac:(done) (Z.to_nat (2 ^ g)) (im mod 2 ^ ld) t1)
    as [Hdp2 (G4 & G5 & G6)]. fold t2 in Hdp2, G4, G5, G6.
  destruct (for_stride_dir (ld - 1) (Some q) (2 ^ g) (2 ^ ld) (Z.to_nat (2 ^ g))
              (index mod 2 ^ ld) (dir_page t))
    as (Hs1 & Hg1 & Hx1); [lia|lia|lia|done|lia|].
  rewrite <- Hdp1 in Hs1, Hg1, Hx1.
  destruct (for_stride_dir (ld - 1) None (2 ^ g) (2 ^ ld) (Z.to_nat (2 ^ g))
              (im mod 2 ^ ld) (dir_page t1))
    as (Hs2 & Hg2 & Hx2); [lia|lia|lia|done|lia|].
  rewrite <- Hdp2 in Hs2, Hg2, Hx2.
  split_and!.
  - unfold same_frame. split_and!; congruence.
  - done.
  - by rewrite Hg2, Hg1.
  - intros x Hx. destruct (Hx2 x Hx) as [-> ->], (Hx1 x Hx) as [-> ->]. simpl.
    fold d.
    pose proof (class_split index x (ld - 1)) as Cs.
    pose proof (image_low index (ld - 1)) as Il.
    replace (ld - 1 + 1) with ld in Cs by lia. fold im in Cs, Il.
    assert (x mod 2 ^ ld = index mod 2 ^ ld → x mod 2 ^ (ld - 1) = index mod 2 ^ (ld - 1))
      as Co1 by (apply class_coarsen; lia).
    assert (x mod 2 ^ ld = im mod 2 ^ ld → x mod 2 ^ (ld - 1) = index mod 2 ^ (ld - 1))
      as Co2 by (intros ?; rewrite <- Il by lia; apply (class_coarsen _ _ (ld - 1) ld); [lia|done]).
    destruct (decide (im mod 2 ^ ld <= x < 2 ^ g ∧ (x - im mod 2 ^ ld) mod 2 ^ ld = 0))
      as [c2|c2];
      destruct (decide (index mod 2 ^ ld <= x < 2 ^ g ∧
                        (x - index mod 2 ^ ld) mod 2 ^ ld = 0)) as [c1|c1]; simpl.
    + split; [done|]. intros Hn. exfalso. apply Hn. split; [lia|].
      apply Co1, (stride_class index ld g x); [lia|lia|done].
    + assert (x mod 2 ^ ld = im mod 2 ^ ld) as E2
        by (apply (stride_class im ld g x); [lia|lia|done]).
      split.
      * intros _ _. split; [done|]. apply Hq; [lia|done].
      * intros Hn. exfalso. apply Hn. split; [lia|]. by apply Co2.
    + split; [done|]. intros Hn. exfalso. apply Hn. split; [lia|].
      apply Co1, (stride_class index ld g x); [lia|lia|done].
    + split; [|done]. intros Hlt Hc. exfalso.
      destruct Cs as [E|E]; [lia|done|..].
      * apply c1, (stride_class index ld g x); [lia|lia|done].
      * apply c2, (stride_class im ld g x); [lia|lia|done].
Qed.

Lemma merge_step_inv g0 index ld bucket_page_id t :
  merge_inv g0 index ld bucket_page_id t → 0 < ld →
  GetLocalDepth (dir_page t) (merge_image index ld) = ld →
  ∃ t', merge_step index bucket_page_id ld (merge_image index ld) t =
          (GetBucketPageId (dir_page t) (merge_image index ld), ld - 1,
           merge_image index (ld - 1), t') ∧
        merge_inv g0 index (ld - 1)
                  (GetBucketPageId (dir_page t) (merge_image index ld)) t' ∧
        directory_page_id_ t' = directory_page_id_ t.
Proof.
  intros (Hwf & Hg0 & Hidx & Hld & Hbid & Halias) Hpos Him.
  pose proof Hwf as (Hd & He & Hn & Hdn & Hdd).
  pose proof (dir_wf_bounds _ Hd) as (Hg & HS & HSz).
  pose proof Hd as (Hshape & _ & Hview). pose proof Hview as (_ & Hb & Hc & Hu).
  set (d := dir_page t) in *. set (g := GetGlobalDepth d) in *.
  rewrite HS in *.
  assert (0 < 2 ^ g) as Hpg by lia.
  pose proof (Z.mod_pos_bound index (2 ^ g) Hpg) as Ha.
  set (a := index mod 2 ^ g) in *.
  assert (ld <= g) as Hldg by (specialize (Hb a Ha); lia).
  set (im := merge_image index ld) in *.
  assert (im = Z.lxor index (2 ^ (ld - 1))) as Eim.
  { unfold im, merge_image. destruct (Z.ltb_spec 0 ld); [|lia]. by rewrite shiftl1 by lia. }
  assert (0 <= im < 2 ^ g0) as Himb by (rewrite Eim; apply lxor_pow2_bound; lia).
  assert (im mod 2 ^ ld ≠ index mod 2 ^ ld) as Himne.
  { rewrite Eim. pose proof (image_high index (ld - 1)) as Hh.
    replace (ld - 1 + 1) with ld in Hh by lia. apply Hh. lia. }
  destruct (Halias im Himb Himne) as [Ha1 Ha2].
  pose proof (Z.mod_pos_bound im (2 ^ g) Hpg) as Ha'.
  set (a' := im mod 2 ^ g) in *.
  set (q := GetBucketPageId d im) in *.
  assert (GetLocalDepth d a' = ld) as Hlda' by congruence.
  assert (a' mod 2 ^ ld = im mod 2 ^ ld) as Ea' by (apply mod_pow2_alias; lia).
  assert (a mod 2 ^ ld = index mod 2 ^ ld) as Ea by (apply mod_pow2_alias; lia).
  assert (a mod 2 ^ (ld - 1) = index mod 2 ^ (ld - 1)) as Ea1 by (apply mod_pow2_alias; lia).
  assert (∀ x, 0 <= x < 2 ^ g → x mod 2 ^ ld = im mod 2 ^ ld → GetBucketPageId d x = q)
    as Hq.
  { intros x Hx Hxm. rewrite Ha2. apply Hc; [done|done|]. rewrite Hlda'. congruence. }
  (* the loops *)
  unfold merge_step. fold d g im q.
  rewrite !land_mask by lia. rewrite !shiftl1 by lia.
  pose proof (merge_loops_spec t index ld q) as Hloops. cbv zeta in Hloops.
  fold d g in Hloops. rewrite <- Eim in Hloops.
  destruct Hloops as ((F1 & F2 & F3) & Hs2 & Hg2 & Hx2); [done|lia|lia|done|].
  set (t2 := for_stride _ (im mod 2 ^ ld) _ _ _ _) in *.
  assert (wf_view g (GetLocalDepth (dir_page t2)) (GetBucketPageId (dir_page t2))) as Hv2.
  { apply (wf_merge g (GetLocalDepth d) (GetBucketPageId d) a ld a' q);
      try done.
    - rewrite Ea', Eim. symmetry.
      pose proof (image_mod_alias index (ld - 1) g) as Hal.
      replace (ld - 1 + 1) with ld in Hal by lia. apply Hal. lia.
    - intros x Hx. rewrite Ea1. destruct (Hx2 x) as [Hin Hout]; [lia|].
      destruct (decide (x mod 2 ^ (ld - 1) = index mod 2 ^ (ld - 1))) as [E|E].
      + apply Hin; [lia|done].
      + apply Hout. tauto. }
  assert (dir_wf (dir_page t2)) as Hwf2.
  { split; [done|]. unfold GetGlobalDepth. rewrite Hg2. fold (GetGlobalDepth d).
    fold g. split; [lia|done]. }
  destruct (CanShrink_spec (dir_page t2) Hwf2) as (Hwf3 & Hl3 & Hb3 & Hg3).
  set (d3 := CanShrink (dir_page t2)) in *.
  assert (∀ x, GetLocalDepth d3 x = GetLocalDepth (dir_page t2) x) as HL3
    by (intros x; unfold GetLocalDepth; by rewrite Hl3).
  assert (∀ x, GetBucketPageId d3 x = GetBucketPageId (dir_page t2) x) as HB3
    by (intros x; unfold GetBucketPageId; by rewrite Hb3).
  rewrite Hg2 in Hg3. fold (GetGlobalDepth d) in Hg3. fold g in Hg3.
  assert (0 <= GetGlobalDepth d3 <= g ∧ ld - 1 <= GetGlobalDepth d3) as Hg3b.
  { unfold GetGlobalDepth at 1 2 3. destruct Hg3 as [->|[-> Hlt]]; lia. }
  assert (2 ^ GetGlobalDepth d3 <= 2 ^ g) as Hpow3 by (apply pow2_le; lia).
  assert (Size d3 = 2 ^ GetGlobalDepth d3) as HS3 by (unfold Size; by rewrite shiftl1 by lia).
  assert (q ≠ bucket_page_id) as Hqne.
  { intros Heq. rewrite <- Hbid, Ha2 in Heq. apply Hu in Heq; [|done|done].
    rewrite Hlda' in Heq. congruence. }
  eexists. split; [done|]. split; [|simpl; congruence].
  unfold merge_inv. cbn [dir_page emit DeletePage w_CanShrink set_dir].
  fold d3. rewrite HS3.
  split_and!.
  - unfold table_wf. cbn [dir_page bucket_pages next_page_id_ directory_page_id_
                          emit DeletePage w_CanShrink set_dir].
    fold d3. rewrite HS3, F1, F2, F3. split_and!.
    + done.
    + intros x Hx. rewrite HB3. destruct (Hx2 x) as [Hin Hout]; [lia|].
      apply lookup_delete_is_Some.
      destruct (decide (x mod 2 ^ (ld - 1) = index mod 2 ^ (ld - 1))) as [E|E].
      * destruct Hin as [_ ->]; [lia|done|]. split; [done|].
        rewrite Ha2. by apply He.
      * destruct Hout as [_ ->]; [tauto|]. split; [|apply He; lia].
        intros Heq. rewrite <- Hbid in Heq. apply Hu in Heq; [|done|lia].
        rewrite Hld in Heq. apply E. rewrite <- Ea1.
        apply (class_coarsen _ _ (ld - 1) ld); [lia|done].
    + intros p [_ Hp]%lookup_delete_is_Some. by apply Hn.
    + done.
    + by apply lookup_delete_None; right.
  - lia.
  - lia.
  - lia.
  - lia.
  - rewrite HL3.
    pose proof (Z.mod_pos_bound index (2 ^ GetGlobalDepth d3)) as Hb3'.
    destruct (Hx2 (index mod 2 ^ GetGlobalDepth d3)) as [[-> _] _];
      [pose proof (pow2_pos (GetGlobalDepth d3)); lia|
       pose proof (pow2_pos (GetGlobalDepth d3)); lia| |done].
    apply mod_pow2_alias. lia.
  - rewrite HB3.
    destruct (Hx2 (index mod 2 ^ GetGlobalDepth d3)) as [[_ ->] _];
      [pose proof (pow2_pos (GetGlobalDepth d3));
       pose proof (Z.mod_pos_bound index (2 ^ GetGlobalDepth d3)); lia|
       pose proof (pow2_pos (GetGlobalDepth d3));
       pose proof (Z.mod_pos_bound index (2 ^ GetGlobalDepth d3)); lia| |done].
    apply mod_pow2_alias. lia.
  - intros j Hj Hjne. rewrite !HL3, !HB3.
    assert (j mod 2 ^ ld ≠ index mod 2 ^ ld) as Hjne'.
    { intros E. apply Hjne. apply (class_coarsen _ _ (ld - 1) ld); [lia|done]. }
    destruct (Halias j Hj Hjne') as [Hj1 Hj2].
    pose proof (Z.mod_pos_bound j (2 ^ g) Hpg) as Hy.
    set (y := j mod 2 ^ g) in *.
    assert (y mod 2 ^ (ld - 1) = j mod 2 ^ (ld - 1)) as Ey by (apply mod_pow2_alias; lia).
    destruct (Hx2 j) as [_ [-> ->]]; [lia|tauto|].
    destruct (Hx2 y) as [_ [Hy1 Hy2]]; [lia|rewrite Ey; tauto|].
    rewrite Hj1, Hj2, <- Hy1, <- Hy2.
    destruct Hg3 as [E|[E Hlt]].
    + unfold GetGlobalDepth at 1 2. rewrite E. done.
    + unfold GetGlobalDepth at 1 2. rewrite E.
      assert ((j mod 2 ^ (g - 1)) = y mod 2 ^ (g - 1)) as ->
        by (symmetry; apply mod_pow2_alias; lia).
      destruct (wf_upper_mirror g _ _ y Hv2) as [-> ->]; [|done|done].
      intros i Hi. apply Hlt. unfold GetGlobalDepth in g. lia.
Qed.

Local Abbreviation merge_loop := (merge_loop BUCKET_ARRAY_SIZE).
Local Abbreviation Merge := (Merge BUCKET_ARRAY_SIZE hash_fn).
Local Abbreviation Remove := (Remove BUCKET_ARRAY_SIZE hash_fn).

Lemma merge_loop_wf : ∀ fuel g0 index bucket_page_id ld is_merge t,
  merge_inv g0 index ld bucket_page_id t → ld < Z.of_nat fuel →
  match merge_loop fuel index bucket_page_id ld (merge_image index ld) is_merge t with
  | Done (bucket_page_id', _, t') =>
      table_wf t' ∧ directory_page_id_ t' = directory_page_id_ t
  | _ => False
  end.
Proof.
  induction fuel as [|fuel IH]; intros g0 index bpid ld is_merge t Hinv Hfuel.
  - pose proof Hinv as (Hwf & _ & _ & _ & Hbid & _).
    pose proof Hwf as (Hd & He & _).
    pose proof (dir_wf_bounds _ Hd) as (_ & HS & HSz).
    destruct (He (index mod Size (dir_page t))) as [b Hb];
      [apply Z.mod_pos_bound; lia|].
    rewrite Hbid in Hb. simpl. rewrite Hb.
    destruct (Z.ltb_spec 0 ld); [lia|]. simpl. done.
  - pose proof Hinv as (Hwf & _ & _ & _ & Hbid & _).
    pose proof Hwf as (Hd & He & _).
    pose proof (dir_wf_bounds _ Hd) as (_ & HS & HSz).
    destruct (He (index mod Size (dir_page t))) as [b Hb];
      [apply Z.mod_pos_bound; lia|].
    rewrite Hbid in Hb. cbn [HT.merge_loop]. rewrite Hb.
    destruct (Z.ltb_spec 0 ld) as [Hpos|]; [|done]. cbn [andb].
    destruct (Z.eqb_spec (GetLocalDepth (dir_page t) (merge_image index ld)) ld)
      as [Him|]; [|done]. cbn [andb].
    destruct (IsEmpty BUCKET_ARRAY_SIZE b); [|done].
    destruct (merge_step_inv g0 index ld bpid t Hinv Hpos Him) as (t' & -> & Hinv' & Hdir).
    specialize (IH g0 index (GetBucketPageId (dir_page t) (merge_image index ld))
                  (ld - 1) true t' Hinv').
    destruct (HT.merge_loop _ _ _ _ _ _ _ _) as [[[bpid'' m''] t'']| | |];
      try (apply IH; lia).
    destruct IH as [? ?]; [lia|]. split; [done|congruence].
Qed.

Lemma Merge_wf key value t :
  table_wf t →
  match Merge key value t with
  | Done t' => table_wf t' ∧ directory_page_id_ t' = directory_page_id_ t
  | _ => False
  end.
Proof.
  intros Hwf. unfold Merge, HT.Merge.
  set (t0 := emit (EvFetchPage (directory_page_id_ t)) t).
  change (dir_page t0) with (dir_page t).
  pose proof Hwf as (Hd & He & _).
  pose proof (key_index_bound key _ Hd) as Hidx.
  set (index := Z.land _ _) in *.
  pose proof (dir_wf_bounds _ Hd) as (Hg & HS & HSz).
  set (t1 := emit (EvFetchPage _) t0).
  change (dir_page t1) with (dir_page t).
  assert (0 <= GetLocalDepth (dir_page t) index) as Hld0.
  { destruct Hd as (_ & _ & _ & Hb & _). rewrite HS in Hidx. specialize (Hb index Hidx). lia. }
  assert (merge_inv (GetGlobalDepth (dir_page t)) index
            (GetLocalDepth (dir_page t) index) (GetBucketPageId (dir_page t) index) t1)
    as Hinv.
  { unfold merge_inv. change (dir_page t1) with (dir_page t).
    rewrite HS in Hidx |- *. rewrite (Z.mod_small index) by lia.
    split; [by do 2 apply table_wf_emit|]. split; [lia|]. split; [lia|].
    split; [done|]. split; [done|]. intros j Hj _. by rewrite Z.mod_small by lia. }
  pose proof (merge_loop_wf (Z.to_nat (GetLocalDepth (dir_page t) index) + 1)
                (GetGlobalDepth (dir_page t)) index
                (GetBucketPageId (dir_page t) index)
                (GetLocalDepth (dir_page t) index) false t1 Hinv) as Hloop.
  destruct (HT.merge_loop _ _ _ _ _ _ _ _) as [[[bpid' m'] t']| | |];
    apply Hloop; lia.
Qed.

Lemma Remove_wf key value t :
  table_wf t →
  match Remove key value t with
  | Done (_, t') => table_wf t' ∧ directory_page_id_ t' = directory_page_id_ t
  | _ => False
  end.
Proof.
  intros Hwf. unfold Remove, HT.Remove.
  set (t0 := emit _ t). assert (table_wf t0) as Hwf0 by by apply table_wf_emit.
  change (dir_page t0) with (dir_page t).
  pose proof Hwf as (Hd & He & _).
  pose proof (key_index_bound key _ Hd) as Hidx.
  set (index := Z.land _ _) in *.
  destruct (He index Hidx) as [b Hb]. change (bucket_pages t0) with (bucket_pages t).
  rewrite Hb. destruct (MyRemove _ b key value) as [is_remove b'].
  set (t3 := emit (EvUnpinPage _ is_remove) _).
  assert (table_wf t3) as Hwf3.
  { apply table_wf_emit, table_wf_set_bucket; [|simpl; eauto].
    by do 2 apply table_wf_emit. }
  assert (directory_page_id_ t3 = directory_page_id_ t) as Hdir3 by done.
  destruct (is_remove && _); [|done].
  pose proof (Merge_wf key value t3 Hwf3) as Hm.
  by destruct (HT.Merge _ _ _ _ _) as [t'| | |].
Qed.


Local Abbreviation new_table := (new_table MAX_DEPTH BUCKET_ARRAY_SIZE).
Local Abbreviation run := (run MAX_DEPTH BUCKET_ARRAY_SIZE hash_fn).

Lemma new_table_wf first_id : table_wf (new_table first_id).
Proof.
  assert (0 < DIRECTORY_ARRAY_SIZE MAX_DEPTH) as Hpos
    by (unfold DIRECTORY_ARRAY_SIZE; rewrite shiftl1 by done; by apply pow2_pos).
  unfold table_wf, new_table, HT.new_table. simpl. split_and!.
  - split; [|split].
    + split; simpl; rewrite ?length_insert, length_replicate; done.
    + unfold GetGlobalDepth. simpl. lia.
    + unfold GetGlobalDepth. simpl. split_and!; [done|..].
      * intros i Hi. assert (i = 0) as -> by lia.
        unfold GetLocalDepth. simpl. rewrite lookup_replicate_2 by lia. simpl. lia.
      * intros i j Hi Hj _. assert (i = 0) as -> by lia. by assert (j = 0) as -> by lia.
      * intros i j Hi Hj _. assert (i = 0) as -> by lia. by assert (j = 0) as -> by lia.
  - intros i Hi. unfold Size, GetGlobalDepth in Hi. simpl in Hi.
    change (Z.shiftl 1 0) with 1 in Hi. assert (i = 0) as -> by lia.
    unfold GetBucketPageId. simpl.
    rewrite list_lookup_insert_eq by (rewrite length_replicate; lia). simpl.
    rewrite lookup_singleton_eq. eauto.
  - intros p [b Hp]. apply lookup_singleton_Some in Hp as [<- _]. lia.
  - lia.
  - apply lookup_singleton_ne. lia.
Qed.

Lemma run_wf ops : ∀ t,
  table_wf t →
  match run ops t with
  | Done t' => table_wf t'
  | DirectoryOverflow => True
  | _ => False
  end.
Proof.
  induction ops as [|o ops IH]; intros t Hwf; simpl; [done|].
  destruct o as [k v|k v]; simpl.
  - pose proof (Insert_wf k v t Hwf) as Hi.
    destruct (HT.Insert _ _ _ _ _ _) as [[r t']| | |]; try done.
    apply IH, Hi.
  - pose proof (Remove_wf k v t Hwf) as Hr.
    destruct (HT.Remove _ _ _ _ _) as [[r t']| | |]; try done.
    apply IH, Hr.
Qed.

End directory.




(** The events a call appended to the trace, and among a list of events the
    [is_dirty] flags of the unpins of the directory page. *)
Definition events_since (t t' : ExtendibleHashTable) : list event :=
  drop (length (trace t)) (trace t').

Definition directory_unpins (directory_page_id : page_id_t) (evs : list event)
    : list bool :=
  omap (λ e, match e with
             | EvUnpinPage p is_dirty =>
                 if decide (p = directory_page_id) then Some is_dirty else None
             | _ => None
             end) evs.

(** C10.  [GetValue], an [Insert] that finds the pair present or places it
    without calling [SplitInsert], and a [Remove] that does not call [Merge]
    complete, leave the directory page as it was (global depth, every local
    depth, every bucket page id), make no call that writes it, and unpin it
    exactly once, with [is_dirty = false]. *)
Theorem nonstructural_ops_frame (MAX_DEPTH BUCKET_ARRAY_SIZE : Z)
    (hash_fn : KeyType → Z) (key : KeyType) (value : ValueType)
    (t : ExtendibleHashTable) (bucket_page : HashTableBucketPage) :
  table_wf MAX_DEPTH t →
  let d := dir_page t in
  let index := KeyToDirectoryIndex hash_fn key d in
  let bucket_page_id := GetBucketPageId d index in
  let directory_page_id := directory_page_id_ t in
  bucket_pages t !! bucket_page_id = Some bucket_page →
  let calls (dirty : bool) :=
    [EvFetchPage directory_page_id; EvFetchPage bucket_page_id;
     EvUnpinPage directory_page_id false; EvUnpinPage bucket_page_id dirty] in
  bucket_page_id ≠ directory_page_id ∧
  (∃ is_find vs t',
     GetValue BUCKET_ARRAY_SIZE hash_fn key t = Done (is_find, vs, t') ∧
     dir_page t' = d ∧ events_since t t' = calls false ∧
     directory_unpins directory_page_id (events_since t t') = [false]) ∧
  (IsExist BUCKET_ARRAY_SIZE bucket_page key value = true ∨
   (MyInsert BUCKET_ARRAY_SIZE bucket_page key value).1 = true →
   ∃ is_insert t',
     Insert MAX_DEPTH BUCKET_ARRAY_SIZE hash_fn key value t = Done (is_insert, t') ∧
     is_insert = negb (IsExist BUCKET_ARRAY_SIZE bucket_page key value) ∧
     dir_page t' = d ∧ events_since t t' = calls is_insert ∧
     directory_unpins directory_page_id (events_since t t') = [false]) ∧
  (let is_remove := (MyRemove BUCKET_ARRAY_SIZE bucket_page key value).1 in
   let bucket_page' := (MyRemove BUCKET_ARRAY_SIZE bucket_page key value).2 in
   is_remove && merge_wanted BUCKET_ARRAY_SIZE d index bucket_page' = false →
   ∃ t',
     Remove BUCKET_ARRAY_SIZE hash_fn key value t = Done (is_remove, t') ∧
     dir_page t' = d ∧ events_since t t' = calls is_remove ∧
     directory_unpins directory_page_id (events_since t t') = [false]).
Proof.
  intros Hwf d index bucket_page_id directory_page_id Hpage calls.
  assert (bucket_page_id ≠ directory_page_id) as Hne.
  { intros Heq. destruct Hwf as (_ & _ & _ & _ & Hnone).
    rewrite Heq in Hpage. unfold directory_page_id in Hpage. congruence. }
  assert (∀ dirty, directory_unpins directory_page_id (calls dirty) = [false]) as Hunpins.
  { intros dirty. unfold directory_unpins, calls. simpl.
    rewrite decide_True by done. by rewrite decide_False by done. }
  assert (∀ evs, drop (length (trace t)) (trace t ++ evs) = evs) as Hdrop
    by (intros evs; by rewrite drop_app_length).
  split; [done|]. split_and!.
  - unfold GetValue. cbv zeta.
    change (bucket_pages (emit ?e t)) with (bucket_pages t).
    change (dir_page (emit ?e t)) with d.
    change (Z.land (Hash hash_fn key) (GetGlobalDepthMask d)) with index.
    fold bucket_page_id. rewrite Hpage.
    destruct (MyGetValue _ _ _) as [is_find vs].
    eexists _, _, _. split; [done|]. unfold events_since. simpl.
    rewrite <- !app_assoc. simpl. rewrite Hdrop. split_and!; [done|done|apply Hunpins].
  - intros Hfast. unfold Insert. cbv zeta.
    change (bucket_pages (emit ?e t)) with (bucket_pages t).
    change (dir_page (emit ?e t)) with d.
    change (Z.land (Hash hash_fn key) (GetGlobalDepthMask d)) with index.
    fold bucket_page_id. rewrite Hpage.
    destruct (IsExist _ _ _ _) eqn:Hex; simpl.
    + eexists _, _. split; [done|]. unfold events_since. simpl.
      rewrite <- !app_assoc. simpl. rewrite Hdrop.
      split_and!; [done|done|done|apply Hunpins].
    + destruct Hfast as [?|Hins]; [done|].
      destruct (MyInsert _ _ _ _) as [is_insert b']. simpl in Hins. subst is_insert. simpl.
      eexists _, _. split; [done|]. unfold events_since. simpl.
      rewrite <- !app_assoc. simpl. rewrite Hdrop.
      split_and!; [done|done|done|apply Hunpins].
  - cbv zeta. intros Hnomerge. unfold Remove. cbv zeta.
    change (bucket_pages (emit ?e t)) with (bucket_pages t).
    change (dir_page (emit ?e t)) with d.
    change (Z.land (Hash hash_fn key) (GetGlobalDepthMask d)) with index.
    fold bucket_page_id. rewrite Hpage.
    destruct (MyRemove _ _ _ _) as [is_remove b']. simpl in Hnomerge.
    cbv beta iota zeta.
    change (merge_wanted BUCKET_ARRAY_SIZE _ index b')
      with (merge_wanted BUCKET_ARRAY_SIZE d index b').
    rewrite Hnomerge.
    eexists. split; [done|]. unfold events_since. simpl.
    rewrite <- !app_assoc. simpl. rewrite Hdrop.
    split_and!; [done|done|apply Hunpins].
Qed.

(** *** Concrete runs

    A table with [MAX_DEPTH = 9], buckets of four slots and the identity as
    hash function, as in the scenarios of the design document. *)

Definition sample_table : ExtendibleHashTable := new_table 9 4 0.


(** Five pairs with one key do not fit a bucket of four slots, and no split
    separates them: the fifth [Insert] calls [SplitInsert], whose loop doubles
    the directory until it has [1 << MAX_DEPTH] slots and then has to double
    it once more.  The call does not complete with a directory that
    satisfies the sharing invariant. *)
Definition equal_key_ops : list op :=
  [OpInsert 7 0; OpInsert 7 1; OpInsert 7 2; OpInsert 7 3].

Lemma run_app (MAX_DEPTH BUCKET_ARRAY_SIZE : Z) (hash_fn : KeyType → Z)
    (ops1 ops2 : list op) : ∀ t,
  run MAX_DEPTH BUCKET_ARRAY_SIZE hash_fn (ops1 ++ ops2) t =
    match run MAX_DEPTH BUCKET_ARRAY_SIZE hash_fn ops1 t with
    | Done t' => run MAX_DEPTH BUCKET_ARRAY_SIZE hash_fn ops2 t'
    | r => r
    end.
Proof.
  induction ops1 as [|o ops1 IH]; intros t; simpl; [done|].
  destruct (step _ _ _ o t) as [t'| | |]; [apply IH|done..].
Qed.

Lemma insert_equal_keys_overflows :
  ∃ t, run 9 4 (λ k, k) equal_key_ops sample_table = Done t ∧
       table_wf 9 t ∧
       Insert 9 4 (λ k, k) 7 4 t = DirectoryOverflow ∧
       ¬ ∃ r t', Insert 9 4 (λ k, k) 7 4 t = Done (r, t') ∧ sharing_inv (dir_page t').
Proof.
  pose proof (run_wf 9 ltac:(lia) 4 (λ k, k) equal_key_ops sample_table
                (new_table_wf 9 ltac:(lia) 4 0)) as Hwf.
  assert (run 9 4 (λ k, k) (equal_key_ops ++ [OpInsert 7 4]) sample_table
          = DirectoryOverflow) as Hall by (vm_compute; reflexivity).
  rewrite run_app in Hall.
  destruct (run 9 4 (λ k, k) equal_key_ops sample_table) as [t| | |] eqn:Hrun;
    [|done..].
  assert (Insert 9 4 (λ k, k) 7 4 t = DirectoryOverflow) as Hins.
  { cbn [run step] in Hall.
    destruct (Insert 9 4 (λ k, k) 7 4 t) as [[r t']| | |]; by try discriminate. }
  exists t. split; [done|]. split; [done|]. split; [exact Hins|].
  intros (r & t' & Hdone & _). rewrite Hins in Hdone. discriminate.
Qed.


Lemma nonstructural_ops_frame_witness :
  ∃ t', Insert 9 4 (λ k, k) 5 5 sample_table = Done (true, t') ∧
        dir_page t' = dir_page sample_table ∧
        directory_unpins 0 (events_since sample_table t') = [false].
Proof.
  destruct (nonstructural_ops_frame 9 4 (λ k, k) 5 5 sample_table (zero_page 4))
    as (_ & _ & Hinsert & _).
  - apply (new_table_wf 9 ltac:(lia) 4 0).
  - reflexivity.
  - destruct Hinsert as (is_insert & t' & Hrun & His & Hd & _ & Hu);
      [right; reflexivity|].
    exists t'. change (negb _) with true in His. rewrite His in Hrun.
    split; [exact Hrun|]. split; [exact Hd|exact Hu].
Defined.

(** The run that loses pairs.  Nine inserts bring the directory to global
    depth 3 with the bucket of the odd keys at local depth 1, holding the keys
    1, 3, 5 and 7.  Inserting 15 splits that bucket from slot 7: the new local
    depth is 2, the rehash compares the two low bits of every hash with the
    slot number 7, finds no match and moves all four pairs to the image page,
    which serves the slots 1 and 5.  The slots 3 and 7 keep the emptied page,
    so the keys 3 and 7 are no longer found. *)
Definition lost_pair_ops : list op :=
  (λ k, OpInsert k k) <$> [0; 8; 16; 24; 4; 1; 3; 5; 7; 15].

Lemma split_insert_loses_pairs :
  ∃ t, run 9 4 (λ k, k) lost_pair_ops sample_table = Done t ∧
       GetGlobalDepth (dir_page t) = 3 ∧
       (GetLocalDepth (dir_page t) <$> seqZ 0 8) = [3; 2; 2; 2; 3; 2; 2; 2] ∧
       (GetBucketPageId (dir_page t) <$> seqZ 0 8) = [1; 5; 3; 2; 4; 5; 3; 2] ∧
       values_of 4 (λ k, k) 3 t = Some [] ∧
       values_of 4 (λ k, k) 7 t = Some [] ∧
       ref_values 3 (ref_run lost_pair_ops) = [3] ∧
       ref_values 7 (ref_run lost_pair_ops) = [7] ∧
       sharing_inv (dir_page t).
Proof.
  pose proof (run_wf 9 ltac:(lia) 4 (λ k, k) lost_pair_ops sample_table
                (new_table_wf 9 ltac:(lia) 4 0)) as Hwf.
  assert (match run 9 4 (λ k, k) lost_pair_ops sample_table with
          | Done t => GetGlobalDepth (dir_page t) = 3 ∧
                      (GetLocalDepth (dir_page t) <$> seqZ 0 8)
                        = [3; 2; 2; 2; 3; 2; 2; 2] ∧
                      (GetBucketPageId (dir_page t) <$> seqZ 0 8)
                        = [1; 5; 3; 2; 4; 5; 3; 2] ∧
                      values_of 4 (λ k, k) 3 t = Some [] ∧
                      values_of 4 (λ k, k) 7 t = Some []
          | _ => False
          end) as Hall by (vm_compute; repeat split; reflexivity).
  destruct (run 9 4 (λ k, k) lost_pair_ops sample_table) as [t| | |] eqn:Hrun;
    [|destruct Hall..].
  destruct Hall as (H1 & H2 & H3 & H4 & H5).
  exists t. split_and!; [reflexivity|exact H1|exact H2|exact H3|exact H4|exact H5| | |].
  - vm_compute; reflexivity.
  - vm_compute; reflexivity.
  - eapply dir_wf_sharing, Hwf.
Qed.

End HT.

(** ** Bucket pages as containers of pairs

    What the scanning functions of hash_table_bucket_page.cpp have in
    common: they all see the pairs that [GetAllPairs] returns. *)

Module BucketOps.

Import Bucket.

Section defs.

Variable BUCKET_ARRAY_SIZE : Z.

(** [char] is signed on some targets and unsigned on others; the flag says
    which. *)
Variable char_is_signed : bool.

(** [uint32_t curr = readable_[i]]: the conversion of the [char] with bit
    pattern [c] to [uint32_t]. *)
Definition char_to_uint32 (c : Z) : Z :=
  if char_is_signed && (128 <=? c) then c + (2 ^ 32 - 256) else c.

(** The three folding steps of [NumReadable] on one byte, in [uint32_t]
    arithmetic. *)
Definition fold_bits (curr : Z) : Z :=
  let curr := (Z.land (Z.shiftr curr 1) 85 + Z.land curr 85) mod 2 ^ 32 in
  let curr := (Z.land (Z.shiftr curr 2) 51 + Z.land curr 51) mod 2 ^ 32 in
  (Z.shiftr curr 4 + Z.land curr 15) mod 2 ^ 32.

Definition NumReadable (b : HashTableBucketPage) : Z :=
  let n := (BUCKET_ARRAY_SIZE - 1) / 8 + 1 in
  foldl (λ cnt i, (cnt + fold_bits (char_to_uint32 (byte_at (readable_ b) i))) mod 2 ^ 32)
        0 (seqZ 0 n).

(** Occupied slots form a prefix of the array. *)
Definition occupied_prefix (b : HashTableBucketPage) : Prop :=
  ∀ i j, 0 <= i <= j → j < BUCKET_ARRAY_SIZE →
         IsOccupied b j = true → IsOccupied b i = true.

(** The bits of the last bitmap byte that belong to no slot are clear. *)
Definition no_stray_bits (b : HashTableBucketPage) : Prop :=
  ∀ i, BUCKET_ARRAY_SIZE <= i < 8 * bitmap_bytes BUCKET_ARRAY_SIZE →
       IsReadable b i = false.

(** The states a bucket page goes through, starting from a zeroed page. *)
Definition bucket_inv (b : HashTableBucketPage) : Prop :=
  bucket_wf BUCKET_ARRAY_SIZE b ∧ tombstone_inv BUCKET_ARRAY_SIZE b ∧
  occupied_prefix b ∧ no_stray_bits b.

(** The pairs of the readable slots among [n] slots from slot [a] on. *)
Definition pairs_in (b : HashTableBucketPage) (a n : Z) : list MappingType :=
  pair_at (array_ b) <$> filter (λ i, IsReadable b i = true) (seqZ a n).

End defs.

Section scans.

Variable BUCKET_ARRAY_SIZE : Z.
Hypothesis size_pos : 0 < BUCKET_ARRAY_SIZE.

Local Abbreviation wf := (bucket_wf BUCKET_ARRAY_SIZE).
Local Abbreviation inv := (bucket_inv BUCKET_ARRAY_SIZE).
Implicit Types (b : HashTableBucketPage) (i j : Z) (l : list Z).

Lemma filter_none {A} (P : A → Prop) `{!∀ x, Decision (P x)} (l : list A) :
  (∀ x, x ∈ l → ¬ P x) → filter P l = [].
Proof.
  induction l as [|x l IH]; intros Hn; [done|].
  rewrite filter_cons, decide_False by (apply Hn; left).
  apply IH. intros y Hy. apply Hn. by right.
Qed.

Lemma filter_all {A} (P : A → Prop) `{!∀ x, Decision (P x)} (l : list A) :
  length (filter P l) = length l ↔ ∀ x, x ∈ l → P x.
Proof.
  induction l as [|x l IH]; [by split; [intros _ ? ?%elem_of_nil|]|].
  rewrite filter_cons. destruct (decide (P x)) as [Hp|Hn]; simpl.
  - split.
    + intros Hl y [->|Hy]%elem_of_cons; [done|]. apply IH; [lia|done].
    + intros Hall. f_equal. apply IH. intros y Hy. apply Hall. by right.
  - pose proof (length_filter P l). split; [lia|].
    intros Hall. destruct Hn. apply Hall. left.
Qed.

Lemma slot_matches_pair b key value i :
  slot_matches b key value i = true ↔
  IsReadable b i = true ∧ pair_at (array_ b) i = (key, value).
Proof.
  unfold slot_matches, KeyAt, ValueAt. destruct (pair_at (array_ b) i) as [k v]. simpl.
  rewrite !andb_true_iff, !Z.eqb_eq. split.
  - intros [[-> ->] ?]. done.
  - intros [? [= -> ->]]. done.
Qed.

Lemma get_value_scan_pairs b key l :
  get_value_scan b key l = (filter (λ kv, kv.1 = key) (all_pairs_scan b l)).*2.
Proof.
  induction l as [|i l IH]; simpl; [done|].
  destruct (IsOccupied b i); simpl; [|done]. unfold KeyAt, ValueAt.
  destruct (IsReadable b i); simpl.
  - rewrite filter_cons. destruct (Z.eqb_spec key (pair_at (array_ b) i).1) as [He|Hne]; simpl.
    + rewrite decide_True by done. by rewrite fmap_cons, IH.
    + by rewrite decide_False by done.
  - by rewrite andb_false_r.
Qed.

Lemma exist_scan_pairs b key value l :
  exist_scan b key value l = true ↔ (key, value) ∈ all_pairs_scan b l.
Proof.
  induction l as [|i l IH]; simpl; [by rewrite elem_of_nil|].
  destruct (IsOccupied b i); simpl; [|by rewrite elem_of_nil].
  destruct (slot_matches b key value i) eqn:Hm.
  - apply slot_matches_pair in Hm as [-> ->]. split; [|done]. intros _. left.
  - destruct (IsReadable b i) eqn:Hr; [|done].
    rewrite elem_of_cons, IH. split; [by right|]. intros [He|?]; [|done].
    assert (slot_matches b key value i = true) by (by apply slot_matches_pair).
    congruence.
Qed.

(** Writes to one slot seen from any bit position. *)

Lemma IsReadable_SetReadable_any b i j :
  wf b → 0 <= i < BUCKET_ARRAY_SIZE → 0 <= j →
  IsReadable (SetReadable b i) j = (j =? i) || IsReadable b j.
Proof.
  intros (_ & Hl & _) Hi Hj.
  destruct (slot_byte BUCKET_ARRAY_SIZE i Hi) as [Hbi Hmi].
  pose proof (Z.mod_pos_bound j 8 ltac:(lia)) as Hmj.
  assert (0 <= j / 8) as Hbj by (apply Z.div_pos; lia).
  rewrite !IsReadable_testbit by lia. simpl.
  rewrite byte_at_insert by lia.
  destruct (Z.eqb_spec j i) as [->|Hne]; simpl.
  - rewrite Z.eqb_refl, lor_bit by lia. by rewrite Z.eqb_refl, orb_true_r.
  - destruct (Z.eqb_spec (j / 8) (i / 8)) as [He|]; [|done].
    rewrite He, lor_bit by lia.
    destruct (slot_split _ _ Hne) as [?|Hm]; [congruence|].
    apply Z.eqb_neq in Hm. by rewrite Hm, orb_false_r.
Qed.

Lemma IsReadable_RemoveAt_any b i j :
  wf b → 0 <= i < BUCKET_ARRAY_SIZE → 0 <= j →
  IsReadable (RemoveAt b i) j = negb (j =? i) && IsReadable b j.
Proof.
  intros (_ & Hl & _) Hi Hj.
  destruct (slot_byte BUCKET_ARRAY_SIZE i Hi) as [Hbi Hmi].
  pose proof (Z.mod_pos_bound j 8 ltac:(lia)) as Hmj.
  assert (0 <= j / 8) as Hbj by (apply Z.div_pos; lia).
  rewrite !IsReadable_testbit by lia. simpl.
  rewrite byte_at_insert by lia.
  destruct (Z.eqb_spec j i) as [->|Hne]; simpl.
  - rewrite Z.eqb_refl, clear_bit by lia. by rewrite Z.eqb_refl, andb_false_r.
  - destruct (Z.eqb_spec (j / 8) (i / 8)) as [He|]; [|done].
    rewrite He, clear_bit by lia.
    destruct (slot_split _ _ Hne) as [?|Hm]; [congruence|].
    apply Z.eqb_neq in Hm. by rewrite Hm, andb_true_r.
Qed.

Lemma IsReadable_write_slot_any b i key value j :
  wf b → 0 <= i < BUCKET_ARRAY_SIZE → 0 <= j →
  IsReadable (write_slot b i key value) j = (j =? i) || IsReadable b j.
Proof.
  intros Hw Hi Hj. unfold write_slot.
  rewrite IsReadable_SetReadable_any; [done| |done|done].
  apply SetOccupied_wf; try done. by apply set_pair_wf.
Qed.

(** Two pages that agree on the slots of [l] give the same scan. *)
Lemma all_pairs_scan_ext b b' l :
  (∀ i, i ∈ l → IsOccupied b' i = IsOccupied b i ∧ IsReadable b' i = IsReadable b i ∧
                pair_at (array_ b') i = pair_at (array_ b) i) →
  all_pairs_scan b' l = all_pairs_scan b l.
Proof.
  induction l as [|i l IH]; intros Hagree; simpl; [done|].
  destruct (Hagree i) as (-> & -> & ->); [left|].
  rewrite IH; [done|]. intros j Hj. apply Hagree. by right.
Qed.

Lemma pairs_in_ext b b' a n :
  (∀ i, a <= i < a + n → IsReadable b' i = IsReadable b i ∧
                         pair_at (array_ b') i = pair_at (array_ b) i) →
  pairs_in b' a n = pairs_in b a n.
Proof.
  intros Hagree. unfold pairs_in.
  assert (∀ l, (∀ i, i ∈ l → a <= i < a + n) →
               pair_at (array_ b') <$> filter (λ i, IsReadable b' i = true) l =
               pair_at (array_ b) <$> filter (λ i, IsReadable b i = true) l) as Hl.
  { induction l as [|i l IH]; intros Hin; [done|].
    rewrite !filter_cons. destruct (Hagree i) as [Hr Hp]; [apply Hin; left|].
    rewrite Hr. destruct (decide (IsReadable b i = true)).
    - rewrite !fmap_cons, Hp, IH; [done|]. intros j Hj. apply Hin. by right.
    - apply IH. intros j Hj. apply Hin. by right. }
  apply Hl. intros i Hi%elem_of_seqZ. lia.
Qed.

Lemma pairs_in_app b a n1 n2 :
  0 <= n1 → 0 <= n2 →
  pairs_in b a (n1 + n2) = pairs_in b a n1 ++ pairs_in b (a + n1) n2.
Proof.
  intros H1 H2. unfold pairs_in. by rewrite seqZ_app, filter_app, fmap_app by done.
Qed.

Lemma pairs_in_one b a :
  pairs_in b a 1 = if IsReadable b a then [pair_at (array_ b) a] else [].
Proof.
  unfold pairs_in. change (seqZ a 1) with [0 + a]. rewrite Z.add_0_l.
  rewrite filter_cons. destruct (IsReadable b a); by simpl.
Qed.

(** On a page whose readable slots lie in the occupied prefix, the scan of
    [GetAllPairs] stops only where no readable slot follows. *)
Lemma all_pairs_scan_pairs_in b : ∀ (n : nat) a,
  (∀ i, a <= i < a + Z.of_nat n → IsReadable b i = true →
        ∀ j, a <= j <= i → IsOccupied b j = true) →
  all_pairs_scan b (seqZ a (Z.of_nat n)) = pairs_in b a (Z.of_nat n).
Proof.
  induction n as [|n IH]; intros a Hocc; [done|].
  unfold pairs_in. rewrite seqZ_cons by lia. simpl.
  replace (Z.pred (Z.of_nat (S n))) with (Z.of_nat n) by lia.
  rewrite filter_cons.
  destruct (IsOccupied b a) eqn:Ho; simpl.
  - rewrite IH.
    + unfold pairs_in. by destruct (IsReadable b a).
    + intros i Hi Hr j Hj. apply (Hocc i); [lia|done|lia].
  - rewrite decide_False.
    2:{ intros Hr. rewrite (Hocc a) in Ho; [done|lia|done|lia]. }
    rewrite filter_none; [done|]. intros i Hi%elem_of_seqZ Hr.
    rewrite (Hocc i) in Ho; [done|lia|done|lia].
Qed.

Lemma inv_scan b :
  inv b →
  ∀ i, 0 <= i < 0 + BUCKET_ARRAY_SIZE → IsReadable b i = true →
       ∀ j, 0 <= j <= i → IsOccupied b j = true.
Proof.
  intros (_ & Ht & Hp & _) i Hi Hr j Hj.
  apply (Hp j i); [lia|lia|]. apply Ht; [lia|done].
Qed.

Lemma GetAllPairs_pairs_in b :
  inv b → GetAllPairs BUCKET_ARRAY_SIZE b = pairs_in b 0 BUCKET_ARRAY_SIZE.
Proof.
  intros Hinv. unfold GetAllPairs.
  rewrite <- (Z2Nat.id BUCKET_ARRAY_SIZE) by lia.
  apply all_pairs_scan_pairs_in. rewrite Z2Nat.id by lia. by apply inv_scan.
Qed.

(** The pairs around slot [i]. *)
Lemma pairs_in_around b i :
  0 <= i < BUCKET_ARRAY_SIZE →
  pairs_in b 0 BUCKET_ARRAY_SIZE =
    pairs_in b 0 i ++ (if IsReadable b i then [pair_at (array_ b) i] else []) ++
    pairs_in b (i + 1) (BUCKET_ARRAY_SIZE - i - 1).
Proof.
  intros Hi.
  replace BUCKET_ARRAY_SIZE with (i + (1 + (BUCKET_ARRAY_SIZE - i - 1))) at 1 by lia.
  rewrite pairs_in_app by lia. rewrite Z.add_0_l.
  rewrite pairs_in_app by lia. by rewrite pairs_in_one.
Qed.

Lemma zero_page_inv : inv (zero_page BUCKET_ARRAY_SIZE).
Proof.
  assert (∀ i, 0 <= i → IsReadable (zero_page BUCKET_ARRAY_SIZE) i = false) as Hr.
  { intros i Hi. rewrite IsReadable_testbit by done. unfold byte_at. simpl.
    destruct (replicate _ 0 !! _) as [x|] eqn:E; simpl; [|apply Z.bits_0].
    apply lookup_replicate in E as [-> _]. apply Z.bits_0. }
  assert (∀ i, 0 <= i → IsOccupied (zero_page BUCKET_ARRAY_SIZE) i = false) as Ho.
  { intros i Hi. rewrite IsOccupied_testbit by done. unfold byte_at. simpl.
    destruct (replicate _ 0 !! _) as [x|] eqn:E; simpl; [|apply Z.bits_0].
    apply lookup_replicate in E as [-> _]. apply Z.bits_0. }
  split_and!.
  - by apply zero_page_wf.
  - intros i Hi. rewrite Hr by lia. done.
  - intros i j Hij Hj. rewrite (Ho j) by lia. done.
  - intros i Hi. apply Hr. lia.
Qed.

Lemma write_slot_inv b i key value :
  inv b → 0 <= i < BUCKET_ARRAY_SIZE → IsReadable b i = false →
  (∀ j, 0 <= j < i → IsReadable b j = true) →
  inv (write_slot b i key value) ∧
  pairs_in (write_slot b i key value) 0 BUCKET_ARRAY_SIZE =
    pairs_in b 0 i ++ (key, value) :: pairs_in b (i + 1) (BUCKET_ARRAY_SIZE - i - 1) ∧
  pairs_in b 0 BUCKET_ARRAY_SIZE =
    pairs_in b 0 i ++ pairs_in b (i + 1) (BUCKET_ARRAY_SIZE - i - 1).
Proof.
  intros (Hw & Ht & Hp & Hs) Hi Hri Hbefore.
  destruct (write_slot_spec BUCKET_ARRAY_SIZE size_pos b i key value Hw Hi) as [Hw' Hslots].
  split_and!.
  - split_and!; [done| | |].
    + intros j Hj. destruct (Hslots j Hj) as (_ & -> & ->).
      destruct (j =? i); simpl; [done|]. by apply Ht.
    + intros j1 j2 Hj1 Hj2.
      destruct (Hslots j1) as (_ & -> & _); [lia|].
      destruct (Hslots j2) as (_ & -> & _); [lia|].
      destruct (Z.eqb_spec j1 i) as [->|Hne1]; simpl; [done|].
      destruct (Z.eqb_spec j2 i) as [->|Hne2]; simpl.
      * intros _. apply Ht; [lia|]. apply Hbefore. lia.
      * apply Hp; lia.
    + intros j Hj. rewrite IsReadable_write_slot_any by (done || lia).
      rewrite (Hs j Hj). by destruct (Z.eqb_spec j i); [lia|].
  - rewrite (pairs_in_around _ i Hi).
    destruct (Hslots i Hi) as (-> & _ & ->). rewrite Z.eqb_refl. simpl.
    f_equal; [|f_equal]; apply pairs_in_ext; intros j Hj;
      (destruct (Hslots j) as (-> & _ & ->); [lia|]);
      by destruct (Z.eqb_spec j i); [lia|].
  - rewrite (pairs_in_around _ i Hi). by rewrite Hri.
Qed.

Lemma MyInsert_pairs b key value :
  inv b →
  (IsFull BUCKET_ARRAY_SIZE b = true ∧
   MyInsert BUCKET_ARRAY_SIZE b key value = (false, b)) ∨
  (IsFull BUCKET_ARRAY_SIZE b = false ∧
   ∃ b' (front back : list MappingType),
     MyInsert BUCKET_ARRAY_SIZE b key value = (true, b') ∧ inv b' ∧
     GetAllPairs BUCKET_ARRAY_SIZE b = front ++ back ∧
     GetAllPairs BUCKET_ARRAY_SIZE b' = front ++ (key, value) :: back).
Proof.
  intros Hinv. pose proof Hinv as (Hw & _).
  pose proof (IsFull_spec BUCKET_ARRAY_SIZE size_pos b Hw) as Hfull.
  unfold MyInsert.
  destruct (place_scan_spec b key value (Z.to_nat BUCKET_ARRAY_SIZE) 0)
    as [[Hnone Hall]|(i & Hi & Hri & Hbefore & Hsome)];
    rewrite Z2Nat.id in * by lia.
  - left. rewrite Hnone. split; [|done]. apply Hfull. intros i Hi. apply Hall. lia.
  - right. rewrite Hsome. split.
    + apply not_true_is_false. intros Hf. rewrite (proj1 Hfull Hf i) in Hri; [done|lia].
    + destruct (write_slot_inv b i key value Hinv) as (Hinv' & Hnew & Hold);
        [lia|done|intros; apply Hbefore; lia|].
      eexists _, _, _. split; [done|]. split; [done|].
      rewrite !GetAllPairs_pairs_in by done. done.
Qed.

Lemma elem_of_pairs_in b a n (kv : MappingType) :
  kv ∈ pairs_in b a n ↔
  ∃ j, a <= j < a + n ∧ IsReadable b j = true ∧ pair_at (array_ b) j = kv.
Proof.
  unfold pairs_in. rewrite list_elem_of_fmap. split.
  - intros (j & -> & [Hr Hj%elem_of_seqZ]%list_elem_of_filter). eauto.
  - intros (j & Hj & Hr & <-). exists j. split; [done|].
    apply list_elem_of_filter. split; [done|]. by apply elem_of_seqZ.
Qed.

Lemma remove_scan_spec b key value : ∀ (n : nat) a,
  (remove_scan b key value (seqZ a (Z.of_nat n)) = (false, b) ∧
   ∀ i, a <= i < a + Z.of_nat n → (∀ j, a <= j <= i → IsOccupied b j = true) →
        slot_matches b key value i = false) ∨
  (∃ i, a <= i < a + Z.of_nat n ∧ (∀ j, a <= j <= i → IsOccupied b j = true) ∧
        slot_matches b key value i = true ∧
        (∀ j, a <= j < i → slot_matches b key value j = false) ∧
        remove_scan b key value (seqZ a (Z.of_nat n)) = (true, RemoveAt b i)).
Proof.
  induction n as [|n IH]; intros a.
  - left. split; [done|]. lia.
  - rewrite seqZ_cons by lia. simpl.
    replace (Z.pred (Z.of_nat (S n))) with (Z.of_nat n) by lia.
    destruct (IsOccupied b a) eqn:Ho; simpl.
    + destruct (slot_matches b key value a) eqn:Hm.
      * right. exists a. split_and!; [lia|lia| |done|lia|done].
        intros j Hj. by replace j with a by lia.
      * destruct (IH (Z.succ a)) as [[Hf Hno]|(i & Hi & Hocc & Hmi & Hfirst & Hr)].
        -- left. split; [done|]. intros i Hi Hocc.
           destruct (decide (i = a)) as [->|]; [done|].
           apply Hno; [lia|]. intros j Hj. apply Hocc. lia.
        -- right. exists i. split_and!; [lia|lia| |done| |done].
           ++ intros j Hj. destruct (decide (j = a)) as [->|]; [done|]. apply Hocc. lia.
           ++ intros j Hj. destruct (decide (j = a)) as [->|]; [done|]. apply Hfirst. lia.
    + left. split; [done|]. intros i Hi Hocc. rewrite Hocc in Ho by lia. done.
Qed.

Lemma RemoveAt_inv b i :
  inv b → 0 <= i < BUCKET_ARRAY_SIZE → inv (RemoveAt b i).
Proof.
  intros (Hw & Ht & Hp & Hs) Hi. split_and!.
  - by apply RemoveAt_wf.
  - intros j Hj. rewrite IsReadable_RemoveAt_any by (done || lia).
    intros [_ Hr]%andb_prop. by apply (Ht j).
  - exact Hp.
  - intros j Hj. rewrite IsReadable_RemoveAt_any by (done || lia).
    rewrite (Hs j Hj). apply andb_false_r.
Qed.

Lemma MyRemove_pairs b key value :
  inv b →
  (((key, value) ∉ GetAllPairs BUCKET_ARRAY_SIZE b) ∧
   MyRemove BUCKET_ARRAY_SIZE b key value = (false, b)) ∨
  (∃ b' (front back : list MappingType),
     MyRemove BUCKET_ARRAY_SIZE b key value = (true, b') ∧ inv b' ∧
     GetAllPairs BUCKET_ARRAY_SIZE b = front ++ (key, value) :: back ∧
     ((key, value) ∉ front) ∧
     GetAllPairs BUCKET_ARRAY_SIZE b' = front ++ back).
Proof.
  intros Hinv. pose proof Hinv as (Hw & _). unfold MyRemove.
  destruct (remove_scan_spec b key value (Z.to_nat BUCKET_ARRAY_SIZE) 0)
    as [[Hf Hno]|(i & Hi & Hocc & Hmi & Hfirst & Hr)];
    rewrite Z2Nat.id in * by lia.
  - left. split; [|done]. rewrite GetAllPairs_pairs_in by done.
    intros (j & Hj & Hrj & Hpj)%elem_of_pairs_in.
    assert (slot_matches b key value j = true) as Hm by (by apply slot_matches_pair).
    rewrite Hno in Hm; [done|lia|]. by apply inv_scan.
  - right. apply slot_matches_pair in Hmi as [Hri Hpi].
    assert (0 <= i < BUCKET_ARRAY_SIZE) as Hi' by lia.
    pose proof (RemoveAt_inv b i Hinv Hi') as Hinv'.
    exists (RemoveAt b i), (pairs_in b 0 i),
           (pairs_in b (i + 1) (BUCKET_ARRAY_SIZE - i - 1)).
    split; [done|]. split; [done|].
    rewrite !GetAllPairs_pairs_in by done. split_and!.
    + rewrite (pairs_in_around b i Hi'). by rewrite Hri, Hpi.
    + intros (j & Hj & Hrj & Hpj)%elem_of_pairs_in.
      assert (slot_matches b key value j = true) as Hm by (by apply slot_matches_pair).
      rewrite Hfirst in Hm; [done|lia].
    + rewrite (pairs_in_around (RemoveAt b i) i Hi').
      rewrite (IsReadable_RemoveAt_any b i i) by (done || lia).
      rewrite Z.eqb_refl. simpl.
      f_equal; apply pairs_in_ext; intros j Hj;
        (rewrite IsReadable_RemoveAt_any by (done || lia));
        by destruct (Z.eqb_spec j i); [lia|].
Qed.

(** [IsEmpty] and [Clear] work on whole bitmap bytes. *)

Lemma char_zero_bits x :
  0 <= x < 256 → ((x =? 0) = true ↔ ∀ k, 0 <= k < 8 → Z.testbit x k = false).
Proof.
  intros Hx. rewrite Z.eqb_eq. split.
  - intros -> k _. apply Z.bits_0.
  - intros Hall. apply Z.bits_inj'. intros k Hk. rewrite Z.bits_0.
    destruct (decide (k < 8)); [apply Hall; lia|].
    apply (proj1 (char_range_bits x) Hx). lia.
Qed.

Lemma slot_of_bit q k :
  0 <= k < 8 → (k + 8 * q) / 8 = q ∧ (k + 8 * q) mod 8 = k.
Proof.
  intros Hk. split.
  - symmetry. apply Z.div_unique with k; lia.
  - symmetry. apply Z.mod_unique with q; lia.
Qed.

Lemma IsEmpty_spec b :
  wf b →
  (IsEmpty BUCKET_ARRAY_SIZE b = true ↔
   ∀ i, 0 <= i < 8 * bitmap_bytes BUCKET_ARRAY_SIZE → IsReadable b i = false).
Proof.
  intros (_ & _ & _ & _ & Hc). unfold IsEmpty. fold (bitmap_bytes BUCKET_ARRAY_SIZE).
  set (n := bitmap_bytes BUCKET_ARRAY_SIZE).
  rewrite forallb_forall. split.
  - intros Hzero i Hi. rewrite IsReadable_testbit by lia.
    pose proof (Z.mod_pos_bound i 8 ltac:(lia)).
    assert (0 <= i / 8 < n) as Hq
      by (split; [apply Z.div_pos; lia|apply Z.div_lt_upper_bound; lia]).
    apply (proj1 (char_zero_bits _ (byte_at_range _ (i / 8) Hc))); [|done].
    apply Hzero. apply list_elem_of_In, elem_of_seqZ. lia.
  - intros Hall q Hq%list_elem_of_In%elem_of_seqZ.
    apply char_zero_bits; [by apply byte_at_range|]. intros k Hk.
    specialize (Hall (k + 8 * q)). rewrite IsReadable_testbit in Hall by lia.
    destruct (slot_of_bit q k Hk) as [Hd Hm]. rewrite Hd, Hm in Hall.
    apply Hall. lia.
Qed.

Lemma bitmap_covers : BUCKET_ARRAY_SIZE <= 8 * bitmap_bytes BUCKET_ARRAY_SIZE < BUCKET_ARRAY_SIZE + 8.
Proof.
  unfold bitmap_bytes. pose proof (Z.div_mod (BUCKET_ARRAY_SIZE - 1) 8 ltac:(lia)).
  pose proof (Z.mod_pos_bound (BUCKET_ARRAY_SIZE - 1) 8 ltac:(lia)). lia.
Qed.

Lemma pairs_in_nil b a n :
  pairs_in b a n = [] ↔ ∀ i, a <= i < a + n → IsReadable b i = false.
Proof.
  split.
  - intros Hnil i Hi. destruct (IsReadable b i) eqn:Hr; [|done].
    assert (pair_at (array_ b) i ∈ pairs_in b a n) as Hin
      by (apply elem_of_pairs_in; eauto).
    rewrite Hnil in Hin. by apply elem_of_nil in Hin.
  - intros Hall. unfold pairs_in. rewrite filter_none; [done|].
    intros i Hi%elem_of_seqZ. rewrite Hall by lia. done.
Qed.

Lemma IsEmpty_pairs b :
  inv b → (IsEmpty BUCKET_ARRAY_SIZE b = true ↔ GetAllPairs BUCKET_ARRAY_SIZE b = []).
Proof.
  intros Hinv. pose proof Hinv as (Hw & _ & _ & Hs).
  rewrite GetAllPairs_pairs_in, IsEmpty_spec, pairs_in_nil by done.
  pose proof bitmap_covers. split.
  - intros Hall i Hi. apply Hall. lia.
  - intros Hall i Hi. destruct (decide (i < BUCKET_ARRAY_SIZE)); [apply Hall; lia|].
    apply Hs. lia.
Qed.

Lemma IsFull_pairs b :
  inv b →
  (IsFull BUCKET_ARRAY_SIZE b = true ↔
   Z.of_nat (length (GetAllPairs BUCKET_ARRAY_SIZE b)) = BUCKET_ARRAY_SIZE).
Proof.
  intros Hinv. pose proof Hinv as (Hw & _).
  rewrite GetAllPairs_pairs_in, (IsFull_spec BUCKET_ARRAY_SIZE size_pos) by done.
  unfold pairs_in. rewrite length_fmap.
  assert (length (seqZ 0 BUCKET_ARRAY_SIZE) = Z.to_nat BUCKET_ARRAY_SIZE) as Hlen
    by (by rewrite length_seqZ).
  split.
  - intros Hall.
    rewrite (proj2 (filter_all (λ i, IsReadable b i = true) (seqZ 0 BUCKET_ARRAY_SIZE))).
    + rewrite Hlen. lia.
    + intros i Hi%elem_of_seqZ. apply Hall. lia.
  - intros Hl i Hi.
    apply (proj1 (filter_all (λ i, IsReadable b i = true) (seqZ 0 BUCKET_ARRAY_SIZE))).
    + rewrite Hlen. lia.
    + apply elem_of_seqZ. lia.
Qed.

Lemma Clear_prefix b : ∀ m : nat,
  wf b → Z.of_nat m <= bitmap_bytes BUCKET_ARRAY_SIZE →
  let c := foldl (λ b i, {| occupied_ := <[ Z.to_nat i := 0 ]> (occupied_ b);
                            readable_ := <[ Z.to_nat i := 0 ]> (readable_ b);
                            array_ := array_ b |}) b (seqZ 0 (Z.of_nat m)) in
  wf c ∧ array_ c = array_ b ∧
  ∀ q, 0 <= q →
    byte_at (occupied_ c) q = (if q <? Z.of_nat m then 0 else byte_at (occupied_ b) q) ∧
    byte_at (readable_ c) q = (if q <? Z.of_nat m then 0 else byte_at (readable_ b) q).
Proof.
  induction m as [|m IH]; intros Hw Hm.
  - simpl. split_and!; [done|done|]. intros q Hq.
    by destruct (Z.ltb_spec q (Z.of_nat 0)); [lia|].
  - rewrite seqZ_S, Z.add_0_l, foldl_app by lia. simpl.
    destruct IH as ((Hl1 & Hl2 & Hl3 & Hc1 & Hc2) & Harr & Hbytes); [done|lia|].
    set (c := foldl _ b (seqZ 0 (Z.of_nat m))) in *. split_and!.
    + split_and!; simpl; rewrite ?length_insert; try done.
      * apply Forall_char_insert; [done|lia].
      * apply Forall_char_insert; [done|lia].
    + done.
    + intros q Hq. simpl. rewrite !byte_at_insert by lia.
      destruct (Hbytes q Hq) as [-> ->].
      destruct (Z.eqb_spec q (Z.of_nat m)) as [->|Hne].
      * by destruct (Z.ltb_spec (Z.of_nat m) (Z.of_nat (S m))); [|lia].
      * destruct (Z.ltb_spec q (Z.of_nat m)), (Z.ltb_spec q (Z.of_nat (S m)));
          (done || lia).
Qed.

Lemma Clear_spec b :
  wf b →
  inv (Clear BUCKET_ARRAY_SIZE b) ∧
  array_ (Clear BUCKET_ARRAY_SIZE b) = array_ b ∧
  (∀ i, 0 <= i → IsOccupied (Clear BUCKET_ARRAY_SIZE b) i = false ∧
                 IsReadable (Clear BUCKET_ARRAY_SIZE b) i = false).
Proof.
  intros Hw. pose proof bitmap_covers as Hcov.
  pose proof Hw as (Hl1 & Hl2 & _).
  destruct (Clear_prefix b (Z.to_nat (bitmap_bytes BUCKET_ARRAY_SIZE)) Hw)
    as (Hw' & Harr & Hbytes); [lia|].
  rewrite Z2Nat.id in * by lia. unfold Clear.
  fold (bitmap_bytes BUCKET_ARRAY_SIZE).
  set (c := foldl _ b (seqZ 0 (bitmap_bytes BUCKET_ARRAY_SIZE))) in *.
  assert (∀ q, 0 <= q → byte_at (occupied_ c) q = 0 ∧ byte_at (readable_ c) q = 0)
    as Hzero.
  { intros q Hq. destruct (Hbytes q Hq) as [-> ->].
    destruct (Z.ltb_spec q (bitmap_bytes BUCKET_ARRAY_SIZE)); [done|].
    unfold byte_at. rewrite !lookup_ge_None_2 by lia. done. }
  assert (∀ i, 0 <= i → IsOccupied c i = false ∧ IsReadable c i = false) as Hbits.
  { intros i Hi. rewrite IsOccupied_testbit, IsReadable_testbit by done.
    destruct (Hzero (i / 8)) as [-> ->]; [apply Z.div_pos; lia|].
    by rewrite Z.bits_0. }
  split_and!; [|done|done]. split_and!; [done| | |].
  - intros i Hi Hr. destruct (Hbits i) as [_ Hf]; [lia|]. congruence.
  - intros i j Hij Hj Ho. destruct (Hbits j) as [Hf _]; [lia|]. congruence.
  - intros i Hi. apply Hbits. lia.
Qed.

Lemma Clear_pairs b :
  wf b →
  GetAllPairs BUCKET_ARRAY_SIZE (Clear BUCKET_ARRAY_SIZE b) = [] ∧
  IsEmpty BUCKET_ARRAY_SIZE (Clear BUCKET_ARRAY_SIZE b) = true ∧
  IsFull BUCKET_ARRAY_SIZE (Clear BUCKET_ARRAY_SIZE b) = false.
Proof.
  intros Hw. destruct (Clear_spec b Hw) as (Hinv & _ & Hbits).
  assert (GetAllPairs BUCKET_ARRAY_SIZE (Clear BUCKET_ARRAY_SIZE b) = []) as Hnil.
  { rewrite GetAllPairs_pairs_in by done. apply pairs_in_nil.
    intros i Hi. apply Hbits. lia. }
  split_and!; [done|by apply IsEmpty_pairs|].
  apply not_true_is_false. intros Hf%IsFull_pairs; [|done].
  rewrite Hnil in Hf. simpl in Hf. lia.
Qed.

(** [NumReadable]: the folding steps count the bits of a byte. *)

Definition count_true (l : list bool) : Z :=
  foldr (λ (x : bool) acc, (if x then 1 else 0) + acc) 0 l.

Lemma fold_bits_count (char_is_signed : bool) c :
  0 <= c < 256 →
  fold_bits (char_to_uint32 char_is_signed c) = count_true (Z.testbit c <$> seqZ 0 8).
Proof.
  intros Hc.
  assert (forallb (λ c, fold_bits (char_to_uint32 char_is_signed c) =?
                        count_true (Z.testbit c <$> seqZ 0 8)) (seqZ 0 256) = true) as Hall
    by (destruct char_is_signed; vm_compute; reflexivity).
  rewrite forallb_forall in Hall. apply Z.eqb_eq, Hall.
  apply list_elem_of_In, elem_of_seqZ. lia.
Qed.

Lemma length_filter_count (f : Z → bool) l :
  Z.of_nat (length (filter (λ i, f i = true) l)) = count_true (f <$> l).
Proof.
  induction l as [|i l IH]; [done|].
  rewrite filter_cons, fmap_cons. simpl. rewrite <- IH.
  destruct (f i); simpl; lia.
Qed.

Lemma count_true_bounds (l : list bool) : 0 <= count_true l <= Z.of_nat (length l).
Proof. induction l as [|[] l IH]; simpl; lia. Qed.

Lemma fmap_seqZ_shift {A} (f : Z → A) a n :
  f <$> seqZ a n = (λ k, f (k + a)) <$> seqZ 0 n.
Proof.
  unfold seqZ. rewrite <- !list_fmap_compose. apply list_fmap_ext.
  intros i x _. simpl. f_equal. lia.
Qed.

Lemma byte_count b q :
  0 <= q →
  Z.of_nat (length (filter (λ i, IsReadable b i = true) (seqZ (8 * q) 8))) =
    count_true (Z.testbit (byte_at (readable_ b) q) <$> seqZ 0 8).
Proof.
  intros Hq. rewrite length_filter_count, fmap_seqZ_shift. f_equal.
  apply list_fmap_ext. intros i k Hk%list_elem_of_lookup_2%elem_of_seqZ.
  rewrite IsReadable_testbit by lia.
  destruct (slot_of_bit q k) as [-> ->]; [lia|done].
Qed.

Lemma NumReadable_prefix (char_is_signed : bool) b : ∀ m : nat,
  wf b → 8 * Z.of_nat m < 2 ^ 32 →
  foldl (λ cnt i, (cnt + fold_bits (char_to_uint32 char_is_signed
                                      (byte_at (readable_ b) i))) mod 2 ^ 32)
        0 (seqZ 0 (Z.of_nat m)) =
    Z.of_nat (length (filter (λ i, IsReadable b i = true) (seqZ 0 (8 * Z.of_nat m)))).
Proof.
  induction m as [|m IH]; intros Hw Hm; [done|].
  pose proof Hw as (_ & _ & _ & _ & Hc).
  rewrite seqZ_S, Z.add_0_l, foldl_app by lia. simpl. rewrite IH by (done || lia).
  replace (8 * Z.of_nat (S m)) with (8 * Z.of_nat m + 8) by lia.
  rewrite seqZ_app, filter_app, length_app, Z.add_0_l by lia.
  rewrite Nat2Z.inj_add, byte_count by lia.
  rewrite fold_bits_count by (by apply byte_at_range).
  apply Z.mod_small.
  pose proof (count_true_bounds (Z.testbit (byte_at (readable_ b) (Z.of_nat m)) <$> seqZ 0 8)) as Hb.
  rewrite length_fmap, length_seqZ in Hb.
  pose proof (length_filter (λ i, IsReadable b i = true) (seqZ 0 (8 * Z.of_nat m))) as Hlen.
  rewrite length_seqZ in Hlen. lia.
Qed.

Lemma NumReadable_pairs (char_is_signed : bool) b :
  inv b → BUCKET_ARRAY_SIZE + 7 < 2 ^ 32 →
  NumReadable BUCKET_ARRAY_SIZE char_is_signed b =
    Z.of_nat (length (GetAllPairs BUCKET_ARRAY_SIZE b)).
Proof.
  intros Hinv Hsize. pose proof Hinv as (Hw & _ & _ & Hs).
  pose proof bitmap_covers as Hcov.
  unfold NumReadable. fold (bitmap_bytes BUCKET_ARRAY_SIZE).
  set (n := bitmap_bytes BUCKET_ARRAY_SIZE) in *.
  rewrite <- (Z2Nat.id n) at 1 by lia.
  rewrite NumReadable_prefix by (done || lia). rewrite Z2Nat.id by lia.
  rewrite GetAllPairs_pairs_in by done. unfold pairs_in. rewrite length_fmap.
  replace (8 * n) with (BUCKET_ARRAY_SIZE + (8 * n - BUCKET_ARRAY_SIZE)) by lia.
  rewrite seqZ_app, filter_app, length_app by lia.
  rewrite (filter_none _ (seqZ (0 + BUCKET_ARRAY_SIZE) _)); [simpl; lia|].
  intros i Hi%elem_of_seqZ. rewrite Hs by lia. done.
Qed.

Lemma Insert_MyInsert b key value :
  inv b →
  Insert BUCKET_ARRAY_SIZE b key value =
    if IsFull BUCKET_ARRAY_SIZE b || IsExist BUCKET_ARRAY_SIZE b key value
    then (false, b) else MyInsert BUCKET_ARRAY_SIZE b key value.
Proof.
  intros Hinv. unfold Insert. fold (IsExist BUCKET_ARRAY_SIZE b key value).
  destruct (MyInsert_pairs b key value Hinv) as [[-> _]|(Hf & b' & f & k & Hi & _)];
    [done|].
  rewrite Hf. simpl. destruct (IsExist _ _ _ _); [done|].
  unfold MyInsert in *. by destruct (place_scan _ _ _ _).
Qed.

End scans.





Lemma app_pivot_unique {A} (x : A) (l1 l2 k1 k2 : list A) :
  x ∉ l1 → x ∉ k1 → l1 ++ x :: l2 = k1 ++ x :: k2 → l1 = k1 ∧ l2 = k2.
Proof.
  revert k1. induction l1 as [|y l1 IH]; intros [|z k1] Hl Hk Heq; simpl in *.
  - by injection Heq.
  - injection Heq as -> _. destruct Hk. left.
  - injection Heq as -> _. destruct Hl. left.
  - injection Heq as -> Heq.
    destruct (IH k1) as [-> ->]; [| |done|done].
    + intros ?. apply Hl. by right.
    + intros ?. apply Hk. by right.
Qed.

Lemma sample_bucket_inv : bucket_inv 4 sample_bucket.
Proof.
  assert (∀ i, 0 <= i < 8 →
            i = 0 ∨ i = 1 ∨ i = 2 ∨ i = 3 ∨ i = 4 ∨ i = 5 ∨ i = 6 ∨ i = 7) as Hcase
    by (intros; lia).
  split_and!.
  - repeat split; simpl; try done; repeat constructor; lia.
  - intros i Hi. destruct (Hcase i) as [->|[->|[->|[->|?]]]]; try lia; by vm_compute.
  - intros i j Hij Hj.
    destruct (Hcase j) as [->|[->|[->|[->|?]]]]; try lia;
      destruct (Hcase i) as [->|[->|[->|[->|?]]]]; try lia; by vm_compute.
  - intros i Hi. change (bitmap_bytes 4) with 1 in Hi.
    destruct (Hcase i) as [->|[->|[->|[->|[->|[->|[->| ->]]]]]]]; try lia; by vm_compute.
Qed.

(** Lookups on any page, whatever its bits: [MyGetValue] (and [GetValue])
    returns, in order, the values of the pairs of [GetAllPairs] under the
    key, with [is_find] telling whether there is one; [IsExist] tells
    whether the pair is among those of [GetAllPairs]. *)
Theorem bucket_lookup_pairs (BUCKET_ARRAY_SIZE : Z) (b : HashTableBucketPage)
    (key : KeyType) (value : ValueType) :
  let vs := (filter (λ kv, kv.1 = key) (GetAllPairs BUCKET_ARRAY_SIZE b)).*2 in
  MyGetValue BUCKET_ARRAY_SIZE b key = (bool_decide (vs ≠ []), vs) ∧
  (IsExist BUCKET_ARRAY_SIZE b key value = true ↔
   (key, value) ∈ GetAllPairs BUCKET_ARRAY_SIZE b).
Proof.
  cbv zeta. split.
  - unfold MyGetValue, GetAllPairs. by rewrite get_value_scan_pairs.
  - apply exist_scan_pairs.
Qed.





(** [Insert] on a consistent page whose pairs are pairwise distinct: it
    returns true exactly when the page is not full and does not hold the
    pair; then [GetAllPairs] gains exactly that pair; otherwise the page is
    unchanged.  The pairs stay pairwise distinct. *)
Theorem bucket_insert_set (BUCKET_ARRAY_SIZE : Z) (b : HashTableBucketPage)
    (key : KeyType) (value : ValueType) :
  0 < BUCKET_ARRAY_SIZE → bucket_inv BUCKET_ARRAY_SIZE b →
  NoDup (GetAllPairs BUCKET_ARRAY_SIZE b) →
  let r := (Insert BUCKET_ARRAY_SIZE b key value).1 in
  let b' := (Insert BUCKET_ARRAY_SIZE b key value).2 in
  bucket_inv BUCKET_ARRAY_SIZE b' ∧ NoDup (GetAllPairs BUCKET_ARRAY_SIZE b') ∧
  (r = true ↔ IsFull BUCKET_ARRAY_SIZE b = false ∧
              (key, value) ∉ GetAllPairs BUCKET_ARRAY_SIZE b) ∧
  (r = true → GetAllPairs BUCKET_ARRAY_SIZE b' ≡ₚ
              (key, value) :: GetAllPairs BUCKET_ARRAY_SIZE b) ∧
  (r = false → b' = b).
Proof.
  intros Hpos Hinv Hnd. cbv zeta. rewrite Insert_MyInsert by done.
  pose proof (exist_scan_pairs b key value (seqZ 0 BUCKET_ARRAY_SIZE)) as Hex.
  fold (IsExist BUCKET_ARRAY_SIZE b key value) in Hex.
  fold (GetAllPairs BUCKET_ARRAY_SIZE b) in Hex.
  destruct (MyInsert_pairs _ Hpos b key value Hinv)
    as [[Hf Hr]|(Hf & b' & front & back & Hr & Hinv' & Hold & Hnew)]; rewrite Hf; simpl.
  - split_and!; try done. split; [done|]. intros [? _]. done.
  - destruct (IsExist BUCKET_ARRAY_SIZE b key value) eqn:He; simpl.
    + split_and!; try done. split; [done|]. intros [_ Hn]. destruct Hn. by apply Hex.
    + rewrite Hr. simpl.
      assert ((key, value) ∉ GetAllPairs BUCKET_ARRAY_SIZE b) as Hnotin.
      { intros Hin%Hex. congruence. }
      assert (GetAllPairs BUCKET_ARRAY_SIZE b' ≡ₚ
              (key, value) :: GetAllPairs BUCKET_ARRAY_SIZE b) as Hperm.
      { rewrite Hnew, Hold. by rewrite <- Permutation_middle. }
      split_and!; try done.
      rewrite Hperm. by constructor.
Qed.

Lemma bucket_insert_set_witness :
  0 < 4 ∧ bucket_inv 4 sample_bucket ∧ NoDup (GetAllPairs 4 sample_bucket) ∧
  (Insert 4 sample_bucket 9 90).1 = true ∧
  GetAllPairs 4 (Insert 4 sample_bucket 9 90).2 ≡ₚ (9, 90) :: GetAllPairs 4 sample_bucket.
Proof.
  assert (NoDup (GetAllPairs 4 sample_bucket)) as Hnd
    by (change (NoDup [(5, 50)]); apply NoDup_singleton).
  split; [lia|]. split; [exact sample_bucket_inv|]. split; [exact Hnd|].
  split; [reflexivity|].
  apply (bucket_insert_set 4 sample_bucket 9 90); [lia|exact sample_bucket_inv|exact Hnd|].
  reflexivity.
Defined.

(** [MyRemove] (and [Remove]) on a consistent page: it returns true exactly
    when the pair is among those of [GetAllPairs]; then the first occurrence
    of the pair disappears and every other pair keeps its place; otherwise
    the page is unchanged.  When the pairs were pairwise distinct, the pair
    is no longer found afterwards. *)
Theorem bucket_remove (BUCKET_ARRAY_SIZE : Z) (b : HashTableBucketPage)
    (key : KeyType) (value : ValueType) :
  0 < BUCKET_ARRAY_SIZE → bucket_inv BUCKET_ARRAY_SIZE b →
  let r := (MyRemove BUCKET_ARRAY_SIZE b key value).1 in
  let b' := (MyRemove BUCKET_ARRAY_SIZE b key value).2 in
  bucket_inv BUCKET_ARRAY_SIZE b' ∧
  (r = true ↔ (key, value) ∈ GetAllPairs BUCKET_ARRAY_SIZE b) ∧
  (r = false → b' = b) ∧
  (r = true →
   ∃ front back : list MappingType,
     GetAllPairs BUCKET_ARRAY_SIZE b = front ++ (key, value) :: back ∧
     ((key, value) ∉ front) ∧
     GetAllPairs BUCKET_ARRAY_SIZE b' = front ++ back) ∧
  (NoDup (GetAllPairs BUCKET_ARRAY_SIZE b) →
   IsExist BUCKET_ARRAY_SIZE b' key value = false ∧
   NoDup (GetAllPairs BUCKET_ARRAY_SIZE b')).
Proof.
  intros Hpos Hinv. cbv zeta.
  destruct (MyRemove_pairs _ Hpos b key value Hinv)
    as [[Hnotin ->]|(b' & front & back & -> & Hinv' & Hold & Hfront & Hnew)]; simpl.
  - split_and!; try done.
    intros Hnd. split; [|done]. apply not_true_is_false.
    intros Hin%exist_scan_pairs. done.
  - split_and!; try done.
    + split; [|done]. intros _. rewrite Hold. apply elem_of_app. right. left.
    + eauto.
    + intros Hnd. rewrite Hold in Hnd. apply NoDup_app in Hnd as (Hnd1 & Hdisj & Hnd2).
      apply NoDup_cons in Hnd2 as [Hback Hnd2]. split.
      * apply not_true_is_false. intros Hin%exist_scan_pairs.
        fold (GetAllPairs BUCKET_ARRAY_SIZE b') in Hin. rewrite Hnew in Hin.
        apply elem_of_app in Hin as [?|?]; done.
      * rewrite Hnew. apply NoDup_app. split_and!; [done| |done].
        intros x Hx Hx'. apply (Hdisj x Hx). by right.
Qed.

Lemma bucket_remove_witness :
  0 < 4 ∧ bucket_inv 4 sample_bucket ∧
  (MyRemove 4 sample_bucket 5 50).1 = true ∧
  IsExist 4 (MyRemove 4 sample_bucket 5 50).2 5 50 = false.
Proof.
  split; [lia|]. split; [exact sample_bucket_inv|]. split; [reflexivity|].
  apply (bucket_remove 4 sample_bucket 5 50); [lia|exact sample_bucket_inv|].
  change (NoDup [(5, 50)]). apply NoDup_singleton.
Defined.

(** Round trip: when [Insert] has placed a pair, removing that pair gives
    back the pairs the page had before, in the same order. *)
Theorem bucket_insert_remove (BUCKET_ARRAY_SIZE : Z) (b b' : HashTableBucketPage)
    (key : KeyType) (value : ValueType) :
  0 < BUCKET_ARRAY_SIZE → bucket_inv BUCKET_ARRAY_SIZE b →
  Insert BUCKET_ARRAY_SIZE b key value = (true, b') →
  ∃ b'', MyRemove BUCKET_ARRAY_SIZE b' key value = (true, b'') ∧
         GetAllPairs BUCKET_ARRAY_SIZE b'' = GetAllPairs BUCKET_ARRAY_SIZE b ∧
         IsExist BUCKET_ARRAY_SIZE b' key value = true ∧
         IsExist BUCKET_ARRAY_SIZE b'' key value = false.
Proof.
  intros Hpos Hinv Hins. rewrite Insert_MyInsert in Hins by done.
  destruct (IsFull BUCKET_ARRAY_SIZE b) eqn:Hf; [done|]. simpl in Hins.
  destruct (IsExist BUCKET_ARRAY_SIZE b key value) eqn:He; [done|].
  assert ((key, value) ∉ GetAllPairs BUCKET_ARRAY_SIZE b) as Hnotin.
  { intros Hin%exist_scan_pairs. unfold IsExist in He. congruence. }
  destruct (MyInsert_pairs _ Hpos b key value Hinv)
    as [[? _]|(_ & b1 & front & back & Hr & Hinv' & Hold & Hnew)]; [congruence|].
  rewrite Hr in Hins. injection Hins as ->.
  assert ((key, value) ∈ GetAllPairs BUCKET_ARRAY_SIZE b') as Hin'
    by (rewrite Hnew; apply elem_of_app; right; left).
  destruct (MyRemove_pairs _ Hpos b' key value Hinv')
    as [[Hn _]|(b'' & front' & back' & Hrm & Hinv'' & Hold' & Hfront' & Hnew')]; [done|].
  rewrite Hnew in Hold'.
  destruct (app_pivot_unique (key, value) front back front' back') as [<- <-]; [|done|done|].
  { intros Hin. apply Hnotin. rewrite Hold. apply elem_of_app. by left. }
  exists b''. split; [done|]. split; [by rewrite Hnew', Hold|].
  split; [by apply exist_scan_pairs|].
  apply not_true_is_false. intros Hin%exist_scan_pairs.
  fold (GetAllPairs BUCKET_ARRAY_SIZE b'') in Hin. by rewrite Hnew', <- Hold in Hin.
Qed.

Lemma bucket_insert_remove_witness :
  0 < 4 ∧ bucket_inv 4 sample_bucket ∧
  ∃ b' b'', Insert 4 sample_bucket 9 90 = (true, b') ∧
            MyRemove 4 b' 9 90 = (true, b'') ∧
            GetAllPairs 4 b'' = GetAllPairs 4 sample_bucket.
Proof.
  split; [lia|]. split; [exact sample_bucket_inv|].
  destruct (bucket_insert_remove 4 sample_bucket (Insert 4 sample_bucket 9 90).2 9 90)
    as (b'' & Hrm & Hpairs & _); [lia|exact sample_bucket_inv|reflexivity|].
  exists (Insert 4 sample_bucket 9 90).2, b''.
  split; [reflexivity|]. split; [exact Hrm|exact Hpairs].
Defined.

(** [NumReadable] on a consistent page is the number of pairs that
    [GetAllPairs] returns, whether [char] is signed or not; [IsFull] holds
    exactly when it is [BUCKET_ARRAY_SIZE] and [IsEmpty] exactly when it is
    zero. *)
Theorem bucket_counts (BUCKET_ARRAY_SIZE : Z) (char_is_signed : bool)
    (b : HashTableBucketPage) :
  0 < BUCKET_ARRAY_SIZE → BUCKET_ARRAY_SIZE + 7 < 2 ^ 32 →
  bucket_inv BUCKET_ARRAY_SIZE b →
  NumReadable BUCKET_ARRAY_SIZE char_is_signed b =
    Z.of_nat (length (GetAllPairs BUCKET_ARRAY_SIZE b)) ∧
  (IsFull BUCKET_ARRAY_SIZE b = true ↔
   NumReadable BUCKET_ARRAY_SIZE char_is_signed b = BUCKET_ARRAY_SIZE) ∧
  (IsEmpty BUCKET_ARRAY_SIZE b = true ↔
   NumReadable BUCKET_ARRAY_SIZE char_is_signed b = 0).
Proof.
  intros Hpos Hsize Hinv.
  rewrite (NumReadable_pairs _ Hpos char_is_signed b Hinv Hsize).
  split; [done|]. split; [by apply IsFull_pairs|].
  rewrite (IsEmpty_pairs _ Hpos b Hinv).
  destruct (GetAllPairs BUCKET_ARRAY_SIZE b); simpl; split; (done || lia).
Qed.

Lemma bucket_counts_witness :
  0 < 4 ∧ 4 + 7 < 2 ^ 32 ∧ bucket_inv 4 sample_bucket ∧
  NumReadable 4 true sample_bucket = 1 ∧ NumReadable 4 false sample_bucket = 1.
Proof.
  split; [lia|]. split; [lia|]. split; [exact sample_bucket_inv|]. split.
  - apply (bucket_counts 4 true sample_bucket); [lia|lia|exact sample_bucket_inv].
  - apply (bucket_counts 4 false sample_bucket); [lia|lia|exact sample_bucket_inv].
Defined.

(** [Clear] on a page of the right shape, whatever its bits: afterwards the
    page is consistent, no slot is occupied or readable, [GetAllPairs]
    returns nothing, [IsEmpty] holds, [IsFull] does not, and the array of
    pairs is as it was. *)
Theorem bucket_clear (BUCKET_ARRAY_SIZE : Z) (b : HashTableBucketPage) :
  0 < BUCKET_ARRAY_SIZE → bucket_wf BUCKET_ARRAY_SIZE b →
  let c := Clear BUCKET_ARRAY_SIZE b in
  bucket_inv BUCKET_ARRAY_SIZE c ∧ array_ c = array_ b ∧
  (∀ i, 0 <= i → IsOccupied c i = false ∧ IsReadable c i = false) ∧
  GetAllPairs BUCKET_ARRAY_SIZE c = [] ∧
  IsEmpty BUCKET_ARRAY_SIZE c = true ∧ IsFull BUCKET_ARRAY_SIZE c = false.
Proof.
  intros Hpos Hw. cbv zeta.
  destruct (Clear_spec _ Hpos b Hw) as (H1 & H2 & H3).
  destruct (Clear_pairs _ Hpos b Hw) as (H4 & H5 & H6). done.
Qed.

Lemma bucket_clear_witness :
  0 < 4 ∧ bucket_wf 4 sample_bucket ∧
  GetAllPairs 4 (Clear 4 sample_bucket) = [] ∧ IsEmpty 4 (Clear 4 sample_bucket) = true.
Proof.
  split; [lia|]. split; [apply sample_bucket_inv|].
  split; apply (bucket_clear 4 sample_bucket); (lia || apply sample_bucket_inv).
Defined.

End BucketOps.

(** ** The hash table as a container

    [Insert], [Remove] and [GetValue] of extendible_hash_table.cpp on tables
    whose bucket pages are consistent. *)

Module HTOps.

Import Bucket BucketOps HT.

Section contents.

Variable MAX_DEPTH : Z.
Variable BUCKET_ARRAY_SIZE : Z.
Variable hash_fn : KeyType → Z.
Hypothesis max_depth_nonneg : 0 <= MAX_DEPTH.
Hypothesis size_pos : 0 < BUCKET_ARRAY_SIZE.

Local Abbreviation pairs := (GetAllPairs BUCKET_ARRAY_SIZE).
Local Abbreviation Hash := (Hash hash_fn).

(** A bucket page in a state the table's operations produce: consistent
    bitmaps and no pair held twice. *)
Definition bucket_good (b : HashTableBucketPage) : Prop :=
  bucket_inv BUCKET_ARRAY_SIZE b ∧ NoDup (pairs b).

Definition pages_good (t : ExtendibleHashTable) : Prop :=
  ∀ p b, bucket_pages t !! p = Some b → bucket_good b.

Definition table_inv (t : ExtendibleHashTable) : Prop :=
  table_wf MAX_DEPTH t ∧ pages_good t.

(** The values under [key] among the pairs of a bucket page. *)
Definition values_in (key : KeyType) (b : HashTableBucketPage) : list ValueType :=
  (filter (λ kv, kv.1 = key) (pairs b)).*2.

(** The bucket page that serves [key]. *)
Definition key_page (key : KeyType) (t : ExtendibleHashTable) : option HashTableBucketPage :=
  bucket_pages t !! KeyToPageId hash_fn key (dir_page t).

Lemma zero_page_good : bucket_good (zero_page BUCKET_ARRAY_SIZE).
Proof.
  pose proof (zero_page_inv _ size_pos) as Hinv. split; [done|].
  rewrite GetAllPairs_pairs_in by done.
  rewrite (proj2 (pairs_in_nil _ 0 BUCKET_ARRAY_SIZE)); [constructor|].
  intros i Hi. rewrite IsReadable_testbit by lia. unfold byte_at. simpl.
  destruct (replicate _ 0 !! _) as [x|] eqn:E; simpl; [|apply Z.bits_0].
  apply lookup_replicate in E as [-> _]. apply Z.bits_0.
Qed.

Lemma Clear_good b : bucket_good b → bucket_good (Clear BUCKET_ARRAY_SIZE b) ∧
                                   pairs (Clear BUCKET_ARRAY_SIZE b) = [].
Proof.
  intros [(Hw & _) _].
  destruct (Clear_spec _ size_pos b Hw) as (Hinv & _).
  destruct (Clear_pairs _ size_pos b Hw) as (Hnil & _).
  split; [|done]. split; [done|]. rewrite Hnil. constructor.
Qed.

Lemma MyInsert_good b key value :
  bucket_good b → ((key, value) ∉ pairs b) →
  bucket_good (MyInsert BUCKET_ARRAY_SIZE b key value).2 ∧
  ∀ kv, kv ∈ pairs (MyInsert BUCKET_ARRAY_SIZE b key value).2 →
        kv = (key, value) ∨ kv ∈ pairs b.
Proof.
  intros [Hinv Hnd] Hnotin.
  destruct (MyInsert_pairs _ size_pos b key value Hinv)
    as [[_ ->]|(_ & b' & front & back & -> & Hinv' & Hold & Hnew)]; simpl.
  - split; [done|]. auto.
  - split.
    + split; [done|]. rewrite Hnew. rewrite Hold in Hnd, Hnotin.
      rewrite <- Permutation_middle. by constructor.
    + intros kv. rewrite Hnew, Hold, !elem_of_app, elem_of_cons. tauto.
Qed.


(** The rehash loop of a split puts pairwise distinct pairs into two pages
    that hold none of them. *)
Lemma rehash_good mask index : ∀ (res : list MappingType) bp ip,
  bucket_good bp → bucket_good ip → NoDup res →
  (∀ kv, kv ∈ pairs bp → kv ∉ res) → (∀ kv, kv ∈ pairs ip → kv ∉ res) →
  bucket_good (rehash BUCKET_ARRAY_SIZE hash_fn mask index res bp ip).1 ∧
  bucket_good (rehash BUCKET_ARRAY_SIZE hash_fn mask index res bp ip).2 ∧
  (∀ kv, kv ∈ pairs (rehash BUCKET_ARRAY_SIZE hash_fn mask index res bp ip).1 →
         kv ∈ pairs bp ∨ kv ∈ res) ∧
  (∀ kv, kv ∈ pairs (rehash BUCKET_ARRAY_SIZE hash_fn mask index res bp ip).2 →
         kv ∈ pairs ip ∨ kv ∈ res).
Proof.
  unfold rehash.
  induction res as [|kv res IH]; intros bp ip Hbp Hip Hnd Hb Hi.
  { simpl. split_and!; auto. }
  destruct kv as [k v]. apply NoDup_cons in Hnd as [Hkv Hnd]. cbn [foldl fst snd].
  destruct (Z.land (Hash k) mask =? index).
  - destruct (MyInsert_good bp k v Hbp) as [Hgood Hsub].
    { intros Hin. apply (Hb _ Hin). left. }
    destruct (IH (MyInsert BUCKET_ARRAY_SIZE bp k v).2 ip) as (G1 & G2 & S1 & S2);
      [done|done|done| | |].
    + intros kv [->|Hin]%Hsub; [done|]. intros Hr. apply (Hb _ Hin). by right.
    + intros kv Hin Hr. apply (Hi _ Hin). by right.
    + split_and!; [done|done| |].
      * intros kv [[->|?]%Hsub|?]%S1; [right; left|by left|right; by right].
      * intros kv [?|?]%S2; [by left|right; by right].
  - destruct (MyInsert_good ip k v Hip) as [Hgood Hsub].
    { intros Hin. apply (Hi _ Hin). left. }
    destruct (IH bp (MyInsert BUCKET_ARRAY_SIZE ip k v).2) as (G1 & G2 & S1 & S2);
      [done|done|done| | |].
    + intros kv Hin Hr. apply (Hb _ Hin). by right.
    + intros kv [->|Hin]%Hsub; [done|]. intros Hr. apply (Hi _ Hin). by right.
    + split_and!; [done|done| |].
      * intros kv [?|?]%S1; [by left|right; by right].
      * intros kv [[->|?]%Hsub|?]%S2; [right; left|by left|right; by right].
Qed.

Lemma zero_page_pairs : pairs (zero_page BUCKET_ARRAY_SIZE) = [].
Proof.
  pose proof (zero_page_inv _ size_pos) as Hinv.
  rewrite GetAllPairs_pairs_in by done.
  apply pairs_in_nil. intros i Hi. rewrite IsReadable_testbit by lia. unfold byte_at. simpl.
  destruct (replicate _ 0 !! _) as [x|] eqn:E; simpl; [|apply Z.bits_0].
  apply lookup_replicate in E as [-> _]. apply Z.bits_0.
Qed.

(** Where a key is looked up: the slot of its hash under the global mask,
    and any slot that agrees with it on the low bits the bucket's local
    depth covers. *)
Lemma key_slot_class d key i :
  dir_wf MAX_DEPTH d → 0 <= i < Size d →
  Hash key mod 2 ^ GetLocalDepth d i = i mod 2 ^ GetLocalDepth d i →
  KeyToPageId hash_fn key d = GetBucketPageId d i.
Proof.
  intros Hwf Hi Hclass.
  destruct (dir_wf_bounds _ max_depth_nonneg d Hwf) as (Hg & HS & _).
  pose proof (key_index_bound _ max_depth_nonneg hash_fn key d Hwf) as Hk.
  destruct Hwf as (_ & _ & _ & Hb & Hc & _). rewrite HS in *.
  unfold KeyToPageId, KeyToDirectoryIndex in *.
  set (s := Z.land _ _) in *.
  apply (Hc i s); [done|done|]. unfold s, GetGlobalDepthMask.
  rewrite land_mask by (unfold GetGlobalDepth in Hg; lia).
  rewrite mod_pow2_alias; [done|]. specialize (Hb i Hi). unfold GetGlobalDepth in *. lia.
Qed.

Lemma key_slot_class_inv d key i :
  dir_wf MAX_DEPTH d → 0 <= i < Size d →
  KeyToPageId hash_fn key d = GetBucketPageId d i →
  Hash key mod 2 ^ GetLocalDepth d i = i mod 2 ^ GetLocalDepth d i.
Proof.
  intros Hwf Hi Hpage.
  destruct (dir_wf_bounds _ max_depth_nonneg d Hwf) as (Hg & HS & _).
  pose proof (key_index_bound _ max_depth_nonneg hash_fn key d Hwf) as Hk.
  destruct Hwf as (_ & _ & _ & Hb & _ & Hu). rewrite HS in *.
  unfold KeyToPageId, KeyToDirectoryIndex in *.
  set (s := Z.land _ _) in *.
  pose proof (Hu i s Hi Hk (eq_sym Hpage)) as Hs. unfold s, GetGlobalDepthMask in Hs.
  rewrite land_mask in Hs by (unfold GetGlobalDepth in Hg; lia).
  rewrite mod_pow2_alias in Hs; [done|]. specialize (Hb i Hi). unfold GetGlobalDepth in *. lia.
Qed.

(** One iteration of the loop of [SplitInsert]: the pages stay good, and
    the page the loop goes on with is the one that serves [key]. *)
Lemma split_step_inv key index bucket_page_id bucket_page t index' bucket_page_id' t' :
  table_wf MAX_DEPTH t → pages_good t → 0 <= index < Size (dir_page t) →
  GetBucketPageId (dir_page t) index = bucket_page_id →
  bucket_pages t !! bucket_page_id = Some bucket_page →
  KeyToPageId hash_fn key (dir_page t) = bucket_page_id →
  split_step MAX_DEPTH BUCKET_ARRAY_SIZE hash_fn key index bucket_page_id bucket_page t
    = Done (index', bucket_page_id', t') →
  pages_good t' ∧ KeyToPageId hash_fn key (dir_page t') = bucket_page_id' ∧
  ∃ b', bucket_pages t' !! bucket_page_id' = Some b' ∧
        ∀ kv, kv ∈ pairs b' → kv ∈ pairs bucket_page.
Proof.
  intros (Hd & He & Hn & Hdn & Hdd) Hgood Hidx Hbid Hpage Hkey.
  unfold split_step, NewPage.
  set (p := next_page_id_ t).
  set (t0 := emit (EvNewPage p) _).
  assert (dir_page t0 = dir_page t) as Hd0 by done.
  assert (bucket_page_id < p) as Hlt by (apply Hn; by rewrite Hpage).
  assert (∀ i, 0 <= i < Size (dir_page t0) → GetBucketPageId (dir_page t0) i ≠ p) as Hfresh.
  { intros i Hi Heq. change (dir_page t0) with (dir_page t) in Hi, Heq.
    apply He in Hi. rewrite Heq in Hi. apply Hn in Hi. unfold p in Hi. lia. }
  pose proof (split_directory_spec _ max_depth_nonneg t0 index p) as Hspec.
  rewrite Hd0 in Hspec, Hfresh. cbv zeta in Hspec. rewrite Hd0.
  destruct Hspec as [(Hk & Hg & ->)|(t1 & -> & (F1 & F2 & F3) & Hwf' & Him & Hsz & Hb1 & Hb2 & Hl1 & Hl2 & Hold)];
    [done|done|done|congruence|].
  set (k := GetLocalDepth (dir_page t) index) in *.
  set (image := Z.lxor index (Z.shiftl 1 k)) in *.
  destruct (dir_wf_bounds _ max_depth_nonneg _ Hd) as (Hg & HS & HSz).
  destruct (dir_wf_bounds _ max_depth_nonneg _ Hwf') as (Hg' & HS' & _).
  assert (0 <= k <= GetGlobalDepth (dir_page t)) as Hk.
  { pose proof Hd as (_ & _ & _ & Hb & _). apply Hb. lia. }
  assert (0 <= k + 1 <= GetGlobalDepth (dir_page t1)) as Hk'.
  { destruct Hwf' as (_ & _ & _ & Hb & _). rewrite <- Hl1. apply Hb. lia. }
  (* the pages *)
  pose proof (Hgood _ _ Hpage) as [Hbinv Hbnd].
  destruct (Clear_good bucket_page (conj Hbinv Hbnd)) as [Hclear Hclear_nil].
  pose proof (rehash_good (GetLocalDepthMask (dir_page (w_IncrLocalDepth index t0)) index)
                index (pairs bucket_page) (Clear BUCKET_ARRAY_SIZE bucket_page)
                (zero_page BUCKET_ARRAY_SIZE) Hclear zero_page_good Hbnd)
    as (Hbp & Hip & Hsubb & Hsubi).
  { intros kv. rewrite Hclear_nil. by intros ?%elem_of_nil. }
  { intros kv. rewrite zero_page_pairs. by intros ?%elem_of_nil. }
  destruct (rehash _ _ _ _ _ _ _) as [bp ip]. simpl in Hbp, Hip, Hsubb, Hsubi.
  rewrite Hclear_nil in Hsubb. rewrite zero_page_pairs in Hsubi.
  set (t2 := set_bucket p ip (set_bucket bucket_page_id bp t1)).
  assert (pages_good t2) as Hgood2.
  { intros q b. simpl. rewrite F2. simpl.
    rewrite !lookup_insert_Some. intros [[_ <-]|[_ [[_ <-]|[_ [[_ <-]|[_ Hq]]]]]]; try done.
    - apply zero_page_good.
    - by apply (Hgood q). }
  (* the slot of the key *)
  assert (image = Z.lxor index (2 ^ k)) as Himage
    by (unfold image; by rewrite shiftl1 by lia).
  assert (Hash key mod 2 ^ k = index mod 2 ^ k) as Hclass.
  { apply (key_slot_class_inv (dir_page t) key index); [done|done|congruence]. }
  assert (Z.land (Hash key) (GetLocalDepthMask (dir_page (w_IncrLocalDepth index t0)) index)
          = Hash key mod 2 ^ (k + 1)) as Hmask.
  { unfold GetLocalDepthMask. simpl. unfold IncrLocalDepth.
    pose proof Hd as ((Hlen & _) & _).
    rewrite GetLocalDepth_Set, decide_True by (done || lia).
    apply land_mask. lia. }
  rewrite Hmask. change (dir_page (emit ?e t2)) with (dir_page t1).
  change (dir_page t2) with (dir_page t1).
  assert (0 <= Hash key mod 2 ^ (k + 1) < Size (dir_page t1)) as Hs1.
  { rewrite HS'. pose proof (Z.mod_pos_bound (Hash key) (2 ^ (k + 1)) ltac:(apply pow2_pos; lia)).
    pose proof (pow2_le (k + 1) (GetGlobalDepth (dir_page t1)) ltac:(lia)). lia. }
  assert (0 <= index < Size (dir_page t1)) as Hidx' by lia.
  pose proof Hwf' as (_ & _ & _ & _ & Hc' & _). rewrite <- HS' in Hc'.
  destruct (class_split index (Hash key) k ltac:(lia) Hclass) as [Hsame|Hother].
  - (* the key stays with the split page *)
    assert (GetBucketPageId (dir_page t1) (Hash key mod 2 ^ (k + 1)) = bucket_page_id) as Hto.
    { destruct (Hc' index (Hash key mod 2 ^ (k + 1))) as [-> _]; [done|done| |congruence].
      rewrite Hl1, Z.mod_mod; [done|]. apply Z.pow_nonzero; lia. }
    rewrite Hto, Z.eqb_refl. intros [= <- <- <-]. split; [done|].
    change (dir_page (emit ?e t2)) with (dir_page t1). split.
    + rewrite (key_slot_class (dir_page t1) key index); [congruence|done|done|].
      by rewrite Hl1.
    + exists bp. simpl. rewrite lookup_insert_ne by lia. rewrite lookup_insert_eq.
      split; [done|]. intros kv [?%elem_of_nil|?]%Hsubb; done.
  - (* the key goes with the image page *)
    rewrite <- Himage in Hother.
    assert (GetBucketPageId (dir_page t1) (Hash key mod 2 ^ (k + 1)) = p) as Hto.
    { destruct (Hc' image (Hash key mod 2 ^ (k + 1))) as [-> _]; [done|done| |done].
      rewrite Hl2, Z.mod_mod; [done|]. apply Z.pow_nonzero; lia. }
    rewrite Hto. destruct (Z.eqb_spec p bucket_page_id) as [?|_]; [lia|].
    intros [= <- <- <-]. split; [done|].
    change (dir_page (emit ?e t2)) with (dir_page t1). split.
    + rewrite (key_slot_class (dir_page t1) key image); [done|done|done|].
      by rewrite Hl2.
    + exists ip. simpl. rewrite lookup_insert_eq.
      split; [done|]. intros kv [?%elem_of_nil|?]%Hsubi; done.
Qed.

Lemma split_loop_inv key : ∀ fuel index bucket_page_id is_dir_dirty t bucket_page_id' is_dir_dirty' t',
  table_inv t → 0 <= index < Size (dir_page t) →
  GetBucketPageId (dir_page t) index = bucket_page_id →
  KeyToPageId hash_fn key (dir_page t) = bucket_page_id →
  split_loop MAX_DEPTH BUCKET_ARRAY_SIZE hash_fn fuel key index bucket_page_id is_dir_dirty t
    = Done (bucket_page_id', is_dir_dirty', t') →
  table_inv t' ∧ KeyToPageId hash_fn key (dir_page t') = bucket_page_id' ∧
  directory_page_id_ t' = directory_page_id_ t ∧
  ∃ b b', bucket_pages t !! bucket_page_id = Some b ∧
          bucket_pages t' !! bucket_page_id' = Some b' ∧
          IsFull BUCKET_ARRAY_SIZE b' = false ∧
          ∀ kv, kv ∈ pairs b' → kv ∈ pairs b.
Proof.
  induction fuel as [|fuel IH]; intros index bpid dirty t bpid' dirty' t' [Hwf Hgood] Hidx Hbid Hkey.
  - cbn [split_loop]. destruct (bucket_pages t !! bpid) as [b|] eqn:Hb; [|done].
    destruct (IsFull BUCKET_ARRAY_SIZE b) eqn:Hf; [done|].
    intros [= <- <- <-]. split; [by split|]. split; [done|]. split; [done|]. eauto 10.
  - cbn [split_loop]. destruct (bucket_pages t !! bpid) as [b|] eqn:Hb; [|done].
    destruct (IsFull BUCKET_ARRAY_SIZE b) eqn:Hf.
    2:{ intros [= <- <- <-]. split; [by split|]. split; [done|]. split; [done|]. eauto 10. }
    pose proof (split_step_wf _ max_depth_nonneg BUCKET_ARRAY_SIZE hash_fn key index bpid b t
                  Hwf Hidx Hbid) as Hstep.
    destruct (split_step _ _ _ _ _ _ _ _) as [[[index1 bpid1] t1]| | |] eqn:Hs; try done.
    destruct Hstep as (Hwf1 & Hidx1 & Hbid1 & Hdir1 & _).
    destruct (split_step_inv key index bpid b t index1 bpid1 t1)
      as (Hgood1 & Hkey1 & b1 & Hb1 & Hsub1); try done.
    intros Hloop.
    destruct (IH index1 bpid1 true t1 bpid' dirty' t')
      as (Hinv' & Hkey' & Hdir' & b1' & b' & Hb1' & Hb' & Hf' & Hsub'); try done.
    split; [done|]. split; [done|]. split; [congruence|].
    exists b, b'. split_and!; [done|done|done|].
    intros kv Hkv. apply Hsub1. rewrite Hb1 in Hb1'. injection Hb1' as <-. by apply Hsub'.
Qed.

Lemma elem_values_in key value b :
  value ∈ values_in key b ↔ (key, value) ∈ pairs b.
Proof.
  unfold values_in. rewrite list_elem_of_fmap. split.
  - intros ([k v] & -> & [Hk Hin]%list_elem_of_filter). simpl in *. by subst.
  - intros Hin. exists (key, value). split; [done|]. by apply list_elem_of_filter.
Qed.

Lemma IsExist_values key value b :
  IsExist BUCKET_ARRAY_SIZE b key value = bool_decide (value ∈ values_in key b).
Proof.
  apply eq_true_iff_eq. rewrite bool_decide_eq_true, elem_values_in.
  apply exist_scan_pairs.
Qed.

Lemma table_inv_emit e t : table_inv t → table_inv (emit e t).
Proof. intros [Hwf Hgood]. split; [by apply table_wf_emit|done]. Qed.

Lemma table_inv_set_bucket p b t :
  table_inv t → is_Some (bucket_pages t !! p) → bucket_good b →
  table_inv (set_bucket p b t).
Proof.
  intros [Hwf Hgood] Hp Hb. split; [by apply table_wf_set_bucket|].
  intros q b'. simpl. rewrite lookup_insert_Some. intros [[_ <-]|[_ Hq]]; [done|].
  by apply (Hgood q).
Qed.

Lemma values_of_spec key t b :
  key_page key t = Some b →
  values_of BUCKET_ARRAY_SIZE hash_fn key t = Some (values_in key b).
Proof.
  unfold key_page, KeyToPageId, KeyToDirectoryIndex, values_of, GetValue. cbv zeta.
  change (bucket_pages (emit ?e t)) with (bucket_pages t).
  change (dir_page (emit ?e t)) with (dir_page t).
  intros ->. unfold MyGetValue. cbv zeta. unfold values_in, GetAllPairs.
  by rewrite get_value_scan_pairs.
Qed.

Lemma key_page_Some key t : table_wf MAX_DEPTH t → is_Some (key_page key t).
Proof.
  intros (Hd & He & _). apply He.
  apply (key_index_bound _ max_depth_nonneg hash_fn key _ Hd).
Qed.

Lemma SplitInsert_spec key value t b :
  table_inv t → key_page key t = Some b →
  match SplitInsert MAX_DEPTH BUCKET_ARRAY_SIZE hash_fn key value t with
  | Done (r, t') =>
      table_inv t' ∧ directory_page_id_ t' = directory_page_id_ t ∧
      r = negb (IsExist BUCKET_ARRAY_SIZE b key value) ∧
      (r = false → bucket_pages t' = bucket_pages t ∧ dir_page t' = dir_page t) ∧
      ∃ b', key_page key t' = Some b' ∧ (key, value) ∈ pairs b'
  | DirectoryOverflow => IsExist BUCKET_ARRAY_SIZE b key value = false
  | _ => False
  end.
Proof.
  intros Hinv Hpage. pose proof Hinv as [Hwf Hgood].
  pose proof (SplitInsert_wf _ max_depth_nonneg BUCKET_ARRAY_SIZE hash_fn key value t Hwf)
    as Hwfres.
  revert Hwfres. unfold SplitInsert.
  set (t0 := emit _ t). change (dir_page t0) with (dir_page t).
  change (bucket_pages t0) with (bucket_pages t).
  unfold key_page, KeyToPageId, KeyToDirectoryIndex in Hpage.
  set (index := Z.land _ _) in *. rewrite Hpage.
  destruct (IsExist BUCKET_ARRAY_SIZE b key value) eqn:Hex; simpl.
  - intros _. split; [by do 3 apply table_inv_emit|]. split; [done|]. split; [done|].
    split; [done|]. exists b. split; [done|]. by apply exist_scan_pairs.
  - pose proof Hwf as (Hd & _).
    pose proof (key_index_bound _ max_depth_nonneg hash_fn key _ Hd) as Hidx.
    fold index in Hidx.
    set (t1 := emit (EvFetchPage (GetBucketPageId (dir_page t) index)) t0).
    destruct (split_loop _ _ _ _ _ _ _ _ _) as [[[bpid' dirty'] t']| | |] eqn:Hloop;
      try done.
    destruct (split_loop_inv key (Z.to_nat MAX_DEPTH + 2) index
                (GetBucketPageId (dir_page t) index) false t1 bpid' dirty' t')
      as (Hinv' & Hkey' & Hdir' & b0 & b' & Hb0 & Hb' & Hfull' & Hsub');
      [by do 2 apply table_inv_emit|done|done|done|done|].
    change (bucket_pages t1) with (bucket_pages t) in Hb0.
    rewrite Hpage in Hb0. injection Hb0 as <-.
    rewrite Hb'. pose proof Hinv' as [Hwf' Hgood'].
    pose proof (Hgood' _ _ Hb') as Hb'good.
    assert ((key, value) ∉ pairs b') as Hnotin.
    { intros Hin%Hsub'%exist_scan_pairs. unfold IsExist in Hex. congruence. }
    destruct (MyInsert_good b' key value Hb'good Hnotin) as [Hgood'' _].
    destruct (MyInsert_pairs _ size_pos b' key value (proj1 Hb'good))
      as [[? _]|(_ & b'' & front & back & Hmi & _ & _ & Hnew)]; [congruence|].
    rewrite Hmi in Hgood'' |- *. simpl in Hgood''. intros _.
    split; [|split; [done|split; [done|split; [done|]]]].
    + do 2 apply table_inv_emit. apply table_inv_set_bucket; [done|by rewrite Hb'|done].
    + exists b''. split.
      * unfold key_page. simpl. rewrite Hkey'. apply lookup_insert_eq.
      * rewrite Hnew. apply elem_of_app. right. left.
Qed.

Lemma Insert_spec key value t b :
  table_inv t → key_page key t = Some b →
  match Insert MAX_DEPTH BUCKET_ARRAY_SIZE hash_fn key value t with
  | Done (r, t') =>
      table_inv t' ∧ directory_page_id_ t' = directory_page_id_ t ∧
      r = negb (IsExist BUCKET_ARRAY_SIZE b key value) ∧
      (r = false → bucket_pages t' = bucket_pages t ∧ dir_page t' = dir_page t) ∧
      ∃ b', key_page key t' = Some b' ∧ (key, value) ∈ pairs b'
  | DirectoryOverflow =>
      IsExist BUCKET_ARRAY_SIZE b key value = false ∧ IsFull BUCKET_ARRAY_SIZE b = true
  | _ => False
  end.
Proof.
  intros Hinv Hpage. pose proof Hinv as [Hwf Hgood].
  pose proof (Hgood _ _ Hpage) as Hbgood.
  unfold Insert.
  set (t0 := emit _ t). change (dir_page t0) with (dir_page t).
  change (bucket_pages t0) with (bucket_pages t).
  pose proof Hpage as Hpage'.
  unfold key_page, KeyToPageId, KeyToDirectoryIndex in Hpage'.
  set (index := Z.land _ _) in *. rewrite Hpage'.
  destruct (IsExist BUCKET_ARRAY_SIZE b key value) eqn:Hex; simpl.
  - split; [by do 4 apply table_inv_emit|]. split; [done|]. split; [done|].
    split; [done|]. exists b. split; [done|]. by apply exist_scan_pairs.
  - assert ((key, value) ∉ pairs b) as Hnotin.
    { intros Hin%exist_scan_pairs. unfold IsExist in Hex. congruence. }
    destruct (MyInsert_good b key value Hbgood Hnotin) as [Hgood' _].
    destruct (MyInsert_pairs _ size_pos b key value (proj1 Hbgood))
      as [[Hfull Hmi]|(_ & b' & front & back & Hmi & _ & _ & Hnew)];
      rewrite Hmi in Hgood' |- *; simpl in *.
    + set (t2 := emit _ (emit _ (emit _ t0))).
      pose proof (SplitInsert_spec key value t2 b) as Hs.
      destruct (SplitInsert _ _ _ _ _ _) as [[r t']| | |]; try done.
      * destruct Hs as (H1 & H2 & H3 & H4 & H5); [by do 4 apply table_inv_emit|done|].
        rewrite Hex in H3. done.
      * apply Hs; [by do 4 apply table_inv_emit|done].
      * apply Hs; [by do 4 apply table_inv_emit|done].
    + split; [|split; [done|split; [done|split; [done|]]]].
      * apply table_inv_emit, table_inv_set_bucket; [|simpl; by rewrite Hpage'|done].
        by do 3 apply table_inv_emit.
      * exists b'. split.
        -- unfold key_page, KeyToPageId, KeyToDirectoryIndex. simpl. apply lookup_insert_eq.
        -- rewrite Hnew. apply elem_of_app. right. left.
Qed.

(** An [Insert] that does not have to split: the page of the key gains the
    pair and nothing else changes. *)
Lemma Insert_fast key value t b :
  table_inv t → key_page key t = Some b →
  IsExist BUCKET_ARRAY_SIZE b key value = false → IsFull BUCKET_ARRAY_SIZE b = false →
  ∃ t' b' (front back : list MappingType),
    Insert MAX_DEPTH BUCKET_ARRAY_SIZE hash_fn key value t = Done (true, t') ∧
    dir_page t' = dir_page t ∧ next_page_id_ t' = next_page_id_ t ∧
    bucket_pages t' = <[ KeyToPageId hash_fn key (dir_page t) := b' ]> (bucket_pages t) ∧
    pairs b = front ++ back ∧ pairs b' = front ++ (key, value) :: back.
Proof.
  intros Hinv Hpage Hex Hfull. pose proof Hinv as [Hwf Hgood].
  pose proof (Hgood _ _ Hpage) as Hbgood.
  unfold Insert.
  set (t0 := emit _ t). change (dir_page t0) with (dir_page t).
  change (bucket_pages t0) with (bucket_pages t).
  pose proof Hpage as Hpage'.
  unfold key_page, KeyToPageId, KeyToDirectoryIndex in Hpage'.
  unfold KeyToPageId, KeyToDirectoryIndex.
  set (index := Z.land _ _) in *. rewrite Hpage', Hex. simpl.
  destruct (MyInsert_pairs _ size_pos b key value (proj1 Hbgood))
    as [[? _]|(_ & b' & front & back & Hmi & _ & Hold & Hnew)]; [congruence|].
  rewrite Hmi. simpl. eexists _, b', front, back. split; [done|]. done.
Qed.








Lemma new_table_inv first_id :
  table_inv (new_table MAX_DEPTH BUCKET_ARRAY_SIZE first_id).
Proof.
  split; [by apply new_table_wf|].
  intros p b. unfold new_table. simpl.
  intros [_ <-]%lookup_singleton_Some. apply zero_page_good.
Qed.


Lemma values_in_NoDup key b : NoDup (pairs b) → NoDup (values_in key b).
Proof.
  unfold values_in. generalize (pairs b). intros l.
  induction l as [|[k v] l IH]; intros Hnd; [constructor|].
  apply NoDup_cons in Hnd as [Hkv Hnd]. rewrite filter_cons. simpl.
  destruct (decide (k = key)) as [->|]; [|by apply IH].
  rewrite fmap_cons. simpl. constructor; [|by apply IH].
  intros ([k' v'] & -> & [Hk Hin]%list_elem_of_filter)%list_elem_of_fmap.
  simpl in *. by subst.
Qed.

Lemma values_in_other key key' value (front back : list MappingType) :
  key' ≠ key →
  (filter (λ kv : MappingType, kv.1 = key') (front ++ (key, value) :: back)).*2 =
  (filter (λ kv : MappingType, kv.1 = key') (front ++ back)).*2.
Proof.
  intros Hne. rewrite !filter_app, filter_cons. simpl.
  by rewrite decide_False by congruence.
Qed.

Lemma values_in_same key value (front back : list MappingType) :
  (filter (λ kv : MappingType, kv.1 = key) (front ++ (key, value) :: back)).*2 =
  (filter (λ kv : MappingType, kv.1 = key) front).*2 ++
  value :: (filter (λ kv : MappingType, kv.1 = key) back).*2.
Proof.
  rewrite !filter_app, filter_cons. simpl.
  rewrite decide_True by done. by rewrite fmap_app, fmap_cons.
Qed.


Lemma key_page_insert key key' t t' b' :
  dir_page t' = dir_page t →
  bucket_pages t' = <[ KeyToPageId hash_fn key (dir_page t) := b' ]> (bucket_pages t) →
  key_page key' t' =
    if decide (KeyToPageId hash_fn key' (dir_page t) = KeyToPageId hash_fn key (dir_page t))
    then Some b' else key_page key' t.
Proof.
  intros Hd Hp. unfold key_page. rewrite Hd, Hp.
  destruct (decide _) as [->|Hne]; [apply lookup_insert_eq|by apply lookup_insert_ne].
Qed.

End contents.



(** [Insert] on a good table, whichever path it takes: it returns true
    exactly when [GetValue] did not return the value for the key before; when
    it completes, a following [GetValue] of the key returns the value, once;
    when it returns false the pages and the directory are untouched.  It
    fails to complete only when the value is new and the bucket of the key
    is full. *)
Theorem insert_then_get (MAX_DEPTH BUCKET_ARRAY_SIZE : Z) (hash_fn : KeyType → Z)
    (key : KeyType) (value : ValueType) (t : ExtendibleHashTable) :
  0 <= MAX_DEPTH → 0 < BUCKET_ARRAY_SIZE →
  table_inv MAX_DEPTH BUCKET_ARRAY_SIZE t →
  ∃ vs, values_of BUCKET_ARRAY_SIZE hash_fn key t = Some vs ∧ NoDup vs ∧
    match Insert MAX_DEPTH BUCKET_ARRAY_SIZE hash_fn key value t with
    | Done (r, t') =>
        table_inv MAX_DEPTH BUCKET_ARRAY_SIZE t' ∧
        r = negb (bool_decide (value ∈ vs)) ∧
        (r = false → bucket_pages t' = bucket_pages t ∧ dir_page t' = dir_page t) ∧
        ∃ vs', values_of BUCKET_ARRAY_SIZE hash_fn key t' = Some vs' ∧
               value ∈ vs' ∧ NoDup vs'
    | DirectoryOverflow =>
        (value ∉ vs) ∧
        ∃ b, key_page hash_fn key t = Some b ∧ IsFull BUCKET_ARRAY_SIZE b = true
    | _ => False
    end.
Proof.
  intros Hmax Hpos Hinv.
  destruct (key_page_Some MAX_DEPTH hash_fn Hmax key t (proj1 Hinv)) as [b Hb].
  exists (values_in BUCKET_ARRAY_SIZE key b).
  split; [by apply values_of_spec|].
  split; [apply values_in_NoDup, (proj2 Hinv _ _ Hb)|].
  pose proof (Insert_spec MAX_DEPTH BUCKET_ARRAY_SIZE hash_fn Hmax Hpos key value t b Hinv Hb)
    as Hi.
  rewrite <- IsExist_values.
  destruct (Insert _ _ _ _ _ _) as [[r t']| | |]; try done.
  - destruct Hi as (Hinv' & _ & Hr & Hsame & b' & Hb' & Hin').
    split; [done|]. split; [done|]. split; [done|].
    exists (values_in BUCKET_ARRAY_SIZE key b'). split; [by apply values_of_spec|].
    split; [by apply elem_values_in|]. apply values_in_NoDup, (proj2 Hinv' _ _ Hb').
  - destruct Hi as [Hex Hfull]. split; [|eauto].
    rewrite IsExist_values in Hex. by apply bool_decide_eq_false in Hex.
Qed.

Lemma insert_then_get_witness :
  0 <= 9 ∧ 0 < 4 ∧ table_inv 9 4 (new_table 9 4 0) ∧
  ∃ t' vs', Insert 9 4 (λ k, k) 5 50 (new_table 9 4 0) = Done (true, t') ∧
            values_of 4 (λ k, k) 5 t' = Some vs' ∧ 50 ∈ vs'.
Proof.
  assert (table_inv 9 4 (new_table 9 4 0)) as Hinv by (apply new_table_inv; lia).
  split; [lia|]. split; [lia|]. split; [exact Hinv|].
  destruct (insert_then_get 9 4 (λ k, k) 5 50 (new_table 9 4 0)) as (vs & _ & _ & Hins);
    [lia|lia|exact Hinv|].
  destruct (Insert 9 4 (λ k, k) 5 50 (new_table 9 4 0)) as [[r t']| | |] eqn:Hrun.
  - destruct Hins as (_ & _ & _ & vs' & Hvs' & Hin & _).
    exists t', vs'. split; [|split; [exact Hvs'|exact Hin]].
    vm_compute in Hrun. injection Hrun as <- _. reflexivity.
  - vm_compute in Hrun. discriminate Hrun.
  - destruct Hins.
  - destruct Hins.
Defined.

(** An [Insert] of a new value into a bucket that is not full: it returns
    true, the values of the key gain the value at one position, the values of
    every other key are as before, the directory is as before and no page is
    allocated. *)
Theorem insert_without_split (MAX_DEPTH BUCKET_ARRAY_SIZE : Z) (hash_fn : KeyType → Z)
    (key : KeyType) (value : ValueType) (t : ExtendibleHashTable)
    (b : HashTableBucketPage) :
  0 <= MAX_DEPTH → 0 < BUCKET_ARRAY_SIZE →
  table_inv MAX_DEPTH BUCKET_ARRAY_SIZE t →
  key_page hash_fn key t = Some b →
  IsFull BUCKET_ARRAY_SIZE b = false →
  IsExist BUCKET_ARRAY_SIZE b key value = false →
  ∃ t' (front back : list ValueType),
    Insert MAX_DEPTH BUCKET_ARRAY_SIZE hash_fn key value t = Done (true, t') ∧
    values_of BUCKET_ARRAY_SIZE hash_fn key t = Some (front ++ back) ∧
    values_of BUCKET_ARRAY_SIZE hash_fn key t' = Some (front ++ value :: back) ∧
    (∀ key', key' ≠ key →
       values_of BUCKET_ARRAY_SIZE hash_fn key' t' = values_of BUCKET_ARRAY_SIZE hash_fn key' t) ∧
    dir_page t' = dir_page t ∧ next_page_id_ t' = next_page_id_ t.
Proof.
  intros Hmax Hpos Hinv Hb Hfull Hex.
  destruct (Insert_fast MAX_DEPTH BUCKET_ARRAY_SIZE hash_fn Hpos key value t b Hinv Hb Hex Hfull)
    as (t' & b' & front & back & Hrun & Hd & Hn & Hp & Hold & Hnew).
  exists t', (filter (λ kv : MappingType, kv.1 = key) front).*2,
         (filter (λ kv : MappingType, kv.1 = key) back).*2.
  split; [done|].
  assert (key_page hash_fn key t' = Some b') as Hb'.
  { rewrite (key_page_insert hash_fn key key t t' b' Hd Hp). by rewrite decide_True. }
  split_and!; [| | |done|done].
  - rewrite (values_of_spec _ _ key t b Hb). unfold values_in. rewrite Hold.
    by rewrite filter_app, fmap_app.
  - rewrite (values_of_spec _ _ key t' b' Hb'). unfold values_in. rewrite Hnew.
    by rewrite values_in_same.
  - intros key' Hne.
    destruct (key_page_Some MAX_DEPTH hash_fn Hmax key' t (proj1 Hinv)) as [c Hc].
    pose proof (key_page_insert hash_fn key key' t t' b' Hd Hp) as Hc'.
    rewrite (values_of_spec _ _ key' t c Hc).
    destruct (decide _) as [Heq|_]; [|by rewrite Hc in Hc'; apply values_of_spec].
    rewrite (values_of_spec _ _ key' t' b' Hc'). f_equal.
    assert (c = b) as -> by (unfold key_page in Hc, Hb; congruence).
    unfold values_in. rewrite Hnew, Hold. by apply values_in_other.
Qed.

Lemma insert_without_split_witness :
  0 <= 9 ∧ 0 < 4 ∧ table_inv 9 4 (new_table 9 4 0) ∧
  key_page (λ k, k) 5 (new_table 9 4 0) = Some (zero_page 4) ∧
  ∃ t', Insert 9 4 (λ k, k) 5 50 (new_table 9 4 0) = Done (true, t') ∧
        values_of 4 (λ k, k) 7 t' = values_of 4 (λ k, k) 7 (new_table 9 4 0).
Proof.
  assert (table_inv 9 4 (new_table 9 4 0)) as Hinv by (apply new_table_inv; lia).
  split; [lia|]. split; [lia|]. split; [exact Hinv|]. split; [reflexivity|].
  destruct (insert_without_split 9 4 (λ k, k) 5 50 (new_table 9 4 0) (zero_page 4))
    as (t' & front & back & Hrun & _ & _ & Hother & _);
    [lia|lia|exact Hinv|reflexivity|reflexivity|reflexivity|].
  exists t'. split; [exact Hrun|]. apply Hother. lia.
Defined.





End HTOps.

(** ** Pins

    Every [FetchPage] and [NewPage] of the hash table is matched by an
    [UnpinPage] before the call returns. *)

Module HTPins.

Import Bucket HT.

(** The effect of a call on the pin count of page [p]. *)
Definition pin_effect (p : page_id_t) (e : event) : Z :=
  match e with
  | EvNewPage q | EvFetchPage q => if decide (q = p) then 1 else 0
  | EvUnpinPage q _ => if decide (q = p) then -1 else 0
  | _ => 0
  end.

Definition pin_count (p : page_id_t) (evs : list event) : Z :=
  foldr (λ e acc, pin_effect p e + acc) 0 evs.

(** The pins a table's trace leaves on page [p]. *)
Definition pins (p : page_id_t) (t : ExtendibleHashTable) : Z := pin_count p (trace t).

Definition held (p q : page_id_t) : Z := if decide (q = p) then 1 else 0.

Section pins.

Variable MAX_DEPTH : Z.
Variable BUCKET_ARRAY_SIZE : Z.
Variable hash_fn : KeyType → Z.
Variable p : page_id_t.

Lemma pin_count_app evs1 evs2 :
  pin_count p (evs1 ++ evs2) = pin_count p evs1 + pin_count p evs2.
Proof. induction evs1 as [|e evs1 IH]; simpl; [done|]. rewrite IH. lia. Qed.

Lemma pins_emit e t : pins p (emit e t) = pins p t + pin_effect p e.
Proof. unfold pins. simpl. rewrite pin_count_app. simpl. lia. Qed.

Lemma pins_set_bucket q b t : pins p (set_bucket q b t) = pins p t.
Proof. done. Qed.

Lemma pins_set_dir d t : pins p (set_dir d t) = pins p t.
Proof. done. Qed.

Ltac pins_simpl :=
  repeat (rewrite pins_emit || rewrite pins_set_dir || rewrite pins_set_bucket).

Lemma pins_for_stride (f : Z → ExtendibleHashTable → ExtendibleHashTable) n diff :
  (∀ i t, pins p (f i t) = pins p t) →
  ∀ fuel i t, pins p (for_stride fuel i n diff f t) = pins p t.
Proof.
  intros Hf. induction fuel as [|fuel IH]; intros i t; simpl; [done|].
  destruct (i <? n); [|done]. by rewrite IH, Hf.
Qed.

Lemma pins_mirror n (l : list Z) : ∀ t, pins p (foldl (mirror_body n) t l) = pins p t.
Proof.
  induction l as [|i l IH]; intros t; simpl; [done|].
  rewrite IH. unfold mirror_body, w_SetLocalDepth, w_SetBucketPageId.
  pins_simpl. simpl. lia.
Qed.

Lemma pins_split_directory index image_index q local_depth mask n t t' :
  split_directory MAX_DEPTH index image_index q local_depth mask n t = Done t' →
  pins p t' = pins p t.
Proof.
  unfold split_directory. destruct (_ <? local_depth).
  - destruct (MAX_DEPTH <=? _); [done|]. intros [= <-].
    unfold w_SetBucketPageId, w_IncrGlobalDepth. pins_simpl.
    rewrite pins_mirror. simpl. lia.
  - intros [= <-]. rewrite !pins_for_stride; [done| |].
    + intros i t0. unfold w_SetLocalDepth. pins_simpl. simpl. lia.
    + intros i t0. unfold w_SetLocalDepth, w_SetBucketPageId. pins_simpl. simpl. lia.
Qed.

(** One iteration of the loop of [SplitInsert] pins the new page and unpins
    the one it does not go on with. *)
Lemma pins_split_step key index bucket_page_id bucket_page t index' bucket_page_id' t' :
  split_step MAX_DEPTH BUCKET_ARRAY_SIZE hash_fn key index bucket_page_id bucket_page t
    = Done (index', bucket_page_id', t') →
  pins p t' = pins p t + held p bucket_page_id' - held p bucket_page_id.
Proof.
  unfold split_step, NewPage. cbv beta iota zeta.
  destruct (split_directory _ _ _ _ _ _ _ _) as [t1| | |] eqn:Hsd; try done.
  apply pins_split_directory in Hsd.
  unfold w_IncrLocalDepth in Hsd.
  rewrite pins_emit, pins_set_dir, pins_emit in Hsd.
  change (pins p {| directory_page_id_ := _; dir_page := _; bucket_pages := _;
                    next_page_id_ := _; trace := trace t |}) with (pins p t) in Hsd.
  simpl in Hsd.
  destruct (rehash _ _ _ _ _ _ _) as [bp ip].
  destruct (_ =? bucket_page_id); intros [= <- <- <-]; pins_simpl; simpl;
    rewrite Hsd; unfold held; repeat case_decide; lia.
Qed.

(** The table's [directory_page_id_] member never changes. *)
Lemma dirid_for_stride (f : Z → ExtendibleHashTable → ExtendibleHashTable) n diff :
  (∀ i t, directory_page_id_ (f i t) = directory_page_id_ t) →
  ∀ fuel i t, directory_page_id_ (for_stride fuel i n diff f t) = directory_page_id_ t.
Proof.
  intros Hf. induction fuel as [|fuel IH]; intros i t; simpl; [done|].
  destruct (i <? n); [|done]. by rewrite IH, Hf.
Qed.

Lemma dirid_mirror n (l : list Z) : ∀ t,
  directory_page_id_ (foldl (mirror_body n) t l) = directory_page_id_ t.
Proof. induction l as [|i l IH]; intros t; simpl; [done|]. by rewrite IH. Qed.

Lemma dirid_split_step key index bucket_page_id bucket_page t index' bucket_page_id' t' :
  split_step MAX_DEPTH BUCKET_ARRAY_SIZE hash_fn key index bucket_page_id bucket_page t
    = Done (index', bucket_page_id', t') →
  directory_page_id_ t' = directory_page_id_ t.
Proof.
  unfold split_step, NewPage. cbv beta iota zeta.
  destruct (split_directory _ _ _ _ _ _ _ _) as [t1| | |] eqn:Hsd; try done.
  assert (directory_page_id_ t1 = directory_page_id_ t) as Hd.
  { revert Hsd. unfold split_directory. destruct (_ <? _).
    - destruct (MAX_DEPTH <=? _); [done|]. intros [= <-]. simpl. by rewrite dirid_mirror.
    - intros [= <-]. by rewrite !dirid_for_stride. }
  destruct (rehash _ _ _ _ _ _ _) as [bp ip].
  by destruct (_ =? bucket_page_id); intros [= <- <- <-].
Qed.

Lemma dirid_split_loop key : ∀ fuel index bucket_page_id is_dir_dirty t
                               bucket_page_id' is_dir_dirty' t',
  split_loop MAX_DEPTH BUCKET_ARRAY_SIZE hash_fn fuel key index bucket_page_id is_dir_dirty t
    = Done (bucket_page_id', is_dir_dirty', t') →
  directory_page_id_ t' = directory_page_id_ t.
Proof.
  induction fuel as [|fuel IH]; intros index bpid dirty t bpid' dirty' t'; cbn [split_loop].
  - destruct (bucket_pages t !! bpid) as [b|]; [|done].
    destruct (IsFull _ b); [done|]. by intros [= <- <- <-].
  - destruct (bucket_pages t !! bpid) as [b|]; [|done].
    destruct (IsFull _ b); [|by intros [= <- <- <-]].
    destruct (split_step _ _ _ _ _ _ _ _) as [[[index1 bpid1] t1]| | |] eqn:Hstep; try done.
    apply dirid_split_step in Hstep. intros Hloop%IH. congruence.
Qed.

Lemma dirid_merge_step index bucket_page_id local_depth image_index t :
  directory_page_id_ (merge_step index bucket_page_id local_depth image_index t).2
    = directory_page_id_ t.
Proof. unfold merge_step. cbv zeta. simpl. by rewrite !dirid_for_stride. Qed.

Lemma dirid_merge_loop : ∀ fuel index bucket_page_id local_depth image_index is_merge t
                           bucket_page_id' is_merge' t',
  merge_loop BUCKET_ARRAY_SIZE fuel index bucket_page_id local_depth image_index is_merge t
    = Done (bucket_page_id', is_merge', t') →
  directory_page_id_ t' = directory_page_id_ t.
Proof.
  induction fuel as [|fuel IH]; intros index bpid ld image m t bpid' m' t'; cbn [merge_loop].
  - destruct (bucket_pages t !! bpid) as [b0|]; [|done].
    destruct (_ && _); [done|]. by intros [= <- <- <-].
  - destruct (bucket_pages t !! bpid) as [b0|]; [|done].
    destruct (_ && _); [|by intros [= <- <- <-]].
    pose proof (dirid_merge_step index bpid ld image t) as Hstep.
    destruct (merge_step index bpid ld image t) as [[[bpid1 ld1] image1] t1].
    simpl in Hstep. intros Hloop%IH. congruence.
Qed.

Lemma pins_split_loop key : ∀ fuel index bucket_page_id is_dir_dirty t
                             bucket_page_id' is_dir_dirty' t',
  split_loop MAX_DEPTH BUCKET_ARRAY_SIZE hash_fn fuel key index bucket_page_id is_dir_dirty t
    = Done (bucket_page_id', is_dir_dirty', t') →
  pins p t' = pins p t + held p bucket_page_id' - held p bucket_page_id.
Proof.
  induction fuel as [|fuel IH]; intros index bpid dirty t bpid' dirty' t'; cbn [split_loop].
  - destruct (bucket_pages t !! bpid) as [b|]; [|done].
    destruct (IsFull _ b); [done|]. intros [= <- <- <-]. lia.
  - destruct (bucket_pages t !! bpid) as [b|]; [|done].
    destruct (IsFull _ b); [|intros [= <- <- <-]; lia].
    destruct (split_step _ _ _ _ _ _ _ _) as [[[index1 bpid1] t1]| | |] eqn:Hstep; try done.
    apply pins_split_step in Hstep. intros Hloop%IH. lia.
Qed.

Lemma pins_SplitInsert key value t r t' :
  SplitInsert MAX_DEPTH BUCKET_ARRAY_SIZE hash_fn key value t = Done (r, t') →
  pins p t' = pins p t.
Proof.
  unfold SplitInsert. cbv zeta.
  destruct (bucket_pages _ !! _) as [b|]; [|done].
  destruct (negb _).
  - destruct (split_loop _ _ _ _ _ _ _ _ _) as [[[bpid' dirty'] t1]| | |] eqn:Hloop;
      try done.
    pose proof (dirid_split_loop _ _ _ _ _ _ _ _ _ Hloop) as Hdirid. simpl in Hdirid.
    apply pins_split_loop in Hloop.
    destruct (bucket_pages t1 !! bpid') as [b'|]; [|done].
    destruct (MyInsert _ b' key value) as [is_insert b''].
    intros [= <- <-]. pins_simpl. rewrite Hloop. pins_simpl. simpl. rewrite Hdirid.
    unfold held. repeat case_decide; lia.
  - intros [= <- <-]. pins_simpl. simpl. repeat case_decide; lia.
Qed.

Lemma pins_Insert key value t r t' :
  Insert MAX_DEPTH BUCKET_ARRAY_SIZE hash_fn key value t = Done (r, t') →
  pins p t' = pins p t.
Proof.
  unfold Insert. cbv zeta.
  destruct (bucket_pages _ !! _) as [b|]; [|done].
  destruct (negb _).
  - destruct (MyInsert _ b key value) as [is_insert b'].
    destruct (negb is_insert).
    + intros ->%pins_SplitInsert. pins_simpl. simpl. repeat case_decide; lia.
    + intros [= <- <-]. pins_simpl. simpl. repeat case_decide; lia.
  - intros [= <- <-]. pins_simpl. simpl. repeat case_decide; lia.
Qed.

Lemma pins_GetValue key t r vs t' :
  GetValue BUCKET_ARRAY_SIZE hash_fn key t = Done (r, vs, t') → pins p t' = pins p t.
Proof.
  unfold GetValue. cbv zeta.
  destruct (bucket_pages _ !! _) as [b|]; [|done].
  destruct (MyGetValue _ b key) as [is_find vs'].
  intros [= <- <- <-]. pins_simpl. simpl. repeat case_decide; lia.
Qed.

(** One iteration of the loop of [Merge] unpins the emptied page and pins
    its image. *)
Lemma pins_merge_step index bucket_page_id local_depth image_index t :
  let '(bucket_page_id', _, _, t') :=
    merge_step index bucket_page_id local_depth image_index t in
  pins p t' = pins p t + held p bucket_page_id' - held p bucket_page_id.
Proof.
  unfold merge_step, DeletePage, w_CanShrink. cbv zeta. pins_simpl.
  change (pins p {| directory_page_id_ := _; dir_page := _; bucket_pages := _;
                    next_page_id_ := _; trace := trace ?tt |}) with (pins p tt).
  pins_simpl. rewrite !pins_for_stride.
  - simpl. unfold held. repeat case_decide; lia.
  - intros i t0. unfold w_SetLocalDepth, w_SetBucketPageId. pins_simpl. simpl. lia.
  - intros i t0. unfold w_SetLocalDepth. pins_simpl. simpl. lia.
Qed.

Lemma pins_merge_loop : ∀ fuel index bucket_page_id local_depth image_index is_merge t
                          bucket_page_id' is_merge' t',
  merge_loop BUCKET_ARRAY_SIZE fuel index bucket_page_id local_depth image_index is_merge t
    = Done (bucket_page_id', is_merge', t') →
  pins p t' = pins p t + held p bucket_page_id' - held p bucket_page_id.
Proof.
  induction fuel as [|fuel IH]; intros index bpid ld image m t bpid' m' t'; cbn [merge_loop].
  - destruct (bucket_pages t !! bpid) as [b0|]; [|done].
    destruct (_ && _); [done|]. intros [= <- <- <-]. lia.
  - destruct (bucket_pages t !! bpid) as [b0|]; [|done].
    destruct (_ && _); [|intros [= <- <- <-]; lia].
    pose proof (pins_merge_step index bpid ld image t) as Hstep.
    destruct (merge_step index bpid ld image t) as [[[bpid1 ld1] image1] t1].
    intros Hloop%IH. lia.
Qed.

Lemma pins_Merge key value t t' :
  Merge BUCKET_ARRAY_SIZE hash_fn key value t = Done t' → pins p t' = pins p t.
Proof.
  unfold Merge. cbv zeta.
  destruct (merge_loop _ _ _ _ _ _ _ _) as [[[bpid' m'] t1]| | |] eqn:Hloop; try done.
  pose proof (dirid_merge_loop _ _ _ _ _ _ _ _ _ _ Hloop) as Hdirid. simpl in Hdirid.
  apply pins_merge_loop in Hloop. intros [= <-]. pins_simpl. rewrite Hloop.
  pins_simpl. simpl. rewrite Hdirid. unfold held. repeat case_decide; lia.
Qed.

Lemma pins_Remove key value t r t' :
  Remove BUCKET_ARRAY_SIZE hash_fn key value t = Done (r, t') → pins p t' = pins p t.
Proof.
  unfold Remove. cbv zeta.
  destruct (bucket_pages _ !! _) as [b|]; [|done].
  destruct (MyRemove _ b key value) as [is_remove b'].
  destruct (_ && _).
  - destruct (Merge _ _ _ _ _) as [t1| | |] eqn:Hm; try done.
    apply pins_Merge in Hm. intros [= <- <-]. rewrite Hm. pins_simpl. simpl.
    repeat case_decide; lia.
  - intros [= <- <-]. pins_simpl. simpl. repeat case_decide; lia.
Qed.

End pins.



Section growth.

Variable MAX_DEPTH : Z.
Variable BUCKET_ARRAY_SIZE : Z.
Variable hash_fn : KeyType → Z.

(** Same global depth, page counter and bucket pages. *)
Definition steady (t t' : ExtendibleHashTable) : Prop :=
  GetGlobalDepth (dir_page t') = GetGlobalDepth (dir_page t) ∧
  next_page_id_ t' = next_page_id_ t ∧ bucket_pages t' = bucket_pages t.

Lemma steady_refl t : steady t t.
Proof. done. Qed.



















End growth.

(** Every call of [GetValue], [Insert], [SplitInsert], [Remove] and [Merge]
    that completes leaves the pin count of every page as it found it: each
    page it fetched or allocated it has unpinned exactly as often, on every
    path through the split and merge loops. *)
Theorem pins_balanced (MAX_DEPTH BUCKET_ARRAY_SIZE : Z) (hash_fn : KeyType → Z)
    (key : KeyType) (value : ValueType) (t : ExtendibleHashTable) (p : page_id_t) :
  match GetValue BUCKET_ARRAY_SIZE hash_fn key t with
  | Done (_, _, t') => pins p t' = pins p t
  | _ => True
  end ∧
  match Insert MAX_DEPTH BUCKET_ARRAY_SIZE hash_fn key value t with
  | Done (_, t') => pins p t' = pins p t
  | _ => True
  end ∧
  match SplitInsert MAX_DEPTH BUCKET_ARRAY_SIZE hash_fn key value t with
  | Done (_, t') => pins p t' = pins p t
  | _ => True
  end ∧
  match Remove BUCKET_ARRAY_SIZE hash_fn key value t with
  | Done (_, t') => pins p t' = pins p t
  | _ => True
  end ∧
  match Merge BUCKET_ARRAY_SIZE hash_fn key value t with
  | Done t' => pins p t' = pins p t
  | _ => True
  end.
Proof.
  split_and!.
  - destruct (GetValue _ _ _ _) as [[[r vs] t']| | |] eqn:H; [|done..].
    by eapply pins_GetValue.
  - destruct (Insert _ _ _ _ _ _) as [[r t']| | |] eqn:H; [|done..].
    by eapply pins_Insert.
  - destruct (SplitInsert _ _ _ _ _ _) as [[r t']| | |] eqn:H; [|done..].
    by eapply pins_SplitInsert.
  - destruct (Remove _ _ _ _ _) as [[r t']| | |] eqn:H; [|done..].
    by eapply pins_Remove.
  - destruct (Merge _ _ _ _ _) as [t'| | |] eqn:H; [|done..].
    by eapply pins_Merge.
Qed.


End HTPins.

(** ** Pinning a frame (buffer/lru_replacer.cpp, [Pin]) *)

Module LRUOps.

Import LRU.

Lemma erase_node_split f l :
  NoDup l → f ∈ l →
  ∃ l1 l2, l = l1 ++ f :: l2 ∧ erase_node f l = l1 ++ l2.
Proof.
  induction 1 as [|y l Hy Hnd IH]; simpl; [by intros ?%elem_of_nil|].
  destruct (decide (y = f)) as [->|Hne].
  - intros _. by exists [], l.
  - intros [?|Hin]%elem_of_cons; [congruence|].
    destruct (IH Hin) as (l1 & l2 & -> & ->). by exists (y :: l1), l2.
Qed.

Lemma victims_resident n : ∀ r f, lru_inv r → f ∈ victims n r → f ∈ lst_ r.
Proof.
  induction n as [|n IH]; intros r f Hi; simpl; [by intros ?%elem_of_nil|].
  destruct (Victim_spec r Hi) as [[_ ->]|(l & x & r' & El & -> & <- & _ & Hi')];
    [by intros ?%elem_of_nil|].
  rewrite El. intros [->|Hin]%elem_of_cons; apply elem_of_app; [right; left|left].
  by apply (IH r').
Qed.

(** After any sequence of replacer operations: [Pin f] on a resident frame
    removes exactly that frame, the others keeping their order, and the size
    drops by one; on a frame that is not resident it changes nothing.  A
    pinned frame is not resident, so no [Victim] call returns it, and a
    following [Unpin f] puts a frame that was resident back at the
    most-recently-used end. *)
Theorem pin_behaviour (c : nat) (ops : list op) (f : frame_id_t) :
  ∃ r, run ops (new_replacer c) = Some r ∧
    (f ∉ lst_ r → Pin f r = r) ∧
    (f ∈ lst_ r →
     ∃ l1 l2, lst_ r = l1 ++ f :: l2 ∧ lst_ (Pin f r) = l1 ++ l2 ∧
              S (Size (Pin f r)) = Size r ∧
              lst_ (Unpin f (Pin f r)) = f :: l1 ++ l2) ∧
    (f ∉ lst_ (Pin f r)) ∧
    (∀ n, f ∉ victims n (Pin f r)) ∧
    Size (Pin f r) = length (lst_ (Pin f r)).
Proof.
  destruct (run_inv ops (new_replacer c) (lru_inv_new c)) as (r & Hr & Hi & Hc).
  exists r. split; [done|].
  pose proof Hi as (Hnd & Hmp & Hle).
  pose proof (Pin_inv f r Hi) as Hi'.
  assert (f ∉ lst_ (Pin f r)) as Hnot.
  { unfold Pin. destruct (decide (f ∈ mp_ r)) as [Hin|Hn]; simpl.
    - rewrite erase_node_elem by done. tauto.
    - by rewrite <- Hmp. }
  split_and!.
  - intros Hn. unfold Pin. rewrite decide_False; [done|]. by rewrite Hmp.
  - intros Hin. destruct (erase_node_split f (lst_ r) Hnd Hin) as (l1 & l2 & El & Ee).
    exists l1, l2. split; [done|].
    assert (lst_ (Pin f r) = l1 ++ l2) as Hl.
    { unfold Pin. rewrite decide_True by (by apply Hmp). done. }
    split; [done|].
    assert (S (Size (Pin f r)) = Size r) as Hs.
    { unfold Size. rewrite (lru_inv_size _ Hi), (lru_inv_size _ Hi'), Hl, El.
      rewrite !length_app. simpl. lia. }
    split; [done|].
    unfold Unpin. rewrite decide_True; [by rewrite <- Hl|].
    split; [by rewrite (proj1 (proj2 Hi'))|].
    assert (capacity_ (Pin f r) = capacity_ r) as Hcap
      by (unfold Pin; by destruct (decide _)).
    unfold Size in Hs. rewrite Hcap.
    pose proof (lru_inv_size _ Hi). lia.
  - done.
  - intros n Hin. by apply victims_resident in Hin.
  - by apply lru_inv_size.
Qed.

End LRUOps.

(** ** Range scans (storage/index/index_iterator.cpp)

    The iterator over a chain of leaves. *)

Module BPTScan.

Import BPT.

(** The loop of a range scan, reading the entry under the iterator and advancing it until [IsEnd]:
    the pairs read, the iterator at the end and the calls on the buffer pool
    and the latches.  [None]: one of the calls is undefined, or [fuel] steps
    did not reach the end. *)
Fixpoint scan (fuel : nat) (pages : PageStore) (it : IndexIterator)
    : option (list MappingType * IndexIterator * list event) :=
  match IsEnd pages it with
  | None => None
  | Some true => Some ([], it, [])
  | Some false =>
      match fuel with
      | O => None
      | S fuel' =>
          kv ← deref pages it;
          '(it1, ev1) ← incr pages it;
          '(kvs, it2, ev2) ← scan fuel' pages it1;
          Some (kv :: kvs, it2, ev1 ++ ev2)
      end
  end.

(** [chain pages p ls]: starting at page [p], the store holds the leaves
    [ls] linked by their next-page ids; only the last one has no successor,
    and only the last one may be empty. *)
Inductive chain (pages : PageStore) : page_id_t → list LeafPage → Prop :=
| chain_last p l :
    pages !! p = Some (Leaf l) → l_next_page_id l = INVALID_PAGE_ID →
    chain pages p [l]
| chain_cons p l ls :
    pages !! p = Some (Leaf l) → l_next_page_id l ≠ INVALID_PAGE_ID →
    l_array l ≠ [] → chain pages (l_next_page_id l) ls →
    chain pages p (l :: ls).

(** The calls of the hops from leaf to leaf along a chain that starts at
    page [p]. *)
Fixpoint hops (p : page_id_t) (ls : list LeafPage) : list event :=
  match ls with
  | l :: ((_ :: _) as rest) =>
      [EvRUnlatch p; EvUnpinPage p false;
       EvFetchPage (l_next_page_id l); EvRLatch (l_next_page_id l)] ++
      hops (l_next_page_id l) rest
  | _ => []
  end.

(** The page the iterator ends on. *)
Fixpoint last_page (p : page_id_t) (ls : list LeafPage) : page_id_t :=
  match ls with
  | l :: ((_ :: _) as rest) => last_page (l_next_page_id l) rest
  | _ => p
  end.

Definition entries (ls : list LeafPage) : list MappingType :=
  concat (l_array <$> ls).

Section scan_facts.

Variable pages : PageStore.

Lemma chain_nonempty p ls : chain pages p ls → ls ≠ [].
Proof. by destruct 1. Qed.

Lemma IsEnd_last p l :
  pages !! p = Some (Leaf l) → l_next_page_id l = INVALID_PAGE_ID →
  IsEnd pages {| page_ := p; index_ := Z.of_nat (length (l_array l)) |} = Some true.
Proof.
  intros Hp Hnext. unfold IsEnd, node_. simpl. rewrite Hp. simpl.
  rewrite bool_decide_true by done.
  by rewrite bool_decide_true by (unfold l_GetSize; lia).
Qed.

Lemma IsEnd_inside p l (i : nat) :
  pages !! p = Some (Leaf l) → (i < length (l_array l))%nat →
  IsEnd pages {| page_ := p; index_ := Z.of_nat i |} = Some false.
Proof.
  intros Hp Hi. unfold IsEnd, node_. simpl. rewrite Hp. simpl.
  rewrite (bool_decide_false (_ >= _)) by (unfold l_GetSize; lia).
  by rewrite andb_false_r.
Qed.

Lemma deref_inside p l (i : nat) kv :
  pages !! p = Some (Leaf l) → l_array l !! i = Some kv →
  deref pages {| page_ := p; index_ := Z.of_nat i |} = Some kv.
Proof.
  intros Hp Hi. unfold deref, node_. simpl. rewrite Hp. simpl.
  rewrite bool_decide_true by lia. by rewrite Nat2Z.id.
Qed.

Lemma incr_stay p l (i : nat) :
  pages !! p = Some (Leaf l) → Z.of_nat i < INT_MAX →
  S i ≠ length (l_array l) ∨ l_next_page_id l = INVALID_PAGE_ID →
  incr pages {| page_ := p; index_ := Z.of_nat i |}
    = Some ({| page_ := p; index_ := Z.of_nat (S i) |}, []).
Proof.
  intros Hp Hi Hstay. unfold incr, node_. simpl. rewrite Hp. simpl.
  rewrite bool_decide_true by done.
  replace (Z.of_nat i + 1) with (Z.of_nat (S i)) by lia.
  destruct Hstay as [Hne|Hlast].
  - by rewrite (bool_decide_false (_ = l_GetSize l)) by (unfold l_GetSize; lia).
  - rewrite (bool_decide_true (l_next_page_id l = _)) by done.
    by rewrite andb_false_r.
Qed.

Lemma incr_hop p l l1 (i : nat) :
  pages !! p = Some (Leaf l) → Z.of_nat i < INT_MAX →
  S i = length (l_array l) → l_next_page_id l ≠ INVALID_PAGE_ID →
  pages !! l_next_page_id l = Some (Leaf l1) →
  incr pages {| page_ := p; index_ := Z.of_nat i |}
    = Some ({| page_ := l_next_page_id l; index_ := 0 |},
            [EvRUnlatch p; EvUnpinPage p false;
             EvFetchPage (l_next_page_id l); EvRLatch (l_next_page_id l)]).
Proof.
  intros Hp Hi Hlast Hnext Hp1. unfold incr, node_. simpl. rewrite Hp. simpl.
  rewrite bool_decide_true by done.
  rewrite (bool_decide_true (_ = l_GetSize l)) by (unfold l_GetSize; lia).
  rewrite (bool_decide_false (l_next_page_id l = _)) by done. simpl.
  by rewrite Hp1.
Qed.

Lemma scan_step fuel it kv it1 ev1 kvs it2 ev2 :
  IsEnd pages it = Some false → deref pages it = Some kv →
  incr pages it = Some (it1, ev1) →
  scan fuel pages it1 = Some (kvs, it2, ev2) →
  scan (S fuel) pages it = Some (kv :: kvs, it2, ev1 ++ ev2).
Proof. intros He Hd Hi Hs. cbn [scan]. rewrite He, Hd. simpl. rewrite Hi. simpl. by rewrite Hs. Qed.

Lemma scan_chain : ∀ (fuel : nat) ls p (i : nat),
  chain pages p ls →
  Forall (λ l, l_GetSize l < INT_MAX) ls →
  match ls with
  | l :: rest => (i < length (l_array l))%nat ∨ (rest = [] ∧ i = length (l_array l))
  | [] => False
  end →
  (length (drop i (entries ls)) ≤ fuel)%nat →
  ∃ it',
    scan fuel pages {| page_ := p; index_ := Z.of_nat i |}
      = Some (drop i (entries ls), it', hops p ls) ∧
    IsEnd pages it' = Some true ∧ page_ it' = last_page p ls.
Proof.
  induction fuel as [|fuel IH]; intros ls p i Hchain Hsize Hi Hfuel.
  - (* no step left: the iterator is at the end *)
    destruct Hchain as [p l Hp Hnext|p l ls Hp Hnext Hne Hrest].
    + unfold entries in *. simpl in *. rewrite app_nil_r in *.
      rewrite length_drop in Hfuel.
      assert (i = length (l_array l)) as -> by lia.
      rewrite drop_all. eexists. cbn [scan]. rewrite IsEnd_last by done.
      split; [done|]. split; [|done]. by apply IsEnd_last.
    + exfalso. pose proof (chain_nonempty _ _ Hrest) as Hls.
      destruct Hi as [Hi|[? _]]; [|done].
      unfold entries in Hfuel. simpl in Hfuel.
      rewrite length_drop, length_app in Hfuel. lia.
  - inversion Hsize as [|l0 ls0 Hl0 Hsize0]; subst; [done|].
    destruct Hi as [Hi|[-> ->]].
    + (* an entry of the current leaf *)
      assert (∃ kv, l_array l0 !! i = Some kv) as [kv Hkv]
        by (by apply lookup_lt_is_Some_2).
      assert (drop i (entries (l0 :: ls0)) = kv :: drop (S i) (entries (l0 :: ls0))) as Hdrop.
      { apply drop_S. unfold entries. simpl. by apply lookup_app_l_Some. }
      rewrite Hdrop in Hfuel |- *. simpl in Hfuel.
      assert (Z.of_nat i < INT_MAX) as Hmax by (unfold l_GetSize in Hl0; lia).
      inversion Hchain as [p' l' Hp Hnext|p' l' ls' Hp Hnext Hne Hrest]; subst.
      * (* the last leaf *)
        destruct (IH [l0] p (S i)) as (it' & Hscan & Hend & Hpage);
          [done|done| |lia|].
        { destruct (decide (S i = length (l_array l0))); [by right|left; lia]. }
        exists it'. split; [|done].
        change (hops p [l0]) with ([] ++ hops p [l0]).
        eapply scan_step; [by eapply IsEnd_inside|by eapply deref_inside| |done].
        apply incr_stay with l0; auto.
      * destruct (decide (S i = length (l_array l0))) as [Hlast|Hmore].
        -- (* hop to the next leaf *)
           assert (∃ l1 ls1, ls0 = l1 :: ls1 ∧ pages !! l_next_page_id l0 = Some (Leaf l1))
             as (l1 & ls1 & -> & Hp1) by (inversion Hrest; subst; eauto).
           assert (drop (S i) (entries (l0 :: l1 :: ls1)) = drop 0 (entries (l1 :: ls1)))
             as Hnext_entries.
           { unfold entries. simpl. rewrite drop_app_length'; done. }
           rewrite Hnext_entries in Hfuel |- *.
           destruct (IH (l1 :: ls1) (l_next_page_id l0) 0%nat) as (it' & Hscan & Hend & Hpage);
             [done|done| |lia|].
           { inversion Hrest; subst.
             - destruct (l_array l1); [by right|left; simpl; lia].
             - left. destruct (l_array l1); [done|simpl; lia]. }
           exists it'. split; [|done].
           eapply (scan_step _ _ _ _ [_; _; _; _]);
             [by eapply IsEnd_inside|by eapply deref_inside| |exact Hscan].
           by eapply incr_hop.
        -- destruct (IH (l0 :: ls0) p (S i)) as (it' & Hscan & Hend & Hpage);
             [done|done|left; lia|lia|].
           exists it'. split; [|done].
           change (hops p (l0 :: ls0)) with ([] ++ hops p (l0 :: ls0)).
           eapply scan_step; [by eapply IsEnd_inside|by eapply deref_inside| |done].
           apply incr_stay with l0; auto.
    + (* at the end of the last leaf *)
      assert (pages !! p = Some (Leaf l0) ∧ l_next_page_id l0 = INVALID_PAGE_ID) as [Hp Hnext]
        by (inversion Hchain as [| ? ? ? ? ? ? Hrest]; subst;
            [done|by apply chain_nonempty in Hrest]).
      unfold entries. simpl. rewrite app_nil_r, drop_all.
      eexists. cbn [scan]. rewrite IsEnd_last by done.
      split; [done|]. split; [|done]. by apply IsEnd_last.
Qed.

End scan_facts.

(** Scanning from the first entry of the first leaf of a chain reads the
    entries of all its leaves in order and stops with [IsEnd] on the last
    leaf; the only calls on the buffer pool and the latches are those of the
    hops, each of which releases the leaf it leaves before it fetches the
    next one.  Holds when every leaf has fewer than [INT_MAX] entries and
    the scan is given at least as many steps as there are entries. *)
Theorem scan_reads_chain (pages : PageStore) (p : page_id_t) (ls : list LeafPage)
    (fuel : nat) :
  chain pages p ls →
  Forall (λ l, l_GetSize l < INT_MAX) ls →
  (length (entries ls) ≤ fuel)%nat →
  ∃ it',
    scan fuel pages {| page_ := p; index_ := 0 |}
      = Some (entries ls, it', hops p ls) ∧
    IsEnd pages it' = Some true ∧ page_ it' = last_page p ls.
Proof.
  intros Hchain Hsize Hfuel.
  apply (scan_chain pages fuel ls p 0%nat Hchain Hsize); [|done].
  destruct Hchain as [p l Hp Hnext|p l ls Hp Hnext Hne Hrest].
  - destruct (l_array l); [by right|left; simpl; lia].
  - left. destruct (l_array l); [done|simpl; lia].
Qed.

(** Two linked leaves; the second one is the last. *)
Definition first_leaf : LeafPage :=
  {| l_page_id := 1; l_parent_page_id := 3; l_max_size := 3;
     l_next_page_id := 2; l_array := [(10, 100); (20, 200)] |}.

Definition second_leaf : LeafPage :=
  {| l_page_id := 2; l_parent_page_id := 3; l_max_size := 3;
     l_next_page_id := INVALID_PAGE_ID; l_array := [(30, 300)] |}.

Definition two_leaves : PageStore :=
  {[ 1 := Leaf first_leaf; 2 := Leaf second_leaf ]}.

Lemma scan_reads_chain_witness :
  ∃ it',
    scan 3 two_leaves {| page_ := 1; index_ := 0 |}
      = Some (entries [first_leaf; second_leaf], it',
              hops 1 [first_leaf; second_leaf]) ∧
    IsEnd two_leaves it' = Some true ∧
    page_ it' = last_page 1 [first_leaf; second_leaf].
Proof.
  apply (scan_reads_chain two_leaves 1 [first_leaf; second_leaf] 3).
  - apply chain_cons; [reflexivity|discriminate|discriminate|].
    apply chain_last; reflexivity.
  - repeat constructor.
  - simpl. lia.
Defined.

End BPTScan.

(** ** Parallel buffer pool manager (buffer/parallel_buffer_pool_manager.cpp)

    The manager owns [num_instances_] buffer pool instances and hands every
    call to one of them.  The instances are those of
    buffer_pool_manager_instance.cpp; here they are given by their
    interface: a state of their own, the disk and log managers they all
    share, and the effect of each call on both. *)

Module PBPM.

Abbreviation page_id_t := Z.
Definition INT_MAX : Z := 2147483647.

(** [size_t] has 64 bits; [static_cast<int>] keeps the low 32 bits, read
    as a signed number. *)
Definition to_size_t (x : Z) : Z := x mod 2 ^ 64.
Definition to_int (x : Z) : Z := (x + 2 ^ 31) mod 2 ^ 32 - 2 ^ 31.

(** The calls that are handed to the instance in charge of a page. *)
Inductive page_call :=
| CFetch
| CUnpin (is_dirty : bool)
| CFlush
| CDelete.

(** Sequences of calls on the manager. *)
Inductive manager_op :=
| ONewPage (page_id : page_id_t)
| OCall (c : page_call) (page_id : page_id_t)
| OFlushAll.

Definition is_new_page (o : manager_op) : bool :=
  match o with ONewPage _ => true | _ => false end.

Section manager.

(** One buffer pool instance, the pages it hands out, and the disk and log
    managers passed to every instance by the constructor. *)
Variables Instance Page Shared : Type.

(** [new BufferPoolManagerInstance(pool_size, num_instances, instance_index,
    disk_manager, log_manager)]. *)
Variable bpi_create : Z → Z → Z → Instance.
(** [NewPgImp(page_id)] reads and writes [*page_id]. *)
Variable bpi_NewPgImp :
  Instance → Shared → page_id_t → Instance * Shared * page_id_t * option Page.
Variable bpi_FetchPgImp : page_id_t → Instance → Shared → Instance * Shared * option Page.
Variable bpi_UnpinPgImp : page_id_t → bool → Instance → Shared → Instance * Shared * bool.
Variable bpi_FlushPgImp : page_id_t → Instance → Shared → Instance * Shared * bool.
Variable bpi_DeletePgImp : page_id_t → Instance → Shared → Instance * Shared * bool.
Variable bpi_FlushAllPgsImp : Instance → Shared → Instance * Shared.

Record ParallelBufferPoolManager := mkManager {
  num_instances_ : Z;
  pool_size_ : Z;
  start_index_ : Z;
  buffer_pool_manager_instance_ : list Instance
}.

Definition set_instances (m : ParallelBufferPoolManager) (l : list Instance)
    : ParallelBufferPoolManager :=
  {| num_instances_ := num_instances_ m; pool_size_ := pool_size_ m;
     start_index_ := start_index_ m; buffer_pool_manager_instance_ := l |}.

Definition set_start_index (m : ParallelBufferPoolManager) (i : Z)
    : ParallelBufferPoolManager :=
  {| num_instances_ := num_instances_ m; pool_size_ := pool_size_ m;
     start_index_ := i;
     buffer_pool_manager_instance_ := buffer_pool_manager_instance_ m |}.

(** The constructor. *)
Definition new_manager (num_instances pool_size : Z) : ParallelBufferPoolManager :=
  {| num_instances_ := num_instances; pool_size_ := pool_size; start_index_ := 0;
     buffer_pool_manager_instance_ :=
       (λ i, bpi_create pool_size num_instances i) <$> seqZ 0 num_instances |}.

Definition GetPoolSize (m : ParallelBufferPoolManager) : Z :=
  to_size_t (num_instances_ m * pool_size_ m).

(** The index of the instance in charge of [page_id]: the [int] is
    converted to [size_t] before the remainder is taken; with no instance
    the remainder is undefined. *)
Definition GetBufferPoolManager (m : ParallelBufferPoolManager) (page_id : page_id_t)
    : option Z :=
  if bool_decide (num_instances_ m = 0) then None
  else Some (to_size_t page_id mod num_instances_ m).

(** A call on the instance at index [k]; outside the array the access is
    undefined. *)
Definition at_instance {R} (m : ParallelBufferPoolManager) (k : Z) (w : Shared)
    (call : Instance → Shared → Instance * Shared * R)
    : option (ParallelBufferPoolManager * Shared * R) :=
  inst ← buffer_pool_manager_instance_ m !! Z.to_nat k;
  let '(inst', w', r) := call inst w in
  Some (set_instances m (<[Z.to_nat k := inst']> (buffer_pool_manager_instance_ m)), w', r).

Definition FetchPgImp (m : ParallelBufferPoolManager) (w : Shared) (page_id : page_id_t)
    : option (ParallelBufferPoolManager * Shared * option Page) :=
  k ← GetBufferPoolManager m page_id; at_instance m k w (bpi_FetchPgImp page_id).

Definition UnpinPgImp (m : ParallelBufferPoolManager) (w : Shared) (page_id : page_id_t)
    (is_dirty : bool) : option (ParallelBufferPoolManager * Shared * bool) :=
  k ← GetBufferPoolManager m page_id; at_instance m k w (bpi_UnpinPgImp page_id is_dirty).

Definition FlushPgImp (m : ParallelBufferPoolManager) (w : Shared) (page_id : page_id_t)
    : option (ParallelBufferPoolManager * Shared * bool) :=
  k ← GetBufferPoolManager m page_id; at_instance m k w (bpi_FlushPgImp page_id).

Definition DeletePgImp (m : ParallelBufferPoolManager) (w : Shared) (page_id : page_id_t)
    : option (ParallelBufferPoolManager * Shared * bool) :=
  k ← GetBufferPoolManager m page_id; at_instance m k w (bpi_DeletePgImp page_id).

(** The loop of [NewPgImp] over the values [rounds] of [i], from the
    instance at [curr_index] on, until one instance returns a page. *)
Fixpoint new_page_loop (rounds : list Z) (curr_index : Z)
    (m : ParallelBufferPoolManager) (w : Shared) (page_id : page_id_t)
    : option (ParallelBufferPoolManager * Shared * page_id_t * option Page) :=
  match rounds with
  | [] => Some (m, w, page_id, None)
  | i :: rest =>
      let k := to_size_t (curr_index + to_size_t i) mod num_instances_ m in
      inst ← buffer_pool_manager_instance_ m !! Z.to_nat k;
      let '(inst', w', page_id', page) := bpi_NewPgImp inst w page_id in
      let m' := set_instances m (<[Z.to_nat k := inst']> (buffer_pool_manager_instance_ m)) in
      match page with
      | Some _ => Some (m', w', page_id', page)
      | None => new_page_loop rest curr_index m' w' page_id'
      end
  end.

(** [NewPgImp]; [page_id] is the content of [*page_id] before the call, the
    result carries its content after it.  The latch is held for the two
    statements on [start_index_] only; calls are modelled one at a time. *)
Definition NewPgImp (m : ParallelBufferPoolManager) (w : Shared) (page_id : page_id_t)
    : option (ParallelBufferPoolManager * Shared * page_id_t * option Page) :=
  if bool_decide (num_instances_ m = 0) then None
  else
    let curr_index := start_index_ m in
    let m1 := set_start_index m (to_size_t (start_index_ m + 1) mod num_instances_ m) in
    new_page_loop (seqZ 0 (to_int (num_instances_ m))) curr_index m1 w page_id.

(** The loop of [FlushAllPgsImp]: the array holds [num_instances_]
    instances, so the loop over the indices visits the array from the left. *)
Fixpoint flush_all_loop (l : list Instance) (w : Shared) : list Instance * Shared :=
  match l with
  | [] => ([], w)
  | inst :: rest =>
      let '(inst', w') := bpi_FlushAllPgsImp inst w in
      let '(rest', w'') := flush_all_loop rest w' in
      (inst' :: rest', w'')
  end.

Definition FlushAllPgsImp (m : ParallelBufferPoolManager) (w : Shared)
    : ParallelBufferPoolManager * Shared :=
  let '(l, w') := flush_all_loop (buffer_pool_manager_instance_ m) w in
  (set_instances m l, w').

Definition step (o : manager_op) (m : ParallelBufferPoolManager) (w : Shared)
    : option (ParallelBufferPoolManager * Shared) :=
  match o with
  | ONewPage page_id => '(m', w', _, _) ← NewPgImp m w page_id; Some (m', w')
  | OCall CFetch page_id => '(m', w', _) ← FetchPgImp m w page_id; Some (m', w')
  | OCall (CUnpin d) page_id => '(m', w', _) ← UnpinPgImp m w page_id d; Some (m', w')
  | OCall CFlush page_id => '(m', w', _) ← FlushPgImp m w page_id; Some (m', w')
  | OCall CDelete page_id => '(m', w', _) ← DeletePgImp m w page_id; Some (m', w')
  | OFlushAll => Some (FlushAllPgsImp m w)
  end.

Fixpoint run (ops : list manager_op) (m : ParallelBufferPoolManager) (w : Shared)
    : option (ParallelBufferPoolManager * Shared) :=
  match ops with
  | [] => Some (m, w)
  | o :: rest => '(m', w') ← step o m w; run rest m' w'
  end.

(** What the constructor establishes and every call keeps. *)
Definition manager_wf (m : ParallelBufferPoolManager) : Prop :=
  0 < num_instances_ m <= INT_MAX ∧
  0 <= start_index_ m < num_instances_ m ∧
  Z.of_nat (length (buffer_pool_manager_instance_ m)) = num_instances_ m.

(** The instance at index [k]. *)
Definition instance_at (m : ParallelBufferPoolManager) (k : Z) : option Instance :=
  buffer_pool_manager_instance_ m !! Z.to_nat k.

(** The instance asked in round [i] of a [NewPgImp] that starts at [start]. *)
Definition slot (m : ParallelBufferPoolManager) (start i : Z) : Z :=
  (start + i) mod num_instances_ m.

Lemma to_size_t_small x : 0 <= x < 2 ^ 64 → to_size_t x = x.
Proof. intros. unfold to_size_t. by apply Z.mod_small. Qed.

Lemma to_int_small x : 0 <= x <= INT_MAX → to_int x = x.
Proof. unfold to_int, INT_MAX. intros. rewrite Z.mod_small; lia. Qed.

Lemma slot_inj m start i j :
  0 < num_instances_ m → 0 <= i < num_instances_ m → 0 <= j < num_instances_ m →
  slot m start i = slot m start j → i = j.
Proof.
  unfold slot. intros Hn Hi Hj Heq.
  set (n := num_instances_ m) in *.
  assert ((i - j) mod n = 0) as Hd.
  { replace (i - j) with ((start + i) - (start + j)) by lia.
    rewrite Zminus_mod, Heq, Z.sub_diag. by apply Z.mod_0_l; lia. }
  apply Z.mod_divide in Hd as [c Hc]; [|lia].
  assert (-1 < c < 1) by nia. lia.
Qed.

Lemma slot_range m start i :
  0 < num_instances_ m → 0 <= slot m start i < num_instances_ m.
Proof. intros. unfold slot. apply Z.mod_pos_bound. lia. Qed.

Lemma new_page_loop_spec : ∀ (len : nat) (a : Z) curr m0 m w page_id,
  0 < num_instances_ m <= INT_MAX →
  0 <= curr < num_instances_ m →
  Z.of_nat (length (buffer_pool_manager_instance_ m)) = num_instances_ m →
  0 <= a → a + Z.of_nat len = num_instances_ m →
  num_instances_ m0 = num_instances_ m →
  (∀ i, a <= i < num_instances_ m →
        instance_at m (slot m curr i) = instance_at m0 (slot m curr i)) →
  ∃ m' w' page_id' page,
    new_page_loop (seqZ a (Z.of_nat len)) curr m w page_id = Some (m', w', page_id', page) ∧
    num_instances_ m' = num_instances_ m ∧ pool_size_ m' = pool_size_ m ∧
    start_index_ m' = start_index_ m ∧
    length (buffer_pool_manager_instance_ m') = length (buffer_pool_manager_instance_ m) ∧
    ∃ j, a <= j <= num_instances_ m ∧
      (∀ i, 0 <= i < a → instance_at m' (slot m curr i) = instance_at m (slot m curr i)) ∧
      (∀ i, a <= i < j → ∃ inst v p,
          instance_at m0 (slot m curr i) = Some inst ∧
          (bpi_NewPgImp inst v p).2 = None ∧
          instance_at m' (slot m curr i) = Some (bpi_NewPgImp inst v p).1.1.1) ∧
      (∀ i, j < i < num_instances_ m →
          instance_at m' (slot m curr i) = instance_at m0 (slot m curr i)) ∧
      match page with
      | None => j = num_instances_ m
      | Some pg => j < num_instances_ m ∧ ∃ inst inst' v p,
          instance_at m0 (slot m curr j) = Some inst ∧
          bpi_NewPgImp inst v p = (inst', w', page_id', Some pg) ∧
          instance_at m' (slot m curr j) = Some inst'
      end.
Proof.
  induction len as [|len IH]; intros a curr m0 m w page_id Hn Hcurr Hlen Ha Hsum Hn0 Hsame.
  - simpl. exists m, w, page_id, None. repeat (split; [done|]).
    exists a. split; [lia|]. split; [done|]. split; [intros; lia|].
    split; [intros; lia|lia].
  - rewrite Nat2Z.inj_succ, seqZ_cons, Z.pred_succ by lia. cbn [new_page_loop].
    assert (to_size_t (curr + to_size_t a) mod num_instances_ m = slot m curr a) as ->.
    { unfold slot, INT_MAX in *. rewrite (to_size_t_small a) by lia.
      by rewrite to_size_t_small by lia. }
    pose proof (slot_range m curr a ltac:(lia)) as Hk.
    set (k := slot m curr a) in *.
    destruct (lookup_lt_is_Some_2 (buffer_pool_manager_instance_ m) (Z.to_nat k))
      as [inst Hinst]; [lia|].
    rewrite Hinst. simpl.
    destruct (bpi_NewPgImp inst w page_id) as [[[inst' w'] page_id'] page] eqn:Hcall.
    set (m1 := set_instances m (<[Z.to_nat k := inst']> (buffer_pool_manager_instance_ m))).
    assert (∀ i, 0 <= i < num_instances_ m → i ≠ a →
              instance_at m1 (slot m curr i) = instance_at m (slot m curr i)) as Hother.
    { intros i Hi Hne. unfold instance_at, m1. simpl.
      apply list_lookup_insert_ne. intros Heq. apply Hne.
      apply (slot_inj m curr); [lia..|].
      pose proof (slot_range m curr i ltac:(lia)). fold k in Heq. lia. }
    assert (instance_at m1 k = Some inst') as Hthis.
    { unfold instance_at, m1. simpl. apply list_lookup_insert_eq. lia. }
    assert (instance_at m0 k = Some inst) as Horig.
    { unfold k. rewrite <- Hsame by lia. done. }
    destruct page as [pg|].
    + exists m1, w', page_id', (Some pg). split; [done|]. split; [done|]. split; [done|].
      split; [done|]. split; [by unfold m1; simpl; rewrite length_insert|].
      exists a. split; [lia|]. split; [intros; apply Hother; lia|].
      split; [intros; lia|].
      split; [intros i Hi; rewrite Hother by lia; apply Hsame; lia|].
      split; [lia|]. exists inst, inst', w, page_id. done.
    + destruct (IH (Z.succ a) curr m0 m1 w' page_id') as (m' & w'' & pid' & page & Hloop & Hn'
        & Hp' & Hs' & Hl' & j & Hj & Hbefore & Hrefused & Hafter & Hres).
      { done. } { done. } { unfold m1. simpl. by rewrite length_insert. }
      { lia. } { simpl. lia. } { done. }
      { intros i Hi. change (slot m1 curr i) with (slot m curr i).
        change (num_instances_ m1) with (num_instances_ m) in Hi.
        rewrite Hother by lia. apply Hsame. lia. }
      change (num_instances_ m1) with (num_instances_ m) in *.
      change (slot m1 curr) with (slot m curr) in *.
      exists m', w'', pid', page. split; [done|]. split; [done|]. split; [done|].
      split; [done|]. split; [by rewrite Hl'; unfold m1; simpl; rewrite length_insert|].
      exists j. split; [lia|].
      split; [intros i Hi; rewrite Hbefore by lia; apply Hother; lia|].
      split; [|done].
      intros i Hi. destruct (decide (i = a)) as [->|Hne].
      * exists inst, w, page_id. rewrite Hcall. simpl. split; [done|]. split; [done|].
        rewrite Hbefore by lia. done.
      * apply Hrefused. lia.
Qed.

Lemma set_instances_wf m l :
  manager_wf m → length l = length (buffer_pool_manager_instance_ m) →
  manager_wf (set_instances m l).
Proof. intros (Hn & Hs & Hl) Hlen. unfold manager_wf. simpl. rewrite Hlen. done. Qed.

Lemma at_instance_spec {R} m w page_id (call : Instance → Shared → Instance * Shared * R) :
  manager_wf m →
  ∃ m' w' r,
    (k ← GetBufferPoolManager m page_id; at_instance m k w call) = Some (m', w', r) ∧
    manager_wf m' ∧ num_instances_ m' = num_instances_ m ∧
    pool_size_ m' = pool_size_ m ∧ start_index_ m' = start_index_ m.
Proof.
  intros Hwf. pose proof Hwf as (Hn & Hs & Hl).
  unfold GetBufferPoolManager, at_instance. rewrite bool_decide_false by lia. simpl.
  set (k := to_size_t page_id mod num_instances_ m).
  assert (0 <= k < num_instances_ m) as Hk by (apply Z.mod_pos_bound; lia).
  destruct (lookup_lt_is_Some_2 (buffer_pool_manager_instance_ m) (Z.to_nat k))
    as [inst Hinst]; [lia|].
  rewrite Hinst. simpl. destruct (call inst w) as [[inst' w'] r].
  eexists _, _, _. split; [done|]. split; [|done].
  apply set_instances_wf; [done|]. by rewrite length_insert.
Qed.

Lemma flush_all_loop_length l : ∀ w, length (flush_all_loop l w).1 = length l.
Proof.
  induction l as [|inst l IH]; intros w; [done|]. simpl.
  destruct (bpi_FlushAllPgsImp inst w) as [inst' w'].
  specialize (IH w'). destruct (flush_all_loop l w'). simpl in *. by rewrite IH.
Qed.

Lemma NewPgImp_wf m w page_id :
  manager_wf m →
  ∃ m' w' page_id' page,
    NewPgImp m w page_id = Some (m', w', page_id', page) ∧
    manager_wf m' ∧
    num_instances_ m' = num_instances_ m ∧ pool_size_ m' = pool_size_ m ∧
    start_index_ m' = (start_index_ m + 1) mod num_instances_ m.
Proof.
  intros (Hn & Hs & Hl). unfold NewPgImp.
  rewrite bool_decide_false by lia.
  rewrite to_int_small by lia.
  assert (to_size_t (start_index_ m + 1) = start_index_ m + 1) as ->
    by (unfold INT_MAX in *; apply to_size_t_small; lia).
  set (m1 := set_start_index m ((start_index_ m + 1) mod num_instances_ m)).
  destruct (new_page_loop_spec (Z.to_nat (num_instances_ m)) 0 (start_index_ m) m m1 w page_id)
    as (m' & w' & pid' & page & Hloop & Hn' & Hp' & Hs' & Hl' & _);
    [done|done|done|done|simpl; lia|done|done|].
  rewrite Z2Nat.id in Hloop by lia.
  exists m', w', pid', page. split; [done|].
  split; [|done].
  unfold manager_wf. rewrite Hn', Hs', Hl'. simpl.
  split; [done|]. split; [|done]. apply Z.mod_pos_bound. lia.
Qed.

Lemma step_spec o m w :
  manager_wf m →
  ∃ m' w', step o m w = Some (m', w') ∧ manager_wf m' ∧
    num_instances_ m' = num_instances_ m ∧ pool_size_ m' = pool_size_ m ∧
    start_index_ m' =
      (start_index_ m + (if is_new_page o then 1 else 0)) mod num_instances_ m.
Proof.
  intros Hwf. pose proof Hwf as (Hn & Hs & Hl).
  assert (∀ {R} (call : Instance → Shared → Instance * Shared * R) page_id,
    ∃ m' w',
      ('(m', w', _) ← (k ← GetBufferPoolManager m page_id; at_instance m k w call);
       Some (m', w')) = Some (m', w') ∧ manager_wf m' ∧
      num_instances_ m' = num_instances_ m ∧ pool_size_ m' = pool_size_ m ∧
      start_index_ m' = (start_index_ m + 0) mod num_instances_ m) as Hrouted.
  { intros R call page_id.
    destruct (at_instance_spec m w page_id call Hwf) as (m' & w' & r & -> & Hwf' & Hn' & Hp' & Hs').
    exists m', w'. simpl. rewrite Z.add_0_r, Z.mod_small by lia. done. }
  destruct o as [page_id|[|d| |] page_id|]; simpl.
  - destruct (NewPgImp_wf m w page_id Hwf)
      as (m' & w' & pid' & page & -> & Hwf' & Hn' & Hp' & Hs').
    simpl. by exists m', w'.
  - apply Hrouted.
  - apply Hrouted.
  - apply Hrouted.
  - apply Hrouted.
  - unfold FlushAllPgsImp.
    pose proof (flush_all_loop_length (buffer_pool_manager_instance_ m) w) as Hlen.
    destruct (flush_all_loop (buffer_pool_manager_instance_ m) w) as [l w'].
    eexists _, _. split; [done|]. split; [by apply set_instances_wf|].
    simpl. rewrite Z.add_0_r, Z.mod_small by lia. done.
Qed.

Lemma run_spec ops : ∀ m w,
  manager_wf m →
  ∃ m' w', run ops m w = Some (m', w') ∧ manager_wf m' ∧
    num_instances_ m' = num_instances_ m ∧ pool_size_ m' = pool_size_ m ∧
    start_index_ m' =
      (start_index_ m + Z.of_nat (length (filter is_new_page ops))) mod num_instances_ m.
Proof.
  induction ops as [|o ops IH]; intros m w Hwf.
  - exists m, w. pose proof Hwf as (Hn & Hs & Hl). simpl.
    rewrite Z.add_0_r, Z.mod_small by lia. done.
  - destruct (step_spec o m w Hwf) as (m1 & w1 & Hstep & Hwf1 & Hn1 & Hp1 & Hs1).
    destruct (IH m1 w1 Hwf1) as (m' & w' & Hrun & Hwf' & Hn' & Hp' & Hs').
    exists m', w'. cbn [run]. rewrite Hstep. simpl. split; [done|]. split; [done|].
    split; [congruence|]. split; [congruence|].
    rewrite Hs', Hs1, Hn1, Z.add_mod_idemp_l by (destruct Hwf; lia).
    f_equal. rewrite filter_cons. destruct o; simpl; lia.
Qed.

Lemma new_manager_wf num_instances pool_size :
  0 < num_instances <= INT_MAX → manager_wf (new_manager num_instances pool_size).
Proof.
  intros Hn. unfold manager_wf, new_manager. simpl.
  rewrite length_fmap, length_seqZ. lia.
Qed.

End manager.

Arguments num_instances_ {Instance}.
Arguments pool_size_ {Instance}.
Arguments start_index_ {Instance}.
Arguments buffer_pool_manager_instance_ {Instance}.
Arguments manager_wf {Instance}.
Arguments instance_at {Instance}.
Arguments slot {Instance}.
Arguments NewPgImp {Instance Page Shared}.
Arguments GetBufferPoolManager {Instance}.
Arguments GetPoolSize {Instance}.
Arguments new_manager {Instance}.
Arguments run {Instance Page Shared}.

(** The toy instance of the examples: its state is the number of free
    frames, the shared state counts the disk writes; a new page takes a
    frame, costs one write and gets page id [7]. *)
Definition counter_NewPgImp (free : Z) (writes : nat) (page_id : page_id_t)
    : Z * nat * page_id_t * option Z :=
  if bool_decide (0 < free) then (free - 1, S writes, 7, Some 7)
  else (free, writes, page_id, None).

Definition counter_call (page_id : page_id_t) (free : Z) (writes : nat)
    : Z * nat * bool := (free + 1, S writes, true).

Definition counter_fetch (page_id : page_id_t) (free : Z) (writes : nat)
    : Z * nat * option Z := (free - 1, writes, Some page_id).

Definition counter_manager : ParallelBufferPoolManager Z :=
  {| num_instances_ := 3; pool_size_ := 2; start_index_ := 1;
     buffer_pool_manager_instance_ := [2; 0; 0] |}.

(** [NewPgImp] asks the instances one after the other, beginning with the
    one at the start index and wrapping around, each at most once, and
    returns the page of the first one that has one; the instances asked
    before it refused, those after it are not touched; it returns no page
    only when all instances refused.  Whatever the outcome, the start index
    moves on by one, modulo the number of instances. *)
Theorem new_page_round_robin {Instance Page Shared : Type}
    (bpi_NewPgImp :
       Instance → Shared → page_id_t → Instance * Shared * page_id_t * option Page)
    (m : ParallelBufferPoolManager Instance) (w : Shared) (page_id : page_id_t) :
  manager_wf m →
  ∃ m' w' page_id' page,
    NewPgImp bpi_NewPgImp m w page_id = Some (m', w', page_id', page) ∧
    manager_wf m' ∧
    num_instances_ m' = num_instances_ m ∧ pool_size_ m' = pool_size_ m ∧
    start_index_ m' = (start_index_ m + 1) mod num_instances_ m ∧
    ∃ j, 0 <= j <= num_instances_ m ∧
      (∀ i, 0 <= i < j → ∃ inst v p,
          instance_at m (slot m (start_index_ m) i) = Some inst ∧
          (bpi_NewPgImp inst v p).2 = None ∧
          instance_at m' (slot m (start_index_ m) i) = Some (bpi_NewPgImp inst v p).1.1.1) ∧
      (∀ i, j < i < num_instances_ m →
          instance_at m' (slot m (start_index_ m) i)
            = instance_at m (slot m (start_index_ m) i)) ∧
      match page with
      | None => j = num_instances_ m
      | Some pg => j < num_instances_ m ∧ ∃ inst inst' v p,
          instance_at m (slot m (start_index_ m) j) = Some inst ∧
          bpi_NewPgImp inst v p = (inst', w', page_id', Some pg) ∧
          instance_at m' (slot m (start_index_ m) j) = Some inst'
      end.
Proof.
  intros (Hn & Hs & Hl). unfold NewPgImp.
  rewrite bool_decide_false by lia.
  rewrite to_int_small by lia.
  assert (to_size_t (start_index_ m + 1) = start_index_ m + 1) as ->
    by (unfold INT_MAX in *; apply to_size_t_small; lia).
  set (m1 := set_start_index Instance m ((start_index_ m + 1) mod num_instances_ m)).
  destruct (new_page_loop_spec Instance Page Shared bpi_NewPgImp
              (Z.to_nat (num_instances_ m)) 0 (start_index_ m) m m1 w page_id)
    as (m' & w' & pid' & page & Hloop & Hn' & Hp' & Hs' & Hl' & j & Hj & _ & Hrefused
        & Hafter & Hres);
    [done|done|done|done|simpl; lia|done|done|].
  rewrite Z2Nat.id in Hloop by lia.
  change (num_instances_ m1) with (num_instances_ m) in *.
  change (slot m1) with (slot m) in *.
  exists m', w', pid', page. split; [done|].
  split.
  { unfold manager_wf. rewrite Hn', Hs', Hl'. simpl.
    split; [done|]. split; [|done]. apply Z.mod_pos_bound. lia. }
  split; [done|]. split; [done|]. split; [done|].
  exists j. done.
Qed.

Lemma new_page_round_robin_witness :
  ∃ m' w' page_id' page,
    NewPgImp counter_NewPgImp counter_manager 0%nat 5 = Some (m', w', page_id', page) ∧
    manager_wf m' ∧
    num_instances_ m' = 3 ∧ pool_size_ m' = 2 ∧
    start_index_ m' = (1 + 1) mod 3 ∧
    ∃ j, 0 <= j <= 3 ∧
      (∀ i, 0 <= i < j → ∃ inst v p,
          instance_at counter_manager (slot counter_manager 1 i) = Some inst ∧
          (counter_NewPgImp inst v p).2 = None ∧
          instance_at m' (slot counter_manager 1 i)
            = Some (counter_NewPgImp inst v p).1.1.1) ∧
      (∀ i, j < i < 3 →
          instance_at m' (slot counter_manager 1 i)
            = instance_at counter_manager (slot counter_manager 1 i)) ∧
      match page with
      | None => j = 3
      | Some pg => j < 3 ∧ ∃ inst inst' v p,
          instance_at counter_manager (slot counter_manager 1 j) = Some inst ∧
          counter_NewPgImp inst v p = (inst', w', page_id', Some pg) ∧
          instance_at m' (slot counter_manager 1 j) = Some inst'
      end.
Proof.
  apply (new_page_round_robin counter_NewPgImp counter_manager 0%nat 5).
  unfold manager_wf, INT_MAX. simpl. lia.
Defined.

(** From the constructor on, with between one and [INT_MAX] instances,
    every sequence of calls is defined: no call reaches outside the array of
    instances.  The number of instances and the pool size stay what they
    were, [GetPoolSize] is their product, and the start index is the number
    of [NewPgImp] calls made so far, modulo the number of instances. *)
Theorem manager_calls_defined {Instance Page Shared : Type}
    (bpi_create : Z → Z → Z → Instance)
    (bpi_NewPgImp :
       Instance → Shared → page_id_t → Instance * Shared * page_id_t * option Page)
    (bpi_FetchPgImp : page_id_t → Instance → Shared → Instance * Shared * option Page)
    (bpi_UnpinPgImp : page_id_t → bool → Instance → Shared → Instance * Shared * bool)
    (bpi_FlushPgImp bpi_DeletePgImp : page_id_t → Instance → Shared → Instance * Shared * bool)
    (bpi_FlushAllPgsImp : Instance → Shared → Instance * Shared)
    (num_instances pool_size : Z) (w : Shared) (ops : list manager_op) :
  0 < num_instances <= INT_MAX →
  ∃ m w',
    run bpi_NewPgImp bpi_FetchPgImp bpi_UnpinPgImp bpi_FlushPgImp bpi_DeletePgImp
        bpi_FlushAllPgsImp ops (new_manager bpi_create num_instances pool_size) w
      = Some (m, w') ∧
    manager_wf m ∧
    num_instances_ m = num_instances ∧ pool_size_ m = pool_size ∧
    GetPoolSize m = to_size_t (num_instances * pool_size) ∧
    start_index_ m = Z.of_nat (length (filter is_new_page ops)) mod num_instances.
Proof.
  intros Hn.
  destruct (run_spec _ _ _ bpi_NewPgImp bpi_FetchPgImp bpi_UnpinPgImp bpi_FlushPgImp
              bpi_DeletePgImp bpi_FlushAllPgsImp ops
              (new_manager bpi_create num_instances pool_size) w)
    as (m & w' & Hrun & Hwf & Hn' & Hp' & Hs'); [by apply new_manager_wf|].
  exists m, w'. simpl in *. split; [done|]. split; [done|]. split; [done|]. split; [done|].
  split; [by unfold GetPoolSize; rewrite Hn', Hp'|done].
Qed.

Lemma manager_calls_defined_witness :
  ∃ m w',
    run counter_NewPgImp counter_fetch (λ p _, counter_call p) counter_call
        counter_call (λ i w, (i, S w))
        [ONewPage 0; OCall CFetch 4; ONewPage 0; OFlushAll]
        (new_manager (λ pool_size _ _, pool_size) 3 2) 0%nat = Some (m, w') ∧
    manager_wf m ∧
    num_instances_ m = 3 ∧ pool_size_ m = 2 ∧
    GetPoolSize m = to_size_t (3 * 2) ∧
    start_index_ m =
      Z.of_nat (length (filter is_new_page
        [ONewPage 0; OCall CFetch 4; ONewPage 0; OFlushAll])) mod 3.
Proof.
  apply (manager_calls_defined (λ pool_size _ _, pool_size) counter_NewPgImp
           counter_fetch (λ p _, counter_call p) counter_call counter_call
           (λ i w, (i, S w)) 3 2 0%nat).
  unfold INT_MAX. lia.
Defined.

End PBPM.
